(** * A local-music web player: playback decisions and audio-graph lifecycle

    Shallow embedding of the player's React components and hooks:
    - [UseAudioPlayer]: the seek handler of the playback hook;
    - [App]: the playlist bookkeeping of the top-level component
      (sequential and shuffled next/previous, shuffle history, the shuffle
      itself, track selection and reloading the track list);
    - [EnhancedAudioPlayer]: the `ended` handler of the player component
      and its repeat button;
    - [BassAnalysis]: the bass-analysis loop driven by animation frames;
    - [TrackLoad]: the effect that loads a track and starts playback, with
      its single retry of a rejected [play()];
    - [UseAudioContext]: creation, reset and close of the Web Audio graph.

    JavaScript numbers that hold indices are integers ([Z], -1 is the "none"
    index); numbers that hold seconds or a random draw are rationals ([Q]);
    the published bass value, which goes through [Math.pow], is a real
    number ([R]).
    React state is a record of the [useState] cells; a handler reads the
    cells of the render it was created in and its setters produce the next
    record.  Asynchronous code runs on an explicit event loop ([EventLoop]):
    a microtask queue, timers ordered by due time, and a virtual clock in
    milliseconds.  What the browser decides (whether [play()] is rejected,
    how long a close takes, whether wrapping the media element fails) is a
    parameter of the model. *)

From Stdlib Require Import ZArith QArith Qround Ascii String List Bool Lia.
From Stdlib Require Import Reals Lra.
From stdpp Require Import base list.
Import ListNotations.

Local Open Scope Z_scope.

(** ** JavaScript arrays and completions *)

(** [arr[i]] for an integer index: [None] is [undefined]. *)
Definition js_get {A : Type} (arr : list A) (i : Z) : option A :=
  if i <? 0 then None else arr !! Z.to_nat i.

(** [arr.slice(0, e)]: a negative end counts from the back of the array. *)
Definition js_slice0 {A : Type} (arr : list A) (e : Z) : list A :=
  if e <? 0
  then take (Z.to_nat (Z.max (Z.of_nat (length arr) + e) 0)) arr
  else take (Z.to_nat e) arr.

(** [Array.from({ length: n }, (_, i) => i)] *)
Definition js_range (n : nat) : list Z := map Z.of_nat (seq 0 n).

(** Result of running a handler: it returns, or it throws a [TypeError]
    (a property read on [undefined]).  What React commits after a throwing
    handler is outside the model. *)
Inductive Completion (A : Type) : Type :=
| Normal (a : A)
| TypeError.
Arguments Normal {A} a.
Arguments TypeError {A}.

Definition bindC {A B : Type} (c : Completion A) (k : A -> Completion B)
  : Completion B :=
  match c with
  | Normal a => k a
  | TypeError => TypeError
  end.

(** ** The playback hook: seeking
    (spotify_downloads/client/src/components/audio-player/hooks/useAudioPlayer.ts) *)
Module UseAudioPlayer.

(** The part of an [HTMLAudioElement] the seek handler touches. *)
Record AudioElement := mkAudio {
  el_currentTime : Q;
  el_duration : Q;
}.

(** Hook state: [currentTime] and [duration] start at 0 (duration not yet
    known); [audio] is [audioRef.current]. *)
Record Player := mkPlayer {
  currentTime : Q;
  duration : Q;
  audio : option AudioElement;
}.

(** [handleSeek(seekTime)]:
    [setCurrentTime(seekTime);
     if (audioRef.current) audioRef.current.currentTime = seekTime;] *)
Definition handleSeek (seekTime : Q) (p : Player) : Player :=
  {| currentTime := seekTime;
     duration := duration p;
     audio := match audio p with
              | Some a => Some {| el_currentTime := seekTime;
                                  el_duration := el_duration a |}
              | None => None
              end |}.

(** The seek handler of the player component
    ([handleSeek(e)] with [seekTime = parseFloat(e.target.value)]) does the
    same with the value carried by the change event. *)
Definition handleSeekEvent (targetValue : Q) (p : Player) : Player :=
  handleSeek targetValue p.

(** The displayed position lies within [0, duration]. *)
Definition clamped (p : Player) : Prop :=
  (0 <= currentTime p)%Q /\ (currentTime p <= duration p)%Q.

End UseAudioPlayer.

(** ** Playlist bookkeeping of the top-level component (App.tsx) *)
Module App.

Record Track := mkTrack {
  id : string;
  path : string;
  title : string;
  artist : string;
  album : string;
  coverArt : option string;          (* [string | null] *)
}.

Record TrackMetadata := mkMeta {
  m_title : string;
  m_artist : string;
  m_album : string;
  m_coverArt : option string;        (* [coverArt?: string] *)
}.

(** The [currentTrack] object handed to the player. *)
Record Playing := mkPlaying {
  url : string;
  metadata : option TrackMetadata;
}.

(** The [useState] cells of [App]. *)
Record State := mkState {
  currentTrack : option Playing;
  allTracks : list Track;
  currentTrackIndex : Z;
  isShuffled : bool;
  shuffledIndexes : list Z;
  shuffleHistory : list Z;
  shuffleHistoryIndex : Z;
}.

Definition setCurrentTrack (v : option Playing) (s : State) : State :=
  mkState v (allTracks s) (currentTrackIndex s) (isShuffled s)
          (shuffledIndexes s) (shuffleHistory s) (shuffleHistoryIndex s).

Definition setCurrentTrackIndex (v : Z) (s : State) : State :=
  mkState (currentTrack s) (allTracks s) v (isShuffled s)
          (shuffledIndexes s) (shuffleHistory s) (shuffleHistoryIndex s).

Definition setIsShuffled (v : bool) (s : State) : State :=
  mkState (currentTrack s) (allTracks s) (currentTrackIndex s) v
          (shuffledIndexes s) (shuffleHistory s) (shuffleHistoryIndex s).

Definition setShuffleHistory (v : list Z) (s : State) : State :=
  mkState (currentTrack s) (allTracks s) (currentTrackIndex s) (isShuffled s)
          (shuffledIndexes s) v (shuffleHistoryIndex s).

Definition setShuffleHistoryIndex (v : Z) (s : State) : State :=
  mkState (currentTrack s) (allTracks s) (currentTrackIndex s) (isShuffled s)
          (shuffledIndexes s) (shuffleHistory s) v.

(** [allTracks.length] and [shuffleHistory.length] as numbers. *)
Definition tracksLength (s : State) : Z := Z.of_nat (length (allTracks s)).
Definition historyLength (s : State) : Z := Z.of_nat (length (shuffleHistory s)).

(** [track.coverArt || undefined]: an empty string is falsy. *)
Definition orUndefined (c : option string) : option string :=
  match c with
  | Some EmptyString => None
  | other => other
  end.

(** The object passed to [setCurrentTrack] by the track handlers. *)
Definition playingOf (track : Track) : Playing :=
  {| url := path track;
     metadata := Some {| m_title := title track;
                         m_artist := artist track;
                         m_album := album track;
                         m_coverArt := orUndefined (coverArt track) |} |}.

(** The candidates of a random pick:
    [Array.from({ length: allTracks.length }, (_, i) => i)
       .filter(idx => idx !== currentTrackIndex)] *)
Definition availableIndexes (s : State) : list Z :=
  List.filter (fun idx => negb (idx =? currentTrackIndex s))
              (js_range (length (allTracks s))).

(** [getNextTrackIndex()].  [rand] is the value of [Math.random()], a number
    in [0, 1); [None] is [undefined] (an array read outside its bounds). *)
Definition getNextTrackIndex (rand : Q) (s : State) : option Z :=
  if negb (isShuffled s) then
    Some (if currentTrackIndex s <? tracksLength s - 1
          then currentTrackIndex s + 1 else -1)
  else if tracksLength s =? 0 then Some (-1)
  else if shuffleHistoryIndex s <? historyLength s - 1 then
    js_get (shuffleHistory s) (shuffleHistoryIndex s + 1)
  else if tracksLength s >? 1 then
    let available := availableIndexes s in
    let randomIndex :=
      Qfloor (rand * inject_Z (Z.of_nat (length available))) in
    js_get available randomIndex
  else if tracksLength s =? 1 then Some (currentTrackIndex s)
  else Some (-1).

(** [getPreviousTrackIndex()] *)
Definition getPreviousTrackIndex (s : State) : option Z :=
  if negb (isShuffled s) then
    Some (if currentTrackIndex s >? 0 then currentTrackIndex s - 1 else -1)
  else if (historyLength s >? 0) && (shuffleHistoryIndex s >? 0) then
    js_get (shuffleHistory s) (shuffleHistoryIndex s - 1)
  else Some (-1).

(** [handleShuffleChange(shuffleState)] *)
Definition handleShuffleChange (shuffleState : bool) (s : State) : State :=
  let s := setIsShuffled shuffleState s in
  if shuffleState then
    if negb (currentTrackIndex s =? -1) then
      setShuffleHistoryIndex 0 (setShuffleHistory [currentTrackIndex s] s)
    else setShuffleHistoryIndex (-1) (setShuffleHistory [] s)
  else setShuffleHistoryIndex (-1) (setShuffleHistory [] s).

(** The tail shared by both handlers: [const track = allTracks[newIndex]],
    then [track.title] is read for the log line (a [TypeError] when the
    track is [undefined]) and [setCurrentTrack] is called. *)
Definition playTrackAt (newIndex : Z) (s : State) : Completion State :=
  match js_get (allTracks s) newIndex with
  | Some track => Normal (setCurrentTrack (Some (playingOf track)) s)
  | None => TypeError
  end.

(** [handlePreviousTrack()].  All right-hand sides read the state of the
    render the handler was created in, here [s]. *)
Definition handlePreviousTrack (s : State) : Completion State :=
  match getPreviousTrackIndex s with
  | None => TypeError                 (* [allTracks[undefined].title] *)
  | Some newIndex =>
    if negb (newIndex =? -1) then
      let s1 := setCurrentTrackIndex newIndex s in
      let s2 := if isShuffled s && (shuffleHistoryIndex s >? 0)
                then setShuffleHistoryIndex (shuffleHistoryIndex s - 1) s1
                else s1 in
      playTrackAt newIndex s2
    else Normal s
  end.

(** [handleNextTrack()] *)
Definition handleNextTrack (rand : Q) (s : State) : Completion State :=
  match getNextTrackIndex rand s with
  | None => TypeError                 (* [allTracks[undefined].title] *)
  | Some newIndex =>
    if negb (newIndex =? -1) then
      let s1 := setCurrentTrackIndex newIndex s in
      let s2 :=
        if isShuffled s then
          if shuffleHistoryIndex s <? historyLength s - 1 then
            setShuffleHistoryIndex (shuffleHistoryIndex s + 1) s1
          else
            let newHistory :=
              js_slice0 (shuffleHistory s) (shuffleHistoryIndex s + 1)
                ++ [newIndex] in
            setShuffleHistoryIndex (Z.of_nat (length newHistory) - 1)
              (setShuffleHistory newHistory s1)
        else s1 in
      playTrackAt newIndex s2
    else Normal s
  end.

(** [allTracks.findIndex(pred)]: -1 when no element satisfies [pred]. *)
Fixpoint findIndexFrom (pred : Track -> bool) (i : Z) (tracks : list Track) : Z :=
  match tracks with
  | [] => -1
  | t :: rest => if pred t then i else findIndexFrom pred (i + 1) rest
  end.

(** The effect on [[currentTrack, allTracks]]: when the current track has a
    URL, [currentTrackIndex] is recomputed from it. *)
Definition syncCurrentTrackIndex (s : State) : State :=
  match currentTrack s with
  | Some playing =>
    if negb (String.eqb (url playing) EmptyString) then
      setCurrentTrackIndex
        (findIndexFrom
           (fun track =>
              String.eqb ("http://localhost:5000/api/stream/" ++ id track)%string
                         (url playing)
              || String.eqb (path track) (url playing))
           0 (allTracks s))
        s
    else s
  | None => s
  end.

(** A press on "next" or "previous" as the user sees it: the handler, the
    commit, and then the effect above, which runs exactly when the handler
    stored a fresh [currentTrack] object, that is when it moved. *)
Definition pressNext (rand : Q) (s : State) : Completion State :=
  match getNextTrackIndex rand s with
  | Some newIndex =>
    if negb (newIndex =? -1)
    then bindC (handleNextTrack rand s)
               (fun s' => Normal (syncCurrentTrackIndex s'))
    else Normal s
  | None => TypeError
  end.

Definition pressPrevious (s : State) : Completion State :=
  match getPreviousTrackIndex s with
  | Some newIndex =>
    if negb (newIndex =? -1)
    then bindC (handlePreviousTrack s)
               (fun s' => Normal (syncCurrentTrackIndex s'))
    else Normal s
  | None => TypeError
  end.

(** The props the player receives from [App]:
    [hasPrevious={getPreviousTrackIndex() !== -1}] and
    [hasNext={allTracks.length > 0}]. *)
Definition hasPreviousProp (s : State) : bool :=
  match getPreviousTrackIndex s with
  | Some i => negb (i =? -1)
  | None => true
  end.

Definition hasNextProp (s : State) : bool := tracksLength s >? 0.

(** *** The rest of the playlist handlers *)

(** [[indexes[i], indexes[j]] = [indexes[j], indexes[i]]].  Both reads come
    first.  [None] stands for an index outside the array, where JavaScript
    would store [undefined] or grow the array; with [Math.random()] in
    [0, 1) the shuffle below never gets there. *)
Definition js_swap (indexes : list Z) (i : nat) (j : Z) : option (list Z) :=
  match js_get indexes j, indexes !! i with
  | Some atJ, Some atI =>
    Some (<[Z.to_nat j := atI]> (<[i := atJ]> indexes))
  | _, _ => None
  end.

(** The loop [for (let i = indexes.length - 1; i > 0; i--)] of the
    Fisher-Yates shuffle, entered with [i = S i']; [rand call] is the value
    of the call-th [Math.random()]. *)
Fixpoint fisherYates (rand : nat -> Q) (call : nat) (i : nat) (indexes : list Z)
  : option (list Z) :=
  match i with
  | O => Some indexes
  | S i' =>
    let j := Qfloor (rand call * inject_Z (Z.of_nat i + 1)) in
    match js_swap indexes i j with
    | Some swapped => fisherYates rand (S call) i' swapped
    | None => None
    end
  end.

(** [generateShuffledIndexes()] *)
Definition generateShuffledIndexes (rand : nat -> Q) (s : State) : option (list Z) :=
  if tracksLength s =? 0 then Some []
  else
    let indexes := js_range (length (allTracks s)) in
    fisherYates rand 0 (length indexes - 1) indexes.

(** [handleTrackSelect(track)]: the track is looked up by its path; the
    player is handed the clicked track itself. *)
Definition handleTrackSelect (track : Track) (s : State) : State :=
  let index :=
    findIndexFrom (fun t => String.eqb (path t) (path track)) 0 (allTracks s) in
  if negb (index =? -1) then
    let s1 := setCurrentTrackIndex index s in
    let s2 :=
      if isShuffled s then
        let newHistory :=
          if shuffleHistoryIndex s >=? 0
          then js_slice0 (shuffleHistory s) (shuffleHistoryIndex s + 1) ++ [index]
          else [index] in
        setShuffleHistoryIndex (Z.of_nat (length newHistory) - 1)
          (setShuffleHistory newHistory s1)
      else s1 in
    setCurrentTrack (Some (playingOf track)) s2
  else s.

(** A click on a track in the list: the handler, then the effect when a
    track was found. *)
Definition pressTrack (track : Track) (s : State) : State :=
  if negb (findIndexFrom (fun t => String.eqb (path t) (path track)) 0 (allTracks s)
           =? -1)
  then syncCurrentTrackIndex (handleTrackSelect track s)
  else s.

Definition setAllTracks (v : list Track) (s : State) : State :=
  mkState (currentTrack s) v (currentTrackIndex s) (isShuffled s)
          (shuffledIndexes s) (shuffleHistory s) (shuffleHistoryIndex s).

Definition setShuffledIndexes (v : list Z) (s : State) : State :=
  mkState (currentTrack s) (allTracks s) (currentTrackIndex s) (isShuffled s)
          v (shuffleHistory s) (shuffleHistoryIndex s).

(** [handleTracksLoaded(tracks)].  [generateShuffledIndexes] belongs to the
    render before the new tracks arrive, so it shuffles the old range; the
    shuffle history is left as it is.  The effect on [[currentTrack,
    allTracks]] runs afterwards. *)
Definition handleTracksLoaded (rand : nat -> Q) (tracks : list Track) (s : State)
  : option State :=
  let s1 := setAllTracks tracks s in
  if isShuffled s then
    match generateShuffledIndexes rand s with
    | Some indexes => Some (syncCurrentTrackIndex (setShuffledIndexes indexes s1))
    | None => None
    end
  else Some (syncCurrentTrackIndex s1).

(** [trackPath.replace(/\\/g, '/')] *)
Fixpoint forwardSlashes (p : string) : string :=
  match p with
  | EmptyString => EmptyString
  | String c rest =>
    String (if Ascii.eqb c "\"%char then "/"%char else c) (forwardSlashes rest)
  end.

(** [getProperAudioUrl(trackPath)], with [encodeURIComponent] as a
    parameter. *)
Definition getProperAudioUrl (encodeURIComponent : string -> string)
    (trackPath : string) : string :=
  if String.eqb trackPath EmptyString then EmptyString
  else if String.prefix "http" trackPath then trackPath
  else if String.prefix "/api/" trackPath then trackPath
  else ("/api/audio?path=" ++ encodeURIComponent (forwardSlashes trackPath))%string.

(** What the user can do with a loaded playlist. *)
Inductive Action :=
| PressNext (rand : Q)
| PressPrevious
| PressTrack (track : Track)
| ToggleShuffle (shuffleState : bool).

Definition act (a : Action) (s : State) : Completion State :=
  match a with
  | PressNext rand => pressNext rand s
  | PressPrevious => pressPrevious s
  | PressTrack track => Normal (pressTrack track s)
  | ToggleShuffle shuffleState => Normal (handleShuffleChange shuffleState s)
  end.

Fixpoint actAll (actions : list Action) (s : State) : Completion State :=
  match actions with
  | [] => Normal s
  | a :: rest => bindC (act a s) (actAll rest)
  end.

End App.

(** ** The player component: the `ended` handler (EnhancedAudioPlayer.tsx) *)
Module EnhancedAudioPlayer.

(** The audio element as [handleEnded] uses it: its position and the number
    of [play()] calls made on it. *)
Record Audio := mkAudio {
  a_currentTime : Q;
  a_playCalls : nat;
}.

(** What [audio.play()] gives back: [undefined] (old browsers), or a promise
    that is later fulfilled or rejected. *)
Inductive PlayPromise := PlayUndefined | PlayFulfilled | PlayRejected.

(** The state cells the handler reads and writes.  [repeatMode] is
    0 (no repeat), 1 (repeat all) or 2 (repeat one). *)
Record Player := mkPlayer {
  isPlaying : bool;
  currentTime : Q;
  repeatMode : Z;
  audio : option Audio;               (* [audioRef.current] *)
}.

(** The props [handleEnded] depends on.  The callbacks act on the state of
    the parent component; a missing callback is [None].  [hasPrevious] and
    [hasNext] default to [false]. *)
Record Props (Parent : Type) := mkProps {
  hasPrevious : bool;
  hasNext : bool;
  onPrevious : option (Parent -> Completion Parent);
  onNext : option (Parent -> Completion Parent);
}.
Arguments mkProps {Parent} _ _ _ _.
Arguments hasPrevious {Parent} _.
Arguments hasNext {Parent} _.
Arguments onPrevious {Parent} _.
Arguments onNext {Parent} _.

(** [toggleRepeatMode]: [setRepeatMode(prev => (prev + 1) % 3)] *)
Definition toggleRepeatMode (pl : Player) : Player :=
  mkPlayer (isPlaying pl) (currentTime pl) (Z.rem (repeatMode pl + 1) 3) (audio pl).

(** The first statements of [handleEnded], common to every branch:
    [setIsPlaying(false); setCurrentTime(0);
     if (audioRef.current) audioRef.current.currentTime = 0;] *)
Definition stopAtStart (pl : Player) : Player :=
  mkPlayer false 0 (repeatMode pl)
           (option_map (fun a => mkAudio 0 (a_playCalls a)) (audio pl)).

(** Repeat one: [audioRef.current.play()], and [setIsPlaying(true)] once the
    promise is fulfilled ([played] is how that call turns out). *)
Definition replay (played : PlayPromise) (pl : Player) : Player :=
  match audio pl with
  | Some a =>
    mkPlayer (match played with PlayFulfilled => true | _ => isPlaying pl end)
             (currentTime pl) (repeatMode pl)
             (Some (mkAudio (a_currentTime a) (S (a_playCalls a))))
  | None => pl
  end.

(** A callback of the parent, run from inside the handler. *)
Definition callParent {Parent : Type} (callback : Parent -> Completion Parent)
    (pl : Player) (parent : Parent) : Completion (Player * Parent) :=
  bindC (callback parent) (fun parent' => Normal (pl, parent')).

(** [handleEnded()] *)
Definition handleEnded {Parent : Type} (props : Props Parent)
    (played : PlayPromise) (pl : Player) (parent : Parent)
  : Completion (Player * Parent) :=
  let pl0 := stopAtStart pl in
  if repeatMode pl =? 2 then
    Normal (replay played pl0, parent)
  else
    match (repeatMode pl =? 1) && hasNext props, onNext props with
    | true, Some next => callParent next pl0 parent
    | _, _ =>
      match (repeatMode pl =? 1) && negb (hasNext props) && hasPrevious props,
            onPrevious props with
      | true, Some previous => callParent previous pl0 parent
      | _, _ =>
        match hasNext props, onNext props with
        | true, Some next => callParent next pl0 parent
        | _, _ => Normal (pl0, parent)
        end
      end
    end.

(** The props [App] renders the player with; [rand] is the random draw the
    "next" handler would use. *)
Definition propsFromApp (rand : Q) (app : App.State) : Props App.State :=
  mkProps (App.hasPreviousProp app) (App.hasNextProp app)
          (Some App.pressPrevious) (Some (App.pressNext rand)).

End EnhancedAudioPlayer.

(** ** The browser event loop
    Callbacks are first-order values of a type [K]; [exec] says what running
    one does.  Microtasks (promise reactions) run before the next timer;
    timers run in order of due time, the one set first winning a tie.  That
    tie-break is the browser's rule for two [setTimeout] calls; completions
    of the platform (a close, a settled promise) are scheduled the same way,
    and a theorem whose conclusion depends on the order of such a completion
    and a timer excludes the tie by hypothesis. *)
Module EventLoop.

Section Loop.
Context {S K : Type}.

Record Timer := mkTimer {
  t_id : nat;
  t_due : nat;
  t_callback : K;
}.

Record Loop := mkLoop {
  clock : nat;                        (* virtual time, in ms *)
  nextId : nat;                       (* next timer or frame id, never 0 *)
  microtasks : list K;
  timers : list Timer;
  state : S;
}.

Definition withState (f : S -> S) (l : Loop) : Loop :=
  mkLoop (clock l) (nextId l) (microtasks l) (timers l) (f (state l)).

(** [queueMicrotask] / a reaction on an already settled promise *)
Definition enqueue (k : K) (l : Loop) : Loop :=
  mkLoop (clock l) (nextId l) (microtasks l ++ [k]) (timers l) (state l).

(** [setTimeout(k, delay)] and [requestAnimationFrame(k)]: the id handed
    back is [nextId l]. *)
Definition setTimer (k : K) (delay : nat) (l : Loop) : Loop :=
  mkLoop (clock l) (Datatypes.S (nextId l)) (microtasks l)
         (timers l ++ [mkTimer (nextId l) (clock l + delay) k]) (state l).

(** [clearTimeout(id)] and [cancelAnimationFrame(id)] *)
Definition clearTimer (id : nat) (l : Loop) : Loop :=
  mkLoop (clock l) (nextId l) (microtasks l)
         (List.filter (fun t => negb (Nat.eqb (t_id t) id)) (timers l)) (state l).

Fixpoint earliest (ts : list Timer) : option Timer :=
  match ts with
  | [] => None
  | t :: rest =>
    match earliest rest with
    | Some u => if Nat.leb (t_due t) (t_due u) then Some t else Some u
    | None => Some t
    end
  end.

Variable exec : K -> Loop -> Loop.

(** One turn: the oldest microtask if there is one, else the earliest timer;
    [None] when nothing is pending. *)
Definition step (l : Loop) : option Loop :=
  match microtasks l with
  | k :: rest =>
    Some (exec k (mkLoop (clock l) (nextId l) rest (timers l) (state l)))
  | [] =>
    match earliest (timers l) with
    | Some t =>
      Some (exec (t_callback t)
                 (clearTimer (t_id t)
                    (mkLoop (Nat.max (clock l) (t_due t)) (nextId l) []
                            (timers l) (state l))))
    | None => None
    end
  end.

Fixpoint run (fuel : nat) (l : Loop) : Loop :=
  match fuel with
  | O => l
  | Datatypes.S fuel' =>
    match step l with
    | Some l' => run fuel' l'
    | None => l
    end
  end.

Definition idle (l : Loop) : Prop := microtasks l = [] /\ timers l = [].

End Loop.

Arguments Timer : clear implicits.
Arguments Loop : clear implicits.

End EventLoop.

(** ** The bass-analysis loop of the player component
    (the effect on [[analyser, isPlaying]] in EnhancedAudioPlayer.tsx) *)
Module BassAnalysis.
Import EventLoop.

(** The published bass value.  [scaledBass] is
    [Math.pow(Math.min(1, bassSum / (8 * 255) * 0.7 + maxBassValue / 255 * 0.3), 0.8) * 0.8],
    a double; it is kept as the two integers it is computed from. *)
Inductive Bass :=
| BassZero
| BassScaled (bassSum maxBassValue : Z).

(** Callbacks of this loop: the tick, closed over its analyser node. *)
Inductive Callback := AnalyzeBass (analyserNode : nat).

Record Viz := mkViz {
  isPlaying : bool;
  analyser : option nat;              (* the [AnalyserNode], by identity *)
  bassValue : Bass;
  animationFrameRef : option nat;     (* [animationFrameRef.current] *)
  reads : nat;                        (* [getByteFrequencyData] calls so far *)
  cleanupPending : bool;              (* the last effect run returned its cleanup *)
}.

(** [analyser.getByteFrequencyData(dataArray)] for the n-th read of a node:
    the snapshot written into the array, or [None] when the call throws. *)
Definition FrequencySource := nat -> nat -> option (list Byte.byte).

Definition bassRange : nat := 8.

(** Display frames are [framePeriod] ms apart. *)
Definition framePeriod : nat := 16.

(** The [Uint8Array] after the read: 128 bins ([fftSize] 256), zero where the
    snapshot is shorter. *)
Definition dataArrayOf (snapshot : list Byte.byte) : list Z :=
  take 128 (map (fun b => Z.of_N (Byte.to_N b)) snapshot ++ repeat 0 128).

(** The [for] loop over the lowest [bassRange] bins: sum and maximum. *)
Definition bassWindow (dataArray : list Z) : Z * Z :=
  fold_left (fun acc i =>
               let value := nth i dataArray 0 in
               (fst acc + value, Z.max (snd acc) value))
            (seq 0 bassRange) (0, 0).

Definition setBassValue (v : Bass) (s : Viz) : Viz :=
  mkViz (isPlaying s) (analyser s) v (animationFrameRef s) (reads s)
        (cleanupPending s).

Definition setFrameRef (r : option nat) (s : Viz) : Viz :=
  mkViz (isPlaying s) (analyser s) (bassValue s) r (reads s) (cleanupPending s).

Definition countRead (s : Viz) : Viz :=
  mkViz (isPlaying s) (analyser s) (bassValue s) (animationFrameRef s)
        (Datatypes.S (reads s)) (cleanupPending s).

Definition setCleanupPending (b : bool) (s : Viz) : Viz :=
  mkViz (isPlaying s) (analyser s) (bassValue s) (animationFrameRef s)
        (reads s) b.

Definition setProps (a : option nat) (playing : bool) (s : Viz) : Viz :=
  mkViz playing a (bassValue s) (animationFrameRef s) (reads s)
        (cleanupPending s).

(** [analyzeBass()]: one tick.  A throwing read lands in the [catch], which
    publishes 0 and does not schedule another frame. *)
Definition analyzeBass (source : FrequencySource) (node : nat)
    (l : Loop Viz Callback) : Loop Viz Callback :=
  let l1 := withState countRead l in
  match source node (reads (state l)) with
  | Some snapshot =>
    let window := bassWindow (dataArrayOf snapshot) in
    let l2 := withState (setBassValue (BassScaled (fst window) (snd window))) l1 in
    let frame := nextId l2 in
    withState (setFrameRef (Some frame))
              (setTimer (AnalyzeBass node) framePeriod l2)
  | None => withState (setBassValue BassZero) l1
  end.

Definition exec (source : FrequencySource) (k : Callback)
    (l : Loop Viz Callback) : Loop Viz Callback :=
  match k with
  | AnalyzeBass node => analyzeBass source node l
  end.

(** The cleanup returned by the effect:
    [if (animationFrameRef.current) { cancelAnimationFrame(...); ... = null }]
    (a frame id of 0 would be falsy). *)
Definition analysisCleanup (l : Loop Viz Callback) : Loop Viz Callback :=
  match animationFrameRef (state l) with
  | Some frame =>
    if Nat.eqb frame 0 then l
    else withState (setFrameRef None) (clearTimer frame l)
  | None => l
  end.

(** The effect body, run with the props already stored in the state. *)
Definition analysisEffect (source : FrequencySource)
    (l : Loop Viz Callback) : Loop Viz Callback :=
  match analyser (state l), isPlaying (state l) with
  | Some node, true =>
    withState (setCleanupPending true) (analyzeBass source node l)
  | _, _ =>
    withState (setCleanupPending false)
      (if negb (isPlaying (state l))
       then withState (setBassValue BassZero) l
       else l)
  end.

Definition sameNode (a b : option nat) : bool :=
  match a, b with
  | Some x, Some y => Nat.eqb x y
  | None, None => true
  | _, _ => false
  end.

(** A render with new values of [analyser] and [isPlaying]: when either
    dependency changed, React runs the pending cleanup of the previous effect
    and then the effect again. *)
Definition render (source : FrequencySource) (a : option nat) (playing : bool)
    (l : Loop Viz Callback) : Loop Viz Callback :=
  if sameNode a (analyser (state l)) && Bool.eqb playing (isPlaying (state l))
  then l
  else
    let l1 := if cleanupPending (state l) then analysisCleanup l else l in
    analysisEffect source (withState (setProps a playing) l1).

(** The component right after mounting: nothing playing, no analyser; the
    effect ran once and published 0. *)
Definition mounted : Loop Viz Callback :=
  mkLoop 0 1 [] [] (mkViz false None BassZero None 0 false).

(** What happens to a mounted player: renders with new props, and turns of
    the event loop (display frames). *)
Inductive Event :=
| Render (a : option nat) (playing : bool)
| Turn.

Definition apply (source : FrequencySource) (e : Event)
    (l : Loop Viz Callback) : Loop Viz Callback :=
  match e with
  | Render a playing => render source a playing l
  | Turn => run (exec source) 1 l
  end.

Definition play (source : FrequencySource) (events : list Event)
  : Loop Viz Callback :=
  fold_left (fun l e => apply source e l) events mounted.

(** *** The published number *)

(** [Math.pow(x, y)] for [x >= 0] and [y > 0], as a real number:
    [Math.pow(0, y)] is 0. *)
Definition js_pow (x y : R) : R :=
  if Req_EM_T x 0 then 0%R else Rpower x y.

(** The number [setBassValue] receives, over the real numbers:
    [avgBass = bassSum / (bassRange * 255)],
    [normalizedBass = Math.min(1, avgBass * 0.7 + (maxBassValue / 255) * 0.3)],
    [scaledBass = Math.pow(normalizedBass, 0.8) * 0.8]; and 0 from
    [setBassValue(0)]. *)
Definition scaledBass (b : Bass) : R :=
  match b with
  | BassZero => 0%R
  | BassScaled bassSum maxBassValue =>
    let avgBass := (IZR bassSum / (INR bassRange * 255))%R in
    let normalizedBass :=
      Rmin 1 (avgBass * 0.7 + (IZR maxBassValue / 255) * 0.3)%R in
    (js_pow normalizedBass 0.8 * 0.8)%R
  end.

(** The formula as the specification words it, for the bins of the bass
    window: [avg = mean(bins)/255], [peak = max(bins)/255],
    [normalized = min(1, avg*0.7 + peak*0.3)],
    [output = normalized^0.8 * 0.8]. *)
Definition mean (bins : list Z) : R :=
  (IZR (fold_right Z.add 0%Z bins) / INR (length bins))%R.

Definition peakOf (bins : list Z) : Z := fold_right Z.max 0 bins.

Definition specOutput (bins : list Z) : R :=
  let avg := (mean bins / 255)%R in
  let peak := (IZR (peakOf bins) / 255)%R in
  let normalized := Rmin 1 (avg * 0.7 + peak * 0.3)%R in
  (js_pow normalized 0.8 * 0.8)%R.

End BassAnalysis.

(** ** Loading a track and starting playback
    (the effect on [[url, volume, ...]] in hooks/useAudioPlayer.ts) *)
Module TrackLoad.
Import EventLoop.

(** What a rejected [play()] promise or a thrown exception carries, as
    [handleFailure] tells the cases apart. *)
Inductive Reason :=
| ErrorObject (message : string)      (* [err instanceof Error] *)
| StringReason (text : string)        (* [typeof err === 'string'] *)
| ObjectReason (shown : string)       (* another object; [shown] is [String(err)] *)
| NoReason.                           (* anything falsy *)

(** How one call of [audio.play()] turns out. *)
Inductive PlayResult :=
| PlayUndefined                       (* old browsers: no promise *)
| PlayFulfilled
| PlayRejected (r : Reason)           (* e.g. autoplay blocked *)
| PlayThrows (r : Reason).

(** The browser: the result of the n-th [play()] call (from 0), the time a
    play promise takes to settle, and [encodeURIComponent]. *)
Record Browser := mkBrowser {
  playResult : nat -> PlayResult;
  settleDelay : nat;
  encodeURIComponent : string -> string;
}.

Record Hook := mkHook {
  isPlaying : bool;
  loading : bool;
  error : option string;
  isMounted : bool;                   (* the effect's local flag *)
  hasAudio : bool;                    (* [audioRef.current] is not null *)
  src : string;                       (* [audio.src] *)
  playCalls : list nat;               (* times of the [play()] calls, latest first *)
  contextResets : nat;                (* [safeResetAudioContext()] calls *)
}.

Inductive Callback :=
| LoadTimer (url : string)            (* the 200 ms timer of the effect *)
| Settled (attempt : nat)             (* the promise of that [play()] call settles *)
| RetryTimer.                         (* the 300 ms timer set on rejection *)

Definition setPlayback (playing : bool) (err : option string) (s : Hook) : Hook :=
  mkHook playing false err (isMounted s) (hasAudio s) (src s) (playCalls s)
         (contextResets s).

(** [url.replace(/\\/g, '/')] *)
Fixpoint slashes (s : string) : string :=
  match s with
  | EmptyString => EmptyString
  | String c rest =>
    String (if Ascii.eqb c "\"%char then "/"%char else c) (slashes rest)
  end.

(** [sanitizeUrl(url)] *)
Definition sanitizeUrl (b : Browser) (url : string) : string :=
  if String.eqb url EmptyString then EmptyString
  else if String.prefix "http" url then url
  else if String.prefix "/api/" url then url
  else ("/api/audio?path=" ++ encodeURIComponent b (slashes url))%string.

(** [handleSuccess()] *)
Definition handleSuccess (s : Hook) : Hook :=
  if negb (isMounted s) then s else setPlayback true (error s) s.

(** The text shown to the user by [handleFailure]. *)
Definition failureMessage (err : Reason) : string :=
  ("Error loading audio: " ++
   match err with
   | ErrorObject message => message
   | StringReason text => text
   | ObjectReason shown => shown
   | NoReason => "Unknown error"
   end)%string.

(** [handleFailure(err)] *)
Definition handleFailure (err : Reason) (s : Hook) : Hook :=
  if negb (isMounted s) then s
  else setPlayback false (Some (failureMessage err)) s.

(** [audio.play()]: the call is recorded with its time. *)
Definition recordPlay (now : nat) (s : Hook) : Hook :=
  mkHook (isPlaying s) (loading s) (error s) (isMounted s) (hasAudio s) (src s)
         (now :: playCalls s) (contextResets s).

Definition setSrc (v : string) (s : Hook) : Hook :=
  mkHook (isPlaying s) (loading s) (error s) (isMounted s) (hasAudio s) v
         (playCalls s) (contextResets s).

(** The body of the effect for a new [url]. *)
Definition urlEffect (url : string) (l : Loop Hook Callback) : Loop Hook Callback :=
  if String.eqb url EmptyString then l
  else
    let s := state l in
    (* isMounted = true; setLoading(true); setError(null); safeResetAudioContext() *)
    let s1 := mkHook (isPlaying s) true None true (hasAudio s) (src s)
                     (playCalls s) (S (contextResets s)) in
    if negb (hasAudio s) then
      withState (fun _ => mkHook (isPlaying s1) true
                                 (Some "Audio player initialization failed"%string)
                                 true false (src s1) (playCalls s1)
                                 (contextResets s1)) l
    else
      (* audio.pause(); audio.src = ''; audio.removeAttribute('src'); audio.load() *)
      setTimer (LoadTimer url) 200 (withState (fun _ => setSrc EmptyString s1) l).

(** The callback of the 200 ms timer.  Setting [audio.volume] and
    [audio.crossOrigin] and calling [audio.load()] have no part in what
    follows and are left out. *)
Definition onLoadTimer (b : Browser) (url : string)
    (l : Loop Hook Callback) : Loop Hook Callback :=
  if negb (isMounted (state l)) then l
  else
    let sanitizedUrl := sanitizeUrl b url in
    if String.eqb sanitizedUrl EmptyString then
      withState (handleFailure (StringReason "Invalid audio URL")) l
    else
      let attempt := length (playCalls (state l)) in
      let l1 := withState (fun s => recordPlay (clock l) (setSrc sanitizedUrl s)) l in
      match playResult b attempt with
      | PlayUndefined => withState handleSuccess l1
      | PlayThrows r => withState (handleFailure r) l1
      | PlayFulfilled | PlayRejected _ => setTimer (Settled attempt) (settleDelay b) l1
      end.

(** The callback of the 300 ms timer: the second [play()].  It runs outside
    any [try], and nothing is attached when no promise comes back. *)
Definition onRetryTimer (b : Browser) (l : Loop Hook Callback) : Loop Hook Callback :=
  if negb (hasAudio (state l)) || negb (isMounted (state l)) then l
  else
    let attempt := length (playCalls (state l)) in
    let l1 := withState (recordPlay (clock l)) l in
    match playResult b attempt with
    | PlayFulfilled | PlayRejected _ => setTimer (Settled attempt) (settleDelay b) l1
    | PlayUndefined | PlayThrows _ => l1
    end.

(** The reactions attached to the two promises:
    first call [.then(handleSuccess).catch(err => setTimeout(retry, 300))],
    retry [.then(handleSuccess).catch(handleFailure)]. *)
Definition onSettled (b : Browser) (attempt : nat)
    (l : Loop Hook Callback) : Loop Hook Callback :=
  match playResult b attempt, attempt with
  | PlayFulfilled, _ => withState handleSuccess l
  | PlayRejected _, O => setTimer RetryTimer 300 l
  | PlayRejected r, _ => withState (handleFailure r) l
  | _, _ => l
  end.

Definition exec (b : Browser) (k : Callback)
    (l : Loop Hook Callback) : Loop Hook Callback :=
  match k with
  | LoadTimer url => onLoadTimer b url l
  | Settled attempt => onSettled b attempt l
  | RetryTimer => onRetryTimer b l
  end.

(** The cleanup returned by the effect: [isMounted = false]. *)
Definition effectCleanup (l : Loop Hook Callback) : Loop Hook Callback :=
  withState (fun s => mkHook (isPlaying s) (loading s) (error s) false
                             (hasAudio s) (src s) (playCalls s)
                             (contextResets s)) l.

(** The hook before the effect runs: the [useState] defaults, an audio
    element in place. *)
Definition initial : Loop Hook Callback :=
  mkLoop 0 1 [] [] (mkHook false true None false true EmptyString [] 0).

(** After the effect has started: turns of the event loop, and possibly the
    cleanup (the track changed or the player went away). *)
Inductive Event := Turn | Cleanup.

Definition apply (b : Browser) (e : Event)
    (l : Loop Hook Callback) : Loop Hook Callback :=
  match e with
  | Turn => run (exec b) 1 l
  | Cleanup => effectCleanup l
  end.

(** One run of the effect for [url] on the hook as it is after mounting,
    followed by [events].  A later run (the [url] changed) starts from the
    cells as they are then, and is not part of a [play]: what is proved of
    [play] is proved of one run of the effect. *)
Definition play (b : Browser) (url : string) (events : list Event)
  : Loop Hook Callback :=
  fold_left (fun l e => apply b e l) events (urlEffect url initial).

End TrackLoad.

(** ** The audio-graph hook
    (spotify_downloads/client/src/components/audio-player/hooks/useAudioContext.ts) *)
Module UseAudioContext.
Import EventLoop.

(** The [state] attribute of an [AudioContext]. *)
Inductive ContextState := suspended | running | closed.

(** An [AudioContext] with its analyser and, once the audio element has been
    wrapped, its source node.  [close()] is asynchronous: the call marks the
    context as closing and the [state] attribute turns to [closed] only when
    the close completes. *)
Record AudioContextObj := mkContext {
  ctxState : ContextState;
  closing : bool;                     (* [close()] has been called *)
  wrapsElement : bool;                (* its source node wraps the audio element *)
  sourceConnected : bool;             (* source -> analyser *)
  analyserConnected : bool;           (* analyser -> destination *)
}.

(** How [createMediaElementSource(audio)] turns out. *)
Inductive WrapResult :=
| WrapOk
| WrapThrows (message : string).

(** The platform under the hook: whether [AudioContext] exists at all, how
    long a close takes (ms), the result of the n-th wrap attempt (from 0),
    the state new contexts start in, and whether [resume()] succeeds. *)
Record Platform := mkPlatform {
  supported : bool;
  closeLatency : nat;
  wrapResult : nat -> WrapResult;
  initialState : ContextState;
  resumeSucceeds : bool;
}.

(** What happened, latest first.  [Constructed c openThen] records the
    contexts that were not closed when context [c] was constructed. *)
Inductive Event :=
| Constructed (c : nat) (openThen : list nat)
| WrapTried (c : nat) (ok : bool)
| CloseCalled (c : nat)
| CloseRejected (c : nat)             (* a second [close()]; the rejection is caught and logged *)
| CloseCompleted (c : nat)
| Returned (ok : bool).               (* the promise of [createNewContext] resolves *)

(** The React state of the hook; nodes are named by the context they belong
    to.  A callback sees the values of the render it was created in. *)
Record Hook := mkHook {
  audioContext : option nat;
  analyser : option nat;
  audioSource : option nat;
}.

Record AudioElement := mkAudio {
  src : string;
  paused : bool;
  loads : nat;                        (* [audio.load()] calls *)
}.

Inductive Callback :=
| CloseDone (c : nat)                 (* the platform finishes closing [c] *)
| ResetThen                           (* [.then(() => setAudioContext(null))] *)
| CreateTimer (cl : Hook) (url : option string)
                                      (* [setTimeout(() => createNewContext(url)..., 100)] *)
| AfterClose (cl : Hook)              (* [createNewContext] past its [await safelyClose...] *)
| AfterResume.                        (* [createNewContext] past its [await resume()] *)

Record World := mkWorld {
  contexts : list AudioContextObj;
  hook : Hook;                        (* the state cells as last set *)
  audio : option AudioElement;        (* [audioRef.current] *)
  animationFrameRef : option nat;
  waiters : list (nat * Callback);    (* reactions waiting for a close to complete *)
  log : list Event;
}.

Definition Machine := Loop World Callback.

(** *** State updates *)

Definition setContexts (v : list AudioContextObj) (w : World) : World :=
  mkWorld v (hook w) (audio w) (animationFrameRef w) (waiters w) (log w).

Definition setHook (v : Hook) (w : World) : World :=
  mkWorld (contexts w) v (audio w) (animationFrameRef w) (waiters w) (log w).

Definition setAudio (v : option AudioElement) (w : World) : World :=
  mkWorld (contexts w) (hook w) v (animationFrameRef w) (waiters w) (log w).

Definition setFrameRef (v : option nat) (w : World) : World :=
  mkWorld (contexts w) (hook w) (audio w) v (waiters w) (log w).

Definition setWaiters (v : list (nat * Callback)) (w : World) : World :=
  mkWorld (contexts w) (hook w) (audio w) (animationFrameRef w) v (log w).

Definition record (e : Event) (w : World) : World :=
  mkWorld (contexts w) (hook w) (audio w) (animationFrameRef w) (waiters w)
          (e :: log w).

Definition setAudioContext (v : option nat) (w : World) : World :=
  setHook (mkHook v (analyser (hook w)) (audioSource (hook w))) w.

Definition setAnalyser (v : option nat) (w : World) : World :=
  setHook (mkHook (audioContext (hook w)) v (audioSource (hook w))) w.

Definition setAudioSource (v : option nat) (w : World) : World :=
  setHook (mkHook (audioContext (hook w)) (analyser (hook w)) v) w.

(** Apply [f] to context [c]. *)
Definition updateContext (c : nat) (f : AudioContextObj -> AudioContextObj)
    (w : World) : World :=
  setContexts (alter f c (contexts w)) w.

Definition isOpen (ctx : AudioContextObj) : bool :=
  match ctxState ctx with
  | closed => false
  | _ => true
  end.

(** The contexts that are not closed, by index. *)
Fixpoint openFrom (i : nat) (ctxs : list AudioContextObj) : list nat :=
  match ctxs with
  | [] => []
  | ctx :: rest =>
    if isOpen ctx then i :: openFrom (S i) rest else openFrom (S i) rest
  end.

Definition openContexts (w : World) : list nat := openFrom 0 (contexts w).

(** *** Promises of a close *)

(** The promise returned by [safelyCloseAudioContext]: already resolved, or
    resolving when the close of a context completes. *)
Inductive ClosePromise :=
| Resolved
| WhenClosed (c : nat).

(** [promise.then(k)] *)
Definition thenRun (p : ClosePromise) (k : Callback) (m : Machine) : Machine :=
  match p with
  | Resolved => enqueue k m
  | WhenClosed c => withState (fun w => setWaiters (waiters w ++ [(c, k)]) w) m
  end.

(** [context.close()] on a context that exists.  A context already closing
    (or closed) rejects; otherwise the platform finishes the close
    [closeLatency] ms later. *)
Definition closeCall (p : Platform) (c : nat) (ctx : AudioContextObj)
    (m : Machine) : Machine * ClosePromise :=
  let m1 := withState (record (CloseCalled c)) m in
  if closing ctx || negb (isOpen ctx) then
    (* rejected; [.catch(err => console.error(...))] turns it into a resolved one *)
    (withState (record (CloseRejected c)) m1, Resolved)
  else
    let close ctx := mkContext (ctxState ctx) true (wrapsElement ctx)
                               (sourceConnected ctx) (analyserConnected ctx) in
    (setTimer (CloseDone c) (closeLatency p)
              (withState (updateContext c close) m1),
     WhenClosed c).

(** [safelyCloseAudioContext(context)] *)
Definition safelyCloseAudioContext (p : Platform) (context : option nat)
    (m : Machine) : Machine * ClosePromise :=
  match context with
  | None => (m, Resolved)
  | Some c =>
    match contexts (state m) !! c with
    | Some ctx =>
      match ctxState ctx with
      | closed => (m, Resolved)
      | _ => closeCall p c ctx m
      end
    | None => (m, Resolved)
    end
  end.

(** The platform completes the close of [c]: its state becomes [closed] and
    the reactions waiting for it are queued. *)
Definition onCloseDone (c : nat) (m : Machine) : Machine :=
  let finish ctx := mkContext closed (closing ctx) (wrapsElement ctx)
                              false false in
  let m1 := withState (fun w => record (CloseCompleted c) (updateContext c finish w)) m in
  let ready := List.filter (fun wk => Nat.eqb (fst wk) c) (waiters (state m1)) in
  let others := List.filter (fun wk => negb (Nat.eqb (fst wk) c)) (waiters (state m1)) in
  fold_left (fun acc wk => enqueue (snd wk) acc) ready
            (withState (setWaiters others) m1).

(** *** Reset *)

(** [node.disconnect()], then the state cell is cleared. *)
Definition disconnectSource (cl : Hook) (w : World) : World :=
  match audioSource cl with
  | Some c =>
    setAudioSource None
      (updateContext c (fun ctx => mkContext (ctxState ctx) (closing ctx)
                                            (wrapsElement ctx) false
                                            (analyserConnected ctx)) w)
  | None => w
  end.

Definition disconnectAnalyser (cl : Hook) (w : World) : World :=
  match analyser cl with
  | Some c =>
    setAnalyser None
      (updateContext c (fun ctx => mkContext (ctxState ctx) (closing ctx)
                                            (wrapsElement ctx)
                                            (sourceConnected ctx) false) w)
  | None => w
  end.

(** [if (animationFrameRef.current) { cancelAnimationFrame(...); ... = null }] *)
Definition cancelFrame (m : Machine) : Machine :=
  match animationFrameRef (state m) with
  | Some frame =>
    if Nat.eqb frame 0 then m
    else withState (setFrameRef None) (clearTimer frame m)
  | None => m
  end.

(** [safeResetAudioContext()], called from a render whose state was [cl].
    It returns as soon as the close has been requested. *)
Definition safeResetAudioContext (p : Platform) (cl : Hook) (m : Machine) : Machine :=
  let m1 := withState (fun w => disconnectAnalyser cl (disconnectSource cl w)) m in
  let m2 :=
    match audioContext cl with
    | Some c =>
      let (m', promise) := safelyCloseAudioContext p (Some c) m1 in
      thenRun promise ResetThen m'
    | None => m1
    end in
  cancelFrame m2.

(** [resetAudioContext()]: the same, but the close is not waited for at all
    and the state cell is cleared at once. *)
Definition resetAudioContext (p : Platform) (cl : Hook) (m : Machine) : Machine :=
  let m1 := withState (fun w => disconnectAnalyser cl (disconnectSource cl w)) m in
  let m2 :=
    match audioContext cl with
    | Some c =>
      let m' :=
        match contexts (state m1) !! c with
        | Some ctx => if isOpen ctx then fst (closeCall p c ctx m1) else m1
        | None => m1
        end in
      withState (setAudioContext None) m'
    | None => m1
    end in
  cancelFrame m2.

(** *** Creation *)

(** [message.includes(needle)]; an empty (or missing) message is falsy. *)
Definition includes (message needle : string) : bool :=
  match String.index 0 needle message with
  | Some _ => negb (String.eqb message EmptyString)
  | None => false
  end.

(** [new AudioContext()] together with its analyser ([fftSize] 256,
    smoothing 0.7): the new context takes the next index. *)
Definition construct (p : Platform) (m : Machine) : Machine * nat :=
  let c := length (contexts (state m)) in
  (withState
     (fun w => record (Constructed c (openContexts w))
                 (setContexts
                    (contexts w ++ [mkContext (initialState p) false false false false])
                    w))
     m,
   c).

Definition isWrapTried (e : Event) : bool :=
  match e with
  | WrapTried _ _ => true
  | _ => false
  end.

(** The number of wrap attempts made so far. *)
Definition wrapAttempts (w : World) : nat :=
  length (List.filter isWrapTried (log w)).

(** [context.createMediaElementSource(audio)] *)
Definition tryWrap (p : Platform) (c : nat) (m : Machine) : Machine * WrapResult :=
  let result := wrapResult p (wrapAttempts (state m)) in
  match result with
  | WrapOk =>
    (withState
       (fun w => record (WrapTried c true)
                   (updateContext c
                      (fun ctx => mkContext (ctxState ctx) (closing ctx) true
                                            (sourceConnected ctx)
                                            (analyserConnected ctx)) w))
       m,
     result)
  | WrapThrows _ => (withState (record (WrapTried c false)) m, result)
  end.

(** [source.connect(analyser); analyser.connect(context.destination);
     setAudioContext(context); setAnalyser(analyser); setAudioSource(source)] *)
Definition connectAndPublish (c : nat) (w : World) : World :=
  setHook (mkHook (Some c) (Some c) (Some c))
    (updateContext c
       (fun ctx => mkContext (ctxState ctx) (closing ctx) (wrapsElement ctx)
                             true true) w).

Definition finish (ok : bool) (m : Machine) : Machine :=
  withState (record (Returned ok)) m.

(** The retry after an "already connected" failure: [audio.pause()], a fresh
    context, and one more wrap of the same element.  Any failure here makes
    [createNewContext] return [false]. *)
Definition retryWrap (p : Platform) (m : Machine) : Machine :=
  let m1 := withState
              (fun w => setAudio
                          (option_map (fun a => mkAudio (src a) true (loads a))
                                      (audio w)) w) m in
  let (m2, c) := construct p m1 in
  let (m3, result) := tryWrap p c m2 in
  match result with
  | WrapOk => finish true (withState (connectAndPublish c) m3)
  | WrapThrows _ => finish false m3
  end.

(** [await context.resume()] on a suspended context. *)
Definition resume (p : Platform) (c : nat) (w : World) : World :=
  if resumeSucceeds p then
    updateContext c
      (fun ctx => match ctxState ctx with
                  | suspended => mkContext running (closing ctx) (wrapsElement ctx)
                                           (sourceConnected ctx)
                                           (analyserConnected ctx)
                  | _ => ctx
                  end) w
  else w.

Definition hasSource (a : AudioElement) : bool :=
  negb (String.eqb (src a) EmptyString || String.eqb (src a) "about:blank").

(** [createNewContext(sourceUrl)], created in a render whose state was [cl];
    it runs up to its first [await]. *)
Definition createNewContext (p : Platform) (cl : Hook) (sourceUrl : option string)
    (m : Machine) : Machine :=
  if negb (supported p) then finish false m
  else
    match audio (state m) with
    | None => finish false m
    | Some a =>
      let prepared :=
        if hasSource a then Some m
        else
          match sourceUrl with
          | Some u =>
            if String.eqb u EmptyString then None
            else Some (withState
                         (setAudio (Some (mkAudio u (paused a) (S (loads a))))) m)
          | None => None
          end in
      match prepared with
      | None => finish false m
      | Some m1 =>
        let (m2, c) := construct p m1 in
        let (m3, result) := tryWrap p c m2 in
        match result with
        | WrapOk =>
          let m4 := withState (connectAndPublish c) m3 in
          match initialState p with
          | suspended => enqueue AfterResume (withState (resume p c) m4)
          | _ => finish true m4
          end
        | WrapThrows message =>
          if includes message "already connected" then
            match audioContext cl with
            | Some old =>
              let (m4, promise) := safelyCloseAudioContext p (Some old) m3 in
              thenRun promise (AfterClose cl) m4
            | None => retryWrap p m3
            end
          else finish false m3
        end
      end
    end.

Definition isSome {A : Type} (o : option A) : bool :=
  match o with
  | Some _ => true
  | None => false
  end.

(** [createAudioContext(url)] *)
Definition createAudioContext (p : Platform) (cl : Hook) (url : option string)
    (m : Machine) : Machine :=
  if isSome (audioContext cl) || isSome (audioSource cl) || isSome (analyser cl)
  then setTimer (CreateTimer cl url) 100 (safeResetAudioContext p cl m)
  else createNewContext p cl url m.

Definition exec (p : Platform) (k : Callback) (m : Machine) : Machine :=
  match k with
  | CloseDone c => onCloseDone c m
  | ResetThen => withState (setAudioContext None) m
  | CreateTimer cl url => createNewContext p cl url m
  | AfterClose cl => retryWrap p (withState (setAudioContext None) m)
  | AfterResume => finish true m
  end.

(** *** Reading the log *)

Definition closeCalls (c : nat) (w : World) : nat :=
  length (List.filter (fun e => match e with
                                | CloseCalled c' => Nat.eqb c c'
                                | _ => false
                                end) (log w)).

(** A player with one live graph: context 0 runs and wraps the element. *)
Definition ready : Machine :=
  mkLoop 0 1 [] []
    (mkWorld [mkContext running false true true true]
             (mkHook (Some 0%nat) (Some 0%nat) (Some 0%nat))
             (Some (mkAudio "/api/audio?path=song.mp3" false 1))
             None [] []).

End UseAudioContext.

(** * Theorems *)

(** ** The event loop *)
Module LoopFacts.
Import EventLoop.

Section Turns.
Context {S K : Type} (exec : K -> Loop S K -> Loop S K).

(** The turn taken when exactly one timer and no microtask is pending. *)
Lemma turn_single_timer (l : Loop S K) (id due : nat) (k : K) :
  microtasks l = [] -> timers l = [mkTimer id due k] ->
  run exec 1 l
  = exec k (mkLoop (Nat.max (clock l) due) (nextId l) [] [] (state l)).
Proof.
  intros Hm Ht. cbn -[Nat.max]. unfold step. rewrite Hm, Ht.
  cbn -[Nat.max]. unfold clearTimer. cbn -[Nat.max].
  rewrite Nat.eqb_refl. reflexivity.
Qed.

(** The turn taken when a microtask is pending. *)
Lemma turn_microtask (l : Loop S K) (k : K) (rest : list K) :
  microtasks l = k :: rest ->
  run exec 1 l
  = exec k (mkLoop (clock l) (nextId l) rest (timers l) (state l)).
Proof.
  intros Hm. cbn. unfold step. rewrite Hm. reflexivity.
Qed.

Lemma run_idle (fuel : nat) (l : Loop S K) :
  idle l -> run exec fuel l = l.
Proof.
  intros [Hm Ht]. destruct fuel; [reflexivity|].
  cbn. unfold step. rewrite Hm, Ht. reflexivity.
Qed.

Lemma run_add (n k : nat) (l : Loop S K) :
  run exec (n + k) l = run exec k (run exec n l).
Proof.
  revert l. induction n as [|n IH]; intros l; [reflexivity|].
  cbn [Nat.add run]. destruct (step exec l) as [l'|] eqn:Hstep.
  - apply IH.
  - symmetry. destruct k; [reflexivity|]. cbn [run]. rewrite Hstep. reflexivity.
Qed.

End Turns.

(** Rewrite the innermost pending turn of a chain of turns. *)
Ltac turn_timer e :=
  match goal with
  | |- context [run e 1 ?l] =>
    lazymatch l with
    | context [run] => fail
    | _ => erewrite (turn_single_timer e l) by reflexivity
    end
  end.

Ltac turn_micro e :=
  match goal with
  | |- context [run e 1 ?l] =>
    lazymatch l with
    | context [run] => fail
    | _ => erewrite (turn_microtask e l) by reflexivity
    end
  end.

End LoopFacts.

(** ** Seeking *)
Module SeekFacts.
Import UseAudioPlayer.

(** C9, as stated, fails: a seek to -5 s on a 100 s track leaves the displayed
    position at -5, outside [0, duration], and with the duration still
    unknown (0) a seek to 7 s is applied instead of being ignored. *)
Lemma handleSeek_not_clamped :
  ~ clamped (handleSeek (-5 # 1) (mkPlayer 0 (100 # 1) (Some (mkAudio 0 (100 # 1)))))
  /\ handleSeek (7 # 1) (mkPlayer 0 0 (Some (mkAudio 0 0)))
       <> mkPlayer 0 0 (Some (mkAudio 0 0)).
Proof.
  split.
  - unfold clamped; cbn. intros [H _]. revert H. unfold Qle; cbn. lia.
  - cbn. discriminate.
Qed.

(** C9, amended: [handleSeek] stores the requested time unchanged, as the
    displayed position and, when the audio element exists, as its
    [currentTime]; it neither clamps the value nor looks at the duration,
    which it leaves as it was.  The handler of the player component behaves
    the same on the value of its change event. *)
Theorem handleSeek_stores_request_unchanged :
  forall (seekTime : Q) (p : Player),
    currentTime (handleSeek seekTime p) = seekTime
    /\ duration (handleSeek seekTime p) = duration p
    /\ audio (handleSeek seekTime p)
       = option_map (fun a => mkAudio seekTime (el_duration a)) (audio p)
    /\ handleSeekEvent seekTime p = handleSeek seekTime p.
Proof.
  intros seekTime p. unfold handleSeekEvent, handleSeek; cbn.
  repeat split; destruct (audio p); reflexivity.
Qed.

End SeekFacts.

(** ** Shuffle history *)
Module AppFacts.
Import App.

Definition demoTrack (name : string) : Track :=
  mkTrack name ("C:/music/" ++ name)%string name "artist" "album" None.

Definition demoTracks : list Track :=
  [demoTrack "a"; demoTrack "b"; demoTrack "c"].

Example next_sequential :
  handleNextTrack 0 (mkState None demoTracks 0 false [] [] (-1))
  = Normal (mkState (Some (playingOf (demoTrack "b"))) demoTracks 1 false [] [] (-1)).
Proof. reflexivity. Qed.

Example next_shuffled_draw :
  handleNextTrack (1 # 2) (mkState None demoTracks 0 true [] [0] 0)
  = Normal (mkState (Some (playingOf (demoTrack "c"))) demoTracks 2 true [] [0; 2] 1).
Proof. reflexivity. Qed.

Example previous_shuffled :
  handlePreviousTrack (mkState None demoTracks 2 true [] [0; 2] 1)
  = Normal (mkState (Some (playingOf (demoTrack "a"))) demoTracks 0 true [] [0; 2] 0).
Proof. reflexivity. Qed.

(** *** Reading and slicing *)

Lemma js_get_Some {A : Type} (arr : list A) (i : Z) (x : A) :
  js_get arr i = Some x -> 0 <= i /\ arr !! Z.to_nat i = Some x.
Proof.
  unfold js_get. destruct (Z.ltb_spec i 0); [discriminate|]. auto.
Qed.

Lemma js_get_bound {A : Type} (arr : list A) (i : Z) (x : A) :
  js_get arr i = Some x -> 0 <= i < Z.of_nat (length arr).
Proof.
  intros H. apply js_get_Some in H as [H0 H].
  apply lookup_lt_Some in H. lia.
Qed.

Lemma js_get_nonneg {A : Type} (arr : list A) (i : Z) :
  0 <= i -> js_get arr i = arr !! Z.to_nat i.
Proof.
  intros H. unfold js_get. destruct (Z.ltb_spec i 0); [lia|reflexivity].
Qed.

Lemma js_slice0_all {A : Type} (arr : list A) (e : Z) :
  Z.of_nat (length arr) <= e -> js_slice0 arr e = arr.
Proof.
  intros H. unfold js_slice0. destruct (Z.ltb_spec e 0); [lia|].
  apply take_ge. lia.
Qed.

(** *** The effect and the setters touch one cell each *)

Lemma sync_fields (s : State) :
  allTracks (syncCurrentTrackIndex s) = allTracks s
  /\ isShuffled (syncCurrentTrackIndex s) = isShuffled s
  /\ shuffleHistory (syncCurrentTrackIndex s) = shuffleHistory s
  /\ shuffleHistoryIndex (syncCurrentTrackIndex s) = shuffleHistoryIndex s
  /\ currentTrack (syncCurrentTrackIndex s) = currentTrack s.
Proof.
  unfold syncCurrentTrackIndex.
  destruct (currentTrack s) as [pl|] eqn:E; [|tauto].
  destruct (negb _); cbn; tauto.
Qed.

Lemma playTrackAt_Normal (n : Z) (s s' : State) :
  playTrackAt n s = Normal s' ->
  exists track, js_get (allTracks s) n = Some track
                /\ s' = setCurrentTrack (Some (playingOf track)) s.
Proof.
  unfold playTrackAt. destruct (js_get (allTracks s) n) as [t|]; [|discriminate].
  intros [= <-]. eauto.
Qed.

(** *** One moving "next" in shuffle mode *)

(** The history cursor points at track [n]. *)
Definition cursorOn (n : Z) (s : State) : Prop :=
  isShuffled s = true
  /\ js_get (shuffleHistory s) (shuffleHistoryIndex s) = Some n.

Lemma handleNextTrack_shuffled (rand : Q) (s s' : State) (n : Z) :
  isShuffled s = true ->
  getNextTrackIndex rand s = Some n ->
  n <> -1 ->
  handleNextTrack rand s = Normal s' ->
  cursorOn n s'
  /\ allTracks s' = allTracks s
  /\ is_Some (js_get (allTracks s) n)
  /\ (forall m, js_get (shuffleHistory s) (shuffleHistoryIndex s) = Some m ->
        js_get (shuffleHistory s') (shuffleHistoryIndex s' - 1) = Some m
        /\ 0 < shuffleHistoryIndex s').
Proof.
  intros Hsh Hget Hn Hrun.
  unfold handleNextTrack in Hrun. rewrite Hget in Hrun.
  destruct (Z.eqb_spec n (-1)) as [|_]; [contradiction|]. cbn [negb] in Hrun.
  rewrite Hsh in Hrun.
  apply playTrackAt_Normal in Hrun as (track & Htrack & ->).
  unfold getNextTrackIndex in Hget. rewrite Hsh in Hget. cbn [negb] in Hget.
  unfold cursorOn, historyLength in *.
  destruct (Z.ltb_spec (shuffleHistoryIndex s)
                       (Z.of_nat (length (shuffleHistory s)) - 1)) as [Hin|Hend].
  - (* moving forward inside the history *)
    destruct (tracksLength s =? 0); [congruence|].
    cbn in *. split; [|split; [|split]]; eauto.
    intros m Hm. apply js_get_Some in Hm as [Hm0 Hm].
    replace (shuffleHistoryIndex s + 1 - 1) with (shuffleHistoryIndex s) by lia.
    rewrite js_get_nonneg by lia. split; [assumption|lia].
  - (* at the end of the history: a new entry is appended *)
    cbn in *.
    rewrite js_slice0_all by lia. rewrite length_app. cbn [length].
    split; [split|split; [|split]]; eauto.
    + rewrite js_get_nonneg by lia.
      apply list_lookup_middle. lia.
    + intros m Hm. pose proof (js_get_bound _ _ _ Hm) as Hb.
      apply js_get_Some in Hm as [Hm0 Hm].
      rewrite js_get_nonneg by lia. split; [|lia].
      rewrite lookup_app_l by lia.
      rewrite <- Hm. f_equal. lia.
Qed.

Lemma pressNext_shuffled (rand : Q) (s s' : State) (n : Z) :
  isShuffled s = true ->
  getNextTrackIndex rand s = Some n ->
  n <> -1 ->
  pressNext rand s = Normal s' ->
  cursorOn n s'
  /\ allTracks s' = allTracks s
  /\ is_Some (js_get (allTracks s) n)
  /\ (forall m, js_get (shuffleHistory s) (shuffleHistoryIndex s) = Some m ->
        js_get (shuffleHistory s') (shuffleHistoryIndex s' - 1) = Some m
        /\ 0 < shuffleHistoryIndex s').
Proof.
  intros Hsh Hget Hn Hrun.
  unfold pressNext in Hrun. rewrite Hget in Hrun.
  destruct (Z.eqb_spec n (-1)) as [|_]; [contradiction|]. cbn [negb] in Hrun.
  destruct (handleNextTrack rand s) as [s1|] eqn:Hh; [|discriminate].
  cbn in Hrun. injection Hrun as <-.
  destruct (handleNextTrack_shuffled _ _ _ _ Hsh Hget Hn Hh)
    as ([Hc1 Hc2] & Ht & Hsome & Hprior).
  destruct (sync_fields s1) as (E1 & E2 & E3 & E4 & _).
  unfold cursorOn. rewrite E1, E2, E3, E4. auto.
Qed.

(** "Previous" never rewrites the history list, in any state. *)
Lemma handlePreviousTrack_keeps_history (s s' : State) :
  handlePreviousTrack s = Normal s' -> shuffleHistory s' = shuffleHistory s.
Proof.
  unfold handlePreviousTrack.
  destruct (getPreviousTrackIndex s) as [newIndex|]; [|discriminate].
  destruct (negb (newIndex =? -1)); [|intros [= <-]; reflexivity].
  intros H. apply playTrackAt_Normal in H as (track & _ & ->).
  destruct (isShuffled s && (shuffleHistoryIndex s >? 0)); reflexivity.
Qed.

(** C8: in shuffle mode, after two "next" presses that each moved to a track
    ([n1], then [n2]), [getPreviousTrackIndex] returns [n1], the entry just
    before the cursor in the shuffle history; no random draw is involved.
    [handlePreviousTrack] then makes [n1] the current index, moves the cursor
    back by one and leaves the history list as it was; in no state at all
    does [handlePreviousTrack] change the history list. *)
Theorem shuffle_previous_replays_history :
  forall (rand1 rand2 : Q) (s0 s1 s2 : State) (n1 n2 : Z),
    isShuffled s0 = true ->
    getNextTrackIndex rand1 s0 = Some n1 -> n1 <> -1 ->
    pressNext rand1 s0 = Normal s1 ->
    getNextTrackIndex rand2 s1 = Some n2 -> n2 <> -1 ->
    pressNext rand2 s1 = Normal s2 ->
    getPreviousTrackIndex s2 = Some n1
    /\ (exists s3,
          handlePreviousTrack s2 = Normal s3
          /\ currentTrackIndex s3 = n1
          /\ shuffleHistory s3 = shuffleHistory s2
          /\ shuffleHistoryIndex s3 = shuffleHistoryIndex s2 - 1)
    /\ (forall s s', handlePreviousTrack s = Normal s' ->
                     shuffleHistory s' = shuffleHistory s).
Proof.
  intros rand1 rand2 s0 s1 s2 n1 n2 Hsh Hg1 Hn1 Hp1 Hg2 Hn2 Hp2.
  cut (getPreviousTrackIndex s2 = Some n1
       /\ exists s3,
           handlePreviousTrack s2 = Normal s3
           /\ currentTrackIndex s3 = n1
           /\ shuffleHistory s3 = shuffleHistory s2
           /\ shuffleHistoryIndex s3 = shuffleHistoryIndex s2 - 1).
  { intros [H1 H2]. split; [exact H1|]. split; [exact H2|].
    exact handlePreviousTrack_keeps_history. }
  destruct (pressNext_shuffled _ _ _ _ Hsh Hg1 Hn1 Hp1)
    as ([Hsh1 Hcur1] & Ht1 & [track Htrack] & _).
  destruct (pressNext_shuffled _ _ _ _ Hsh1 Hg2 Hn2 Hp2)
    as ([Hsh2 Hcur2] & Ht2 & _ & Hprior).
  destruct (Hprior _ Hcur1) as [Hback Hpos].
  pose proof (js_get_bound _ _ _ Hcur2) as Hb2.
  assert (Hprev : getPreviousTrackIndex s2 = Some n1).
  { unfold getPreviousTrackIndex, historyLength. rewrite Hsh2. cbn [negb].
    destruct (Z.gtb_spec (Z.of_nat (length (shuffleHistory s2))) 0); [|lia].
    destruct (Z.gtb_spec (shuffleHistoryIndex s2) 0); [|lia].
    exact Hback. }
  split; [exact Hprev|].
  unfold handlePreviousTrack. rewrite Hprev.
  destruct (Z.eqb_spec n1 (-1)) as [|_]; [contradiction|]. cbn [negb].
  rewrite Hsh2.
  destruct (Z.gtb_spec (shuffleHistoryIndex s2) 0); [|lia]. cbn [andb].
  unfold playTrackAt. cbn. rewrite Ht2, Ht1, Htrack.
  eexists. split; [reflexivity|]. cbn. auto.
Qed.

Definition shuffleStart : State := mkState None demoTracks 0 true [] [0] 0.

Definition shuffleOnce : State :=
  mkState (Some (playingOf (demoTrack "c"))) demoTracks 2 true [] [0; 2] 1.

Definition shuffleTwice : State :=
  mkState (Some (playingOf (demoTrack "a"))) demoTracks 0 true [] [0; 2; 0] 2.

Lemma shuffle_previous_replays_history_witness :
  getPreviousTrackIndex shuffleTwice = Some 2
  /\ (exists s3,
        handlePreviousTrack shuffleTwice = Normal s3
        /\ currentTrackIndex s3 = 2
        /\ shuffleHistory s3 = shuffleHistory shuffleTwice
        /\ shuffleHistoryIndex s3 = shuffleHistoryIndex shuffleTwice - 1)
  /\ (forall s s', handlePreviousTrack s = Normal s' ->
                   shuffleHistory s' = shuffleHistory s).
Proof.
  apply (shuffle_previous_replays_history (1 # 2) 0
           shuffleStart shuffleOnce shuffleTwice 2 0);
    try reflexivity; discriminate.
Defined.

(** C10: in shuffle mode with the cursor at the end of the history, a playlist
    of exactly one track makes [getNextTrackIndex] return the current index,
    whatever the random draw; with the only track current (index 0) the
    "next" handler plays that same track again.  With no tracks at all the
    function returns -1 and [handleNextTrack] changes nothing: the current
    index, the current track and the history stay as they were. *)
Theorem shuffle_next_degenerate_playlists :
  forall (rand : Q) (s : State),
    isShuffled s = true ->
    historyLength s - 1 <= shuffleHistoryIndex s ->
    match allTracks s with
    | [] => getNextTrackIndex rand s = Some (-1)
            /\ handleNextTrack rand s = Normal s
    | [only] => getNextTrackIndex rand s = Some (currentTrackIndex s)
                /\ (if currentTrackIndex s =? 0
                    then exists s', handleNextTrack rand s = Normal s'
                           /\ currentTrackIndex s' = 0
                           /\ currentTrack s' = Some (playingOf only)
                    else True)
    | _ => True
    end.
Proof.
  intros rand s Hsh Hend.
  assert (Hnot : (shuffleHistoryIndex s <? historyLength s - 1) = false)
    by (apply Z.ltb_ge; lia).
  destruct (allTracks s) as [|only [|second rest]] eqn:Htracks; [| |exact I].
  - assert (Hget : getNextTrackIndex rand s = Some (-1)).
    { unfold getNextTrackIndex, tracksLength. rewrite Hsh, Htracks. reflexivity. }
    split; [exact Hget|]. unfold handleNextTrack. rewrite Hget. reflexivity.
  - assert (Hget : getNextTrackIndex rand s = Some (currentTrackIndex s)).
    { unfold getNextTrackIndex, tracksLength. rewrite Hsh, Htracks, Hnot.
      reflexivity. }
    split; [exact Hget|].
    destruct (Z.eqb_spec (currentTrackIndex s) 0) as [Hzero|]; [|exact I].
    unfold handleNextTrack. rewrite Hget, Hzero, Hsh, Hnot. cbn.
    unfold playTrackAt. cbn. rewrite Htracks. cbn.
    eexists. split; [reflexivity|]. cbn. auto.
Qed.

Lemma shuffle_next_degenerate_playlists_witness :
  (getNextTrackIndex (1 # 3) (mkState None [] (-1) true [] [] (-1)) = Some (-1)
   /\ handleNextTrack (1 # 3) (mkState None [] (-1) true [] [] (-1))
      = Normal (mkState None [] (-1) true [] [] (-1)))
  /\ (getNextTrackIndex (1 # 3) (mkState None [demoTrack "a"] 0 true [] [0] 0)
      = Some 0
      /\ exists s', handleNextTrack (1 # 3) (mkState None [demoTrack "a"] 0 true [] [0] 0)
                    = Normal s'
           /\ currentTrackIndex s' = 0
           /\ currentTrack s' = Some (playingOf (demoTrack "a"))).
Proof.
  split.
  - apply (shuffle_next_degenerate_playlists (1 # 3)
             (mkState None [] (-1) true [] [] (-1))); [reflexivity|unfold historyLength; cbn; lia].
  - apply (shuffle_next_degenerate_playlists (1 # 3)
             (mkState None [demoTrack "a"] 0 true [] [0] 0)); [reflexivity|unfold historyLength; cbn; lia].
Defined.

End AppFacts.

(** ** The `ended` handler *)
Module EndedFacts.
Import EnhancedAudioPlayer.

(** The branch taken by [handleEnded] when both callbacks are supplied, for
    every repeat mode and every value of [hasNext] and [hasPrevious]. *)
Lemma handleEnded_branches {Parent : Type}
    (hasPrev hasNxt : bool) (previous next : Parent -> Completion Parent)
    (played : PlayPromise) (pl : Player) (parent : Parent) :
  handleEnded (mkProps hasPrev hasNxt (Some previous) (Some next)) played pl parent
  = if repeatMode pl =? 2 then Normal (replay played (stopAtStart pl), parent)
    else if (repeatMode pl =? 1) && hasNxt then callParent next (stopAtStart pl) parent
    else if (repeatMode pl =? 1) && negb hasNxt && hasPrev
         then callParent previous (stopAtStart pl) parent
    else if hasNxt then callParent next (stopAtStart pl) parent
    else Normal (stopAtStart pl, parent).
Proof.
  unfold handleEnded; cbn.
  destruct (repeatMode pl =? 2), (repeatMode pl =? 1), hasNxt, hasPrev; reflexivity.
Qed.

(** Whatever the branch, the player itself is first stopped with its
    position back at 0. *)
Lemma stopAtStart_resets (pl : Player) :
  isPlaying (stopAtStart pl) = false /\ currentTime (stopAtStart pl) = 0%Q.
Proof. split; reflexivity. Qed.

Definition lastOfThree : App.State :=
  App.mkState (Some (App.playingOf (AppFacts.demoTrack "c")))
              AppFacts.demoTracks 2 false [] [] (-1).

Definition playingRepeatAll : Player :=
  mkPlayer true (118 # 1) 1 (Some (mkAudio (118 # 1) 1)).

(** C1 at the last track with repeat-all: the playlist never wraps to index 0.
    As [App] wires the player ([hasNext] is true whenever tracks exist), the
    handler calls [onNext], which finds no next index and does nothing, so
    playback stops on the last track.  With [hasNext] false and [hasPrevious]
    true the handler calls [onPrevious], which steps back one track, to
    index 1. *)
Theorem handleEnded_repeat_all_does_not_wrap :
  handleEnded (propsFromApp (1 # 2) lastOfThree) PlayFulfilled
              playingRepeatAll lastOfThree
  = Normal (mkPlayer false 0 1 (Some (mkAudio 0 1)), lastOfThree)
  /\ exists app',
      handleEnded (mkProps true false (Some App.pressPrevious)
                           (Some (App.pressNext (1 # 2))))
                  PlayFulfilled playingRepeatAll lastOfThree
      = Normal (mkPlayer false 0 1 (Some (mkAudio 0 1)), app')
      /\ App.currentTrackIndex app' = 1.
Proof.
  split; [reflexivity|].
  eexists. split; reflexivity.
Qed.

End EndedFacts.

(** ** The analysis loop *)
Module BassFacts.
Import EventLoop BassAnalysis.

Definition loud : FrequencySource :=
  fun _ n => if Nat.ltb n 5 then Some (repeat Byte.xff 128) else None.

Example three_frames :
  play loud [Render (Some 7%nat) true; Turn; Turn]
  = mkLoop 32 4 [] [mkTimer 3 48 (AnalyzeBass 7)]
           (mkViz true (Some 7%nat) (BassScaled 2040 255) (Some 3%nat) 3 true).
Proof. reflexivity. Qed.

Example pause_after_three_frames :
  play loud [Render (Some 7%nat) true; Turn; Turn; Render (Some 7%nat) false]
  = mkLoop 32 4 [] [] (mkViz false (Some 7%nat) BassZero None 3 false).
Proof. reflexivity. Qed.

(** *** The integers behind the published value *)

Lemma byte_range (b : Byte.byte) : 0 <= Z.of_N (Byte.to_N b) <= 255.
Proof. destruct b; cbn; lia. Qed.

Lemma dataArray_range (snapshot : list Byte.byte) (i : nat) :
  0 <= nth i (dataArrayOf snapshot) 0 <= 255.
Proof.
  assert (Hall : Forall (fun v => 0 <= v <= 255) (dataArrayOf snapshot)).
  { unfold dataArrayOf. apply Forall_take. apply Forall_app. split.
    - apply Forall_forall. intros v Hv. apply list_elem_of_In in Hv.
      apply in_map_iff in Hv as (b & <- & _). apply byte_range.
    - apply Forall_forall. intros v Hv. apply list_elem_of_In in Hv.
      apply repeat_spec in Hv. lia. }
  destruct (nth_in_or_default i (dataArrayOf snapshot) 0) as [Hin| ->]; [|lia].
  rewrite Forall_forall in Hall. apply Hall. apply list_elem_of_In. exact Hin.
Qed.

Lemma window_fold_bounds (dataArray : list Z) (indices : list nat) (acc : Z * Z)
    (k : Z) :
  (forall i, 0 <= nth i dataArray 0 <= 255) ->
  0 <= k -> 0 <= snd acc <= 255 -> snd acc <= fst acc <= k * snd acc ->
  let out := fold_left (fun acc i =>
                          let value := nth i dataArray 0 in
                          (fst acc + value, Z.max (snd acc) value))
                       indices acc in
  0 <= snd out <= 255
  /\ snd out <= fst out <= (k + Z.of_nat (length indices)) * snd out.
Proof.
  intros Hrange. revert acc k.
  induction indices as [|i rest IH]; intros [sum mx] k Hk Hmx Hsum; cbn in *.
  - split; [lia|]. replace (k + 0) with k by lia. lia.
  - pose proof (Hrange i) as Hv.
    specialize (IH (sum + nth i dataArray 0, Z.max mx (nth i dataArray 0)) (k + 1)).
    cbn in IH.
    replace (k + Z.of_nat (S (length rest)))
      with (k + 1 + Z.of_nat (length rest)) by lia.
    apply IH; [lia|lia|nia].
Qed.

(** The two integers a tick publishes: the maximum of the eight lowest bins
    is a byte, and the sum lies between that maximum and eight times it. *)
Lemma bassWindow_bounds (snapshot : list Byte.byte) :
  0 <= snd (bassWindow (dataArrayOf snapshot)) <= 255
  /\ snd (bassWindow (dataArrayOf snapshot))
     <= fst (bassWindow (dataArrayOf snapshot))
     <= 8 * snd (bassWindow (dataArrayOf snapshot)).
Proof.
  pose proof (window_fold_bounds (dataArrayOf snapshot) (seq 0 bassRange)
                                 (0, 0) 0 (dataArray_range snapshot)) as H.
  cbn [fst snd] in H. apply H; lia.
Qed.

(** The frame that may be pending is the one the ref holds. *)
Definition Inv (l : Loop Viz Callback) : Prop :=
  microtasks l = []
  /\ (cleanupPending (state l) = false ->
      animationFrameRef (state l) = None /\ timers l = [])
  /\ (timers l = []
      \/ exists due node,
          timers l = [mkTimer (nextId l - 1) due (AnalyzeBass node)]
          /\ animationFrameRef (state l) = Some (nextId l - 1)%nat
          /\ (2 <= nextId l)%nat)
  /\ (1 <= nextId l)%nat
  /\ animationFrameRef (state l) <> Some 0%nat
  /\ (isPlaying (state l) = false ->
      bassValue (state l) = BassZero /\ cleanupPending (state l) = false).

Lemma bass_Inv_mounted : Inv mounted.
Proof.
  unfold Inv, mounted; cbn. repeat split; auto.
Qed.

(** A tick that starts with no frame pending leaves at most one, held by
    the ref. *)
Lemma analyzeBass_shape (source : FrequencySource) (node : nat)
    (l : Loop Viz Callback) :
  timers l = [] -> microtasks l = [] -> (1 <= nextId l)%nat ->
  let l' := analyzeBass source node l in
  microtasks l' = []
  /\ (1 <= nextId l')%nat
  /\ isPlaying (state l') = isPlaying (state l)
  /\ analyser (state l') = analyser (state l)
  /\ cleanupPending (state l') = cleanupPending (state l)
  /\ ((timers l' = [] /\ bassValue (state l') = BassZero
       /\ animationFrameRef (state l') = animationFrameRef (state l))
      \/ exists due,
          timers l' = [mkTimer (nextId l' - 1) due (AnalyzeBass node)]
          /\ animationFrameRef (state l') = Some (nextId l' - 1)%nat
          /\ (2 <= nextId l')%nat).
Proof.
  intros Ht Hm Hid. unfold analyzeBass.
  destruct (source node (reads (state l))) as [snapshot|]; cbn.
  - rewrite Ht, Hm. cbn.
    replace (nextId l - 0)%nat with (nextId l) by lia.
    split; [reflexivity|]. split; [lia|]. do 3 (split; [reflexivity|]).
    right. eexists. split; [reflexivity|]. split; [reflexivity|lia].
  - split; [assumption|]. split; [assumption|]. do 3 (split; [reflexivity|]).
    left. auto.
Qed.

Lemma bass_Inv_analysisCleanup (l : Loop Viz Callback) :
  Inv l ->
  microtasks (analysisCleanup l) = []
  /\ timers (analysisCleanup l) = []
  /\ animationFrameRef (state (analysisCleanup l)) = None
  /\ nextId (analysisCleanup l) = nextId l
  /\ bassValue (state (analysisCleanup l)) = bassValue (state l)
  /\ reads (state (analysisCleanup l)) = reads (state l).
Proof.
  intros (Hm & Hclean & Hpending & Hid & Hnz & Hstop).
  unfold analysisCleanup.
  destruct Hpending as [Hnone | (due & node & Ht & Href & Hid2)].
  - destruct (animationFrameRef (state l)) as [frame|] eqn:Href.
    2:{ cbn. rewrite Hnone, Hm. auto 7. }
    destruct (Nat.eqb_spec frame 0) as [->|Hframe]; [congruence|].
    cbn. rewrite Hnone, Hm. cbn. auto 7.
  - rewrite Href.
    destruct (Nat.eqb_spec (nextId l - 1) 0) as [Hz|_]; [lia|].
    cbn. rewrite Ht, Hm. cbn. rewrite Nat.eqb_refl. cbn. auto 7.
Qed.

Lemma bass_Inv_analysisEffect (source : FrequencySource) (l : Loop Viz Callback) :
  microtasks l = [] -> timers l = [] ->
  animationFrameRef (state l) = None -> (1 <= nextId l)%nat ->
  Inv (analysisEffect source l).
Proof.
  intros Hm Ht Href Hid. unfold analysisEffect.
  destruct (analyser (state l)) as [node|] eqn:Hnode;
    destruct (isPlaying (state l)) eqn:Hplay.
  - destruct (analyzeBass_shape source node l Ht Hm Hid)
      as (Hm' & Hid' & Hplay' & _ & _ & Hshape).
    unfold Inv; cbn.
    split; [assumption|]. split; [discriminate|].
    split; [|split; [assumption|split]].
    + destruct Hshape as [(Ht' & _)|(due & Ht' & Href' & Hid2)]; eauto 7.
    + destruct Hshape as [(_ & _ & Href')|(due & _ & Href' & Hid2)];
        rewrite Href'; [congruence|]. intros [= E]. lia.
    + rewrite Hplay', Hplay. discriminate.
  - unfold Inv; cbn. rewrite Hm, Ht, Href. auto 8.
  - unfold Inv; cbn. rewrite Hm, Ht, Href, Hplay.
    repeat split; auto; discriminate.
  - unfold Inv; cbn. rewrite Hm, Ht, Href. auto 8.
Qed.

Lemma bass_Inv_render (source : FrequencySource) (a : option nat) (playing : bool)
    (l : Loop Viz Callback) :
  Inv l -> Inv (render source a playing l).
Proof.
  intros HI. unfold render.
  destruct (sameNode a (analyser (state l))
            && Bool.eqb playing (isPlaying (state l))); [assumption|].
  destruct (cleanupPending (state l)) eqn:Hpending.
  - destruct (bass_Inv_analysisCleanup l HI) as (Hm & Ht & Href & Hid & _).
    destruct HI as (_ & _ & _ & Hid0 & _).
    apply bass_Inv_analysisEffect; cbn; auto. lia.
  - destruct HI as (Hm & Hclean & _ & Hid & _).
    destruct (Hclean Hpending) as [Href Ht].
    apply bass_Inv_analysisEffect; cbn; auto.
Qed.

Lemma bass_Inv_turn (source : FrequencySource) (l : Loop Viz Callback) :
  Inv l -> Inv (run (exec source) 1 l).
Proof.
  intros HI. pose proof HI as (Hm & Hclean & Hpending & Hid & Hnz & Hstop).
  unfold run, step. rewrite Hm.
  destruct Hpending as [Hnone | (due & node & Ht & Href & Hid2)].
  - rewrite Hnone. cbn. exact HI.
  - rewrite Ht. cbn -[Nat.sub Nat.eqb Nat.max]. unfold clearTimer. cbn -[Nat.sub Nat.eqb Nat.max]. rewrite Nat.eqb_refl. cbn -[Nat.sub Nat.max].
    set (l2 := mkLoop (Nat.max (clock l) due) (nextId l) [] [] (state l)).
    assert (Hcp : cleanupPending (state l) = true).
    { apply not_false_iff_true. intros E0.
      destruct (Hclean E0) as [_ E]. rewrite Ht in E. discriminate. }
    assert (Hpl : isPlaying (state l) = true).
    { apply not_false_iff_true. intros E0.
      destruct (Hstop E0) as [_ E]. congruence. }
    destruct (analyzeBass_shape source node l2 eq_refl eq_refl Hid)
      as (Hm' & Hid' & Hplay' & _ & Hcp' & Hshape).
    unfold Inv. cbn in Hplay', Hcp'.
    rewrite Hcp', Hcp, Hplay', Hpl.
    split; [assumption|]. split; [discriminate|].
    split; [|split; [assumption|split; [|discriminate]]].
    + destruct Hshape as [(Ht' & _)|(due' & Ht' & Href' & Hid2')]; eauto 7.
    + destruct Hshape as [(_ & _ & Href')|(due' & _ & Href' & Hid2')];
        rewrite Href'; cbn; [rewrite Href|]; intros [= E]; lia.
Qed.

Lemma bass_Inv_play (source : FrequencySource) (events : list Event) :
  Inv (play source events).
Proof.
  unfold play. generalize bass_Inv_mounted. generalize mounted.
  induction events as [|e events IH]; intros l HI; cbn; [assumption|].
  apply IH. destruct e; cbn [apply]; [apply bass_Inv_render|apply bass_Inv_turn]; assumption.
Qed.

(** While the player is not playing nothing is scheduled, the ref is null
    and the published value is 0. *)
Lemma not_playing_quiet (l : Loop Viz Callback) :
  Inv l -> isPlaying (state l) = false ->
  animationFrameRef (state l) = None /\ idle l
  /\ bassValue (state l) = BassZero.
Proof.
  intros (Hm & Hclean & _ & _ & _ & Hstop) Hplay.
  destruct (Hstop Hplay) as [Hbass Hcp].
  destruct (Hclean Hcp) as [Href Ht].
  unfold idle. auto.
Qed.

Lemma render_false_not_playing (source : FrequencySource) (l : Loop Viz Callback) :
  isPlaying (state (render source (analyser (state l)) false l)) = false.
Proof.
  unfold render.
  destruct (sameNode (analyser (state l)) (analyser (state l))
            && Bool.eqb false (isPlaying (state l))) eqn:Hsame.
  - apply andb_true_iff in Hsame as [_ Hsame].
    destruct (isPlaying (state l)); [discriminate|reflexivity].
  - unfold analysisEffect.
    destruct (cleanupPending (state l)); cbn;
      destruct (analyser _); reflexivity.
Qed.

(** C7: in whatever state the player is (after any sequence of renders and
    display frames since mounting), the render in which "is playing" is
    false leaves no scheduled tick and a null frame handle, publishes a bass
    value of 0 at once, and from then on the loop issues no tick: running
    the event loop for any number of turns changes nothing, so the analyser
    is not read again.  More generally no tick is ever pending in a state
    that is not playing. *)
Theorem stop_playing_stops_polling :
  forall (source : FrequencySource) (events : list Event),
    let l := play source events in
    let stopped := render source (analyser (state l)) false l in
    animationFrameRef (state stopped) = None
    /\ timers stopped = []
    /\ microtasks stopped = []
    /\ bassValue (state stopped) = BassZero
    /\ (forall fuel,
          run (exec source) fuel stopped = stopped)
    /\ (isPlaying (state l) = true
        \/ (timers l = [] /\ animationFrameRef (state l) = None
            /\ bassValue (state l) = BassZero)).
Proof.
  intros source events l stopped.
  assert (HI : Inv l) by apply bass_Inv_play.
  assert (HI' : Inv stopped) by (apply bass_Inv_render; exact HI).
  destruct (not_playing_quiet stopped HI' (render_false_not_playing source l))
    as (Href & [Hm Ht] & Hbass).
  do 4 (split; [assumption|]). split.
  - intros fuel. apply LoopFacts.run_idle. split; assumption.
  - destruct (isPlaying (state l)) eqn:Hplay; [left; reflexivity|right].
    destruct (not_playing_quiet l HI Hplay) as (Href0 & [_ Ht0] & Hbass0). auto.
Qed.

End BassFacts.

(** ** Autoplay and its single retry *)
Module TrackLoadFacts.
Import EventLoop TrackLoad.

Definition blocked : Reason :=
  ErrorObject "play() failed because the user didn't interact with the document first.".

(** A browser that blocks every automatic [play()]. *)
Definition blockingBrowser : Browser :=
  mkBrowser (fun _ => PlayRejected blocked) 5 (fun s => s).

(** A browser that blocks the first [play()] only. *)
Definition hesitantBrowser : Browser :=
  mkBrowser (fun n => match n with O => PlayRejected blocked | _ => PlayFulfilled end)
            5 (fun s => s).

Example blocked_twice :
  play blockingBrowser "song.mp3" [Turn; Turn; Turn; Turn]
  = mkLoop 510 5 [] []
      (mkHook false false (Some (failureMessage blocked)) true true
              "/api/audio?path=song.mp3" [505%nat; 200%nat] 1).
Proof. reflexivity. Qed.

Example blocked_once :
  play hesitantBrowser "song.mp3" [Turn; Turn; Turn; Turn]
  = mkLoop 510 5 [] []
      (mkHook true false None true true
              "/api/audio?path=song.mp3" [505%nat; 200%nat] 1).
Proof. reflexivity. Qed.

Example track_changed_before_retry :
  play blockingBrowser "song.mp3" [Turn; Turn; Cleanup; Turn; Turn]
  = mkLoop 505 4 [] []
      (mkHook false true None false true
              "/api/audio?path=song.mp3" [200%nat] 1).
Proof. reflexivity. Qed.

Lemma sanitizeUrl_nonempty (b : Browser) (url : string) :
  String.eqb url EmptyString = false ->
  String.eqb (sanitizeUrl b url) EmptyString = false.
Proof.
  intros Hurl. unfold sanitizeUrl. rewrite Hurl.
  destruct (String.prefix "http" url); [assumption|].
  destruct (String.prefix "/api/" url); [assumption|].
  reflexivity.
Qed.

(** Where the effect stands: at most one callback is pending, and the
    number of [play()] calls made so far goes with it. *)
Inductive Phase (l : Loop Hook Callback) : Prop :=
| Waiting id due url :
    timers l = [mkTimer id due (LoadTimer url)] ->
    playCalls (state l) = [] -> Phase l
| FirstPending id due :
    timers l = [mkTimer id due (Settled 0)] ->
    length (playCalls (state l)) = 1%nat -> Phase l
| RetryArmed id due :
    timers l = [mkTimer id due RetryTimer] ->
    length (playCalls (state l)) = 1%nat -> Phase l
| RetryPending id due :
    timers l = [mkTimer id due (Settled 1)] ->
    length (playCalls (state l)) = 2%nat -> Phase l
| Quiet :
    timers l = [] -> (length (playCalls (state l)) <= 2)%nat -> Phase l.

Definition Inv (l : Loop Hook Callback) : Prop :=
  microtasks l = [] /\ Phase l.

Lemma load_Inv_urlEffect (url : string) : Inv (urlEffect url initial).
Proof.
  unfold urlEffect, Inv. destruct (String.eqb url EmptyString); cbn.
  - split; [reflexivity|]. apply Quiet; cbn; [reflexivity|lia].
  - split; [reflexivity|]. eapply Waiting; reflexivity.
Qed.

Ltac count_calls Hc :=
  cbn; unfold handleSuccess, handleFailure, setPlayback; cbn;
  repeat match goal with
         | |- context [if ?c then _ else _] => destruct c; cbn
         end;
  try rewrite Hc; cbn; lia.

Lemma load_Inv_turn (b : Browser) (l : Loop Hook Callback) :
  Inv l -> Inv (run (exec b) 1 l).
Proof.
  intros [Hm HP]. destruct HP as [id due url Ht Hc|id due Ht Hc|id due Ht Hc
                                  |id due Ht Hc|Ht Hc].
  - rewrite (LoopFacts.turn_single_timer (exec b) l _ _ _ Hm Ht). cbn -[Nat.max].
    unfold onLoadTimer. cbn -[Nat.max].
    destruct (isMounted (state l)); cbn -[Nat.max].
    2:{ split; [reflexivity|]. apply Quiet; [reflexivity|count_calls Hc]. }
    destruct (String.eqb (sanitizeUrl b url) EmptyString); cbn -[Nat.max].
    { split; [reflexivity|]. apply Quiet; [reflexivity|count_calls Hc]. }
    rewrite Hc. cbn -[Nat.max].
    destruct (playResult b 0); cbn -[Nat.max]; (split; [reflexivity|]).
    + apply Quiet; [reflexivity|count_calls Hc].
    + eapply FirstPending; [reflexivity|count_calls Hc].
    + eapply FirstPending; [reflexivity|count_calls Hc].
    + apply Quiet; [reflexivity|count_calls Hc].
  - rewrite (LoopFacts.turn_single_timer (exec b) l _ _ _ Hm Ht). cbn -[Nat.max].
    unfold onSettled.
    destruct (playResult b 0); cbn -[Nat.max]; (split; [reflexivity|]).
    + apply Quiet; [reflexivity|count_calls Hc].
    + apply Quiet; [reflexivity|count_calls Hc].
    + eapply RetryArmed; [reflexivity|exact Hc].
    + apply Quiet; [reflexivity|count_calls Hc].
  - rewrite (LoopFacts.turn_single_timer (exec b) l _ _ _ Hm Ht). cbn -[Nat.max].
    unfold onRetryTimer. cbn -[Nat.max].
    destruct (negb (hasAudio (state l)) || negb (isMounted (state l))).
    { split; [reflexivity|]. apply Quiet; [reflexivity|count_calls Hc]. }
    rewrite Hc.
    destruct (playResult b 1); cbn -[Nat.max]; (split; [reflexivity|]).
    + apply Quiet; [reflexivity|count_calls Hc].
    + eapply RetryPending; [reflexivity|count_calls Hc].
    + eapply RetryPending; [reflexivity|count_calls Hc].
    + apply Quiet; [reflexivity|count_calls Hc].
  - rewrite (LoopFacts.turn_single_timer (exec b) l _ _ _ Hm Ht). cbn -[Nat.max].
    unfold onSettled.
    destruct (playResult b 1); cbn -[Nat.max]; (split; [reflexivity|]);
      (apply Quiet; [reflexivity|count_calls Hc]).
  - cbn. unfold step. rewrite Hm, Ht. cbn. split; [assumption|].
    apply Quiet; assumption.
Qed.

Lemma load_Inv_cleanup (l : Loop Hook Callback) : Inv l -> Inv (effectCleanup l).
Proof.
  intros [Hm HP]. split; [exact Hm|].
  destruct HP; [eapply Waiting|eapply FirstPending|eapply RetryArmed
               |eapply RetryPending|eapply Quiet]; cbn; eassumption.
Qed.

Lemma load_Inv_play (b : Browser) (url : string) (events : list Event) :
  Inv (play b url events).
Proof.
  unfold play. generalize (load_Inv_urlEffect url). generalize (urlEffect url initial).
  induction events as [|e events IH]; intros l HI; cbn; [assumption|].
  apply IH. destruct e; cbn [apply]; [apply load_Inv_turn|apply load_Inv_cleanup]; assumption.
Qed.

Lemma Phase_bound (l : Loop Hook Callback) :
  Phase l -> (length (playCalls (state l)) <= 2)%nat.
Proof.
  intros [id due url Ht Hc|id due Ht Hc|id due Ht Hc|id due Ht Hc|Ht Hc];
    try rewrite Hc; cbn; lia.
Qed.

(** C6: when the browser rejects the automatic [play()] of a newly loaded
    track and the effect stays mounted, the player calls [play()] a second
    time, 300 ms after the rejection, and that is all: two calls, nothing
    left pending.  If the second call is rejected as well, the hook stores an
    error message for the UI and reports not playing and not loading; if it
    is fulfilled, the hook reports playing.  Whatever the browser does and
    whenever the effect is cleaned up, [play()] is never called more than
    twice. *)
Theorem autoplay_rejection_retried_once :
  forall (b : Browser) (url : string) (r0 : Reason),
    String.eqb url EmptyString = false ->
    playResult b 0 = PlayRejected r0 ->
    let final := play b url [Turn; Turn; Turn; Turn] in
    playCalls (state final) = [200 + settleDelay b + 300; 200]%nat
    /\ timers final = [] /\ microtasks final = []
    /\ match playResult b 1 with
       | PlayRejected r1 =>
         error (state final) = Some (failureMessage r1)
         /\ isPlaying (state final) = false
         /\ loading (state final) = false
       | PlayFulfilled =>
         error (state final) = None
         /\ isPlaying (state final) = true
         /\ loading (state final) = false
       | PlayUndefined | PlayThrows _ => True
       end
    /\ (forall events,
          (length (playCalls (state (play b url events))) <= 2)%nat).
Proof.
  intros b url r0 Hurl Hfirst final.
  assert (Hfinal : final =
    match playResult b 1 with
    | PlayRejected r1 =>
      mkLoop (200 + settleDelay b + 300 + settleDelay b) 5 [] []
        (mkHook false false (Some (failureMessage r1)) true true
                (sanitizeUrl b url)
                [200 + settleDelay b + 300; 200]%nat 1)
    | PlayFulfilled =>
      mkLoop (200 + settleDelay b + 300 + settleDelay b) 5 [] []
        (mkHook true false None true true (sanitizeUrl b url)
                [200 + settleDelay b + 300; 200]%nat 1)
    | PlayUndefined | PlayThrows _ =>
      mkLoop (200 + settleDelay b + 300) 4 [] []
        (mkHook false true None true true (sanitizeUrl b url)
                [200 + settleDelay b + 300; 200]%nat 1)
    end).
  { subst final. unfold play. cbn [fold_left apply].
    unfold urlEffect. rewrite Hurl. cbn -[Nat.max Nat.add run].
    LoopFacts.turn_timer (exec b).
    cbn -[Nat.max Nat.add run]. unfold onLoadTimer. cbn -[Nat.max Nat.add run].
    rewrite (sanitizeUrl_nonempty b url Hurl), Hfirst. cbn -[Nat.max Nat.add run].
    LoopFacts.turn_timer (exec b).
    cbn -[Nat.max Nat.add run]. unfold onSettled. rewrite Hfirst. cbn -[Nat.max Nat.add run].
    LoopFacts.turn_timer (exec b).
    cbn -[Nat.max Nat.add run]. unfold onRetryTimer. cbn -[Nat.max Nat.add run].
    change (Nat.max 0 (0 + 200)) with 200%nat.
    replace (Nat.max 200 (200 + settleDelay b))
      with (200 + settleDelay b)%nat by lia.
    replace (Nat.max (200 + settleDelay b) (200 + settleDelay b + 300))
      with (200 + settleDelay b + 300)%nat by lia.
    destruct (playResult b 1) eqn:Hsecond; cbn -[Nat.max Nat.add run].
    - reflexivity.
    - LoopFacts.turn_timer (exec b).
      cbn -[Nat.max Nat.add]. unfold onSettled. rewrite Hsecond.
      unfold withState; cbn -[Nat.max Nat.add]. f_equal; first [lia|reflexivity].
    - LoopFacts.turn_timer (exec b).
      cbn -[Nat.max Nat.add]. unfold onSettled. rewrite Hsecond.
      unfold withState; cbn -[Nat.max Nat.add]. f_equal; first [lia|reflexivity].
    - reflexivity. }
  split; [|split; [|split; [|split]]].
  - rewrite Hfinal. destruct (playResult b 1); reflexivity.
  - rewrite Hfinal. destruct (playResult b 1); reflexivity.
  - rewrite Hfinal. destruct (playResult b 1); reflexivity.
  - rewrite Hfinal. destruct (playResult b 1); cbn; auto.
  - intros events. apply Phase_bound. apply (load_Inv_play b url events).
Qed.

Lemma autoplay_rejection_retried_once_witness :
  let final := play blockingBrowser "song.mp3" [Turn; Turn; Turn; Turn] in
  playCalls (state final) = [200 + 5 + 300; 200]%nat
  /\ timers final = [] /\ microtasks final = []
  /\ (error (state final) = Some (failureMessage blocked)
      /\ isPlaying (state final) = false
      /\ loading (state final) = false)
  /\ (forall events,
        (length (playCalls (state (play blockingBrowser "song.mp3" events))) <= 2)%nat).
Proof.
  apply (autoplay_rejection_retried_once blockingBrowser "song.mp3" blocked);
    reflexivity.
Defined.

End TrackLoadFacts.

(** ** The audio graph: close, reset, create *)
Module ContextFacts.
Import EventLoop UseAudioContext.

Definition conflict : WrapResult :=
  WrapThrows "Failed to execute 'createMediaElementSource' on 'AudioContext': HTMLMediaElement already connected previously to a different MediaElementSourceNode.".

Example includes_conflict :
  match conflict with
  | WrapThrows message => includes message "already connected"
  | WrapOk => false
  end = true.
Proof. reflexivity. Qed.

(** A platform whose first wrap attempt hits the conflict and whose second
    succeeds; a close takes [latency] ms. *)
Definition conflictOnce (latency : nat) : Platform :=
  mkPlatform true latency
             (fun n => match n with O => conflict | _ => WrapOk end)
             running true.

(** A platform without conflicts. *)
Definition smooth (latency : nat) : Platform :=
  mkPlatform true latency (fun _ => WrapOk) running true.

(** *** Resetting a live graph *)

(** The first reset of the live graph, right after the call returns. *)
Definition resetOnce (p : Platform) : Machine :=
  safeResetAudioContext p (hook (state ready)) ready.

(** The same once the close has completed and its reaction has run. *)
Definition resetSettled (p : Platform) : Machine :=
  run (exec p) 2 (resetOnce p).

Definition songElement : AudioElement :=
  mkAudio "/api/audio?path=song.mp3" false 1.

Lemma resetOnce_eq (p : Platform) :
  resetOnce p
  = mkLoop 0 2 [] [mkTimer 1 (0 + closeLatency p) (CloseDone 0)]
      (mkWorld [mkContext running true true false false]
               (mkHook (Some 0%nat) None None) (Some songElement) None
               [(0%nat, ResetThen)] [CloseCalled 0]).
Proof. reflexivity. Qed.

Lemma resetSettled_eq (p : Platform) :
  resetSettled p
  = mkLoop (closeLatency p) 2 [] []
      (mkWorld [mkContext closed true true false false]
               (mkHook None None None) (Some songElement) None
               [] [CloseCompleted 0; CloseCalled 0]).
Proof.
  unfold resetSettled. rewrite resetOnce_eq.
  rewrite (LoopFacts.run_add (exec p) 1 1).
  LoopFacts.turn_timer (exec p).
  cbn -[run Nat.max Nat.add].
  LoopFacts.turn_micro (exec p).
  cbn -[Nat.max Nat.add]. unfold withState; cbn -[Nat.max Nat.add].
  f_equal; lia.
Qed.

(** [createAudioContext] on the live graph: the reset, and the 100 ms timer
    that will build the new context. *)
Lemma createAudioContext_ready (p : Platform) (url : option string) :
  createAudioContext p (hook (state ready)) url ready
  = mkLoop 0 3 [] [mkTimer 1 (closeLatency p) (CloseDone 0);
                   mkTimer 2 100 (CreateTimer (hook (state ready)) url)]
      (mkWorld [mkContext running true true false false]
               (mkHook (Some 0%nat) None None) (Some songElement) None
               [(0%nat, ResetThen)] [CloseCalled 0]).
Proof. vm_compute. reflexivity. Qed.

(** A context whose state is [closed] is never closed again. *)
Lemma safelyClose_closed_skipped (p : Platform) (c : nat) (ctx : AudioContextObj)
    (m : Machine) :
  contexts (state m) !! c = Some ctx -> ctxState ctx = closed ->
  safelyCloseAudioContext p (Some c) m = (m, Resolved).
Proof.
  intros Hc Hclosed. unfold safelyCloseAudioContext. rewrite Hc, Hclosed.
  reflexivity.
Qed.

(** C5, as stated, fails: the second of two resets in a row (as the two
    effects on a new URL issue them, from the same render) finds the context
    still in state [running], because the first close has only been
    requested, and calls [close()] on it again. *)
Lemma second_reset_closes_again :
  ~ (closeCalls 0
       (state (safeResetAudioContext (smooth 50) (hook (state ready))
                 (safeResetAudioContext (smooth 50) (hook (state ready)) ready)))
     <= 1)%nat.
Proof. vm_compute. lia. Qed.

(** C5, amended: the state of a context is checked before [close()] is
    called and a context in state [closed] is skipped, so a second reset made
    once the first close has completed is a no-op: with the state of the
    current render nothing changes at all, and even with the state of the
    render before the reset no second [close()] is issued, by either reset
    function.  A second reset made while the first close is still in flight
    does call [close()] on the same context again (the rejection is caught
    and logged). *)
Theorem second_reset_after_close_is_noop :
  forall p : Platform,
    safelyCloseAudioContext p (Some 0%nat) (resetSettled p)
      = (resetSettled p, Resolved)
    /\ idle (resetSettled p)
    /\ safeResetAudioContext p (hook (state (resetSettled p))) (resetSettled p)
       = resetSettled p
    /\ closeCalls 0 (state (safeResetAudioContext p (hook (state ready))
                              (resetSettled p))) = 1%nat
    /\ closeCalls 0 (state (resetAudioContext p (hook (state ready))
                              (resetSettled p))) = 1%nat
    /\ closeCalls 0 (state (safeResetAudioContext p (hook (state ready))
                              (resetOnce p))) = 2%nat
    /\ closeCalls 0 (state (safeResetAudioContext p (hook (state (resetOnce p)))
                              (resetOnce p))) = 2%nat.
Proof.
  intros p. rewrite resetSettled_eq, resetOnce_eq.
  repeat split; reflexivity.
Qed.

(** *** The retry after an "already connected" failure *)

(** The retry is final: it makes exactly one more wrap attempt, schedules
    nothing, and resolves the promise of [createNewContext] with [true] when
    the wrap succeeded and with [false] when it failed. *)
Lemma retryWrap_final (p : Platform) (m : Machine) :
  timers (retryWrap p m) = timers m
  /\ microtasks (retryWrap p m) = microtasks m
  /\ waiters (state (retryWrap p m)) = waiters (state m)
  /\ wrapAttempts (state (retryWrap p m)) = S (wrapAttempts (state m))
  /\ exists earlier,
      log (state (retryWrap p m))
      = Returned (match wrapResult p (wrapAttempts (state m)) with
                  | WrapOk => true
                  | WrapThrows _ => false
                  end) :: earlier.
Proof.
  unfold retryWrap, construct, tryWrap, wrapAttempts. cbn.
  destruct (wrapResult p _); cbn; eauto 10.
Qed.

(** C2 on a live graph whose close takes 50 ms, with a first wrap that hits
    the conflict and a retry that succeeds: the context stored by the hook is
    closed and the retry context is published, but the context built for the
    first attempt is never closed, so two contexts (1 and 2) stay open. *)
Theorem retry_leaves_first_attempt_context_open :
  let p := conflictOnce 50 in
  let final := run (exec p) 10
                   (createAudioContext p (hook (state ready)) None ready) in
  idle final
  /\ log (state final)
     = [Returned true; WrapTried 2 true; Constructed 2 [1%nat];
        WrapTried 1 false; Constructed 1 []; CloseCompleted 0; CloseCalled 0]
  /\ openContexts (state final) = [1%nat; 2%nat]
  /\ hook (state final) = mkHook (Some 2%nat) (Some 2%nat) (Some 2%nat).
Proof. vm_compute. repeat split; reflexivity. Qed.

(** *** Creating right after a reset *)

(** No context was constructed while context [old] was still open. *)
Definition closedBeforeConstruct (old : nat) (w : World) : Prop :=
  forall c openThen, In (Constructed c openThen) (log w) -> ~ In old openThen.

(** With a close that takes 250 ms: the reset returns with context 0 still
    open (its close has only been requested), and 100 ms later the next
    context is constructed while context 0 is not closed. *)
Lemma create_does_not_wait_for_close :
  In 0%nat (openContexts (state (resetOnce (smooth 250))))
  /\ ~ closedBeforeConstruct 0
        (state (run (exec (smooth 250)) 10
                    (createAudioContext (smooth 250) (hook (state ready)) None ready))).
Proof.
  split.
  - vm_compute. auto.
  - intros H. apply (H 1%nat [0%nat]); vm_compute; auto.
Qed.

(** Context 0 is closed and no context was constructed while it was open. *)
Definition J (w : World) : Prop :=
  (exists ctx, contexts w !! 0%nat = Some ctx /\ ctxState ctx = closed)
  /\ closedBeforeConstruct 0 w.

Lemma J_same (w w' : World) :
  contexts w' = contexts w -> log w' = log w -> J w -> J w'.
Proof.
  intros Hc Hl [Hclosed Hlog]. unfold J, closedBeforeConstruct.
  rewrite Hc, Hl. auto.
Qed.

Lemma J_record (e : Event) (w : World) :
  (forall c openThen, e <> Constructed c openThen) -> J w -> J (record e w).
Proof.
  intros He [Hclosed Hlog]. split; [exact Hclosed|].
  intros c openThen [Hin|Hin]; [exfalso; eapply He; eauto|eauto].
Qed.

Lemma J_updateContext (c : nat) (f : AudioContextObj -> AudioContextObj)
    (w : World) :
  (forall ctx, ctxState ctx = closed -> ctxState (f ctx) = closed) ->
  J w -> J (updateContext c f w).
Proof.
  intros Hf [(ctx & Hctx & Hclosed) Hlog]. split; [|exact Hlog].
  cbn. destruct (Nat.eq_dec c 0%nat) as [->|Hne].
  - exists (f ctx). rewrite list_lookup_alter, Hctx. auto.
  - exists ctx. rewrite list_lookup_alter_ne by assumption. auto.
Qed.

Lemma openFrom_bound (i j : nat) (ctxs : list AudioContextObj) :
  In j (openFrom i ctxs) -> (i <= j)%nat.
Proof.
  revert i. induction ctxs as [|ctx rest IH]; intros i; cbn; [tauto|].
  destruct (isOpen ctx); cbn; intros H.
  - destruct H as [->|H]; [lia|]. apply IH in H. lia.
  - apply IH in H. lia.
Qed.

Lemma closed_not_open (w : World) :
  J w -> ~ In 0%nat (openContexts w).
Proof.
  intros [(ctx & Hctx & Hclosed) _]. unfold openContexts.
  destruct (contexts w) as [|first rest]; [discriminate|].
  cbn in Hctx. injection Hctx as ->. cbn. unfold isOpen. rewrite Hclosed.
  intros H. apply openFrom_bound in H. lia.
Qed.

Lemma J_constructed (new : AudioContextObj) (w : World) :
  J w ->
  J (record (Constructed (length (contexts w)) (openContexts w))
            (setContexts (contexts w ++ [new]) w)).
Proof.
  intros HJ. pose proof (closed_not_open w HJ) as Hnot.
  destruct HJ as [(ctx & Hctx & Hclosed) Hlog]. split.
  - exists ctx. cbn. rewrite lookup_app_l by (eapply lookup_lt_Some; eauto). auto.
  - intros c openThen [Hin|Hin]; [|eauto].
    injection Hin as _ <-. exact Hnot.
Qed.

Lemma J_setHook (h : Hook) (w : World) : J w -> J (setHook h w).
Proof. apply J_same; reflexivity. Qed.

Lemma J_setAudio (a : option AudioElement) (w : World) : J w -> J (setAudio a w).
Proof. apply J_same; reflexivity. Qed.

Lemma J_setFrameRef (r : option nat) (w : World) : J w -> J (setFrameRef r w).
Proof. apply J_same; reflexivity. Qed.

Lemma J_setWaiters (ws : list (nat * Callback)) (w : World) :
  J w -> J (setWaiters ws w).
Proof. apply J_same; reflexivity. Qed.

(** Steps of [J]-preservation, tried in turn on a goal [J (f (g ... w))]. *)
Ltac keepJ :=
  repeat first
    [ assumption
    | apply J_record; [intros ? ?; discriminate|]
    | apply J_updateContext;
      [let ctx := fresh "ctx" in
       let H := fresh "H" in
       intros ctx H; cbn;
       first [reflexivity | exact H
             | rewrite H; cbn; first [reflexivity | exact H]]|]
    | apply J_constructed
    | apply J_setHook
    | apply J_setAudio
    | apply J_setFrameRef
    | apply J_setWaiters ].

Lemma J_closeCall (p : Platform) (c : nat) (ctx : AudioContextObj) (m : Machine) :
  J (state m) -> J (state (fst (closeCall p c ctx m))).
Proof.
  intros HJ. unfold closeCall.
  destruct (closing ctx || negb (isOpen ctx)); cbn; keepJ.
Qed.

Lemma J_safelyClose (p : Platform) (context : option nat) (m : Machine) :
  J (state m) -> J (state (fst (safelyCloseAudioContext p context m))).
Proof.
  intros HJ. unfold safelyCloseAudioContext.
  destruct context as [c|]; [|exact HJ].
  destruct (contexts (state m) !! c) as [ctx|]; [|exact HJ].
  destruct (ctxState ctx); try exact HJ; apply J_closeCall; exact HJ.
Qed.

Lemma J_thenRun (promise : ClosePromise) (k : Callback) (m : Machine) :
  J (state m) -> J (state (thenRun promise k m)).
Proof.
  intros HJ. destruct promise; cbn; keepJ.
Qed.

Lemma J_construct (p : Platform) (m : Machine) :
  J (state m) -> J (state (fst (construct p m))).
Proof. intros HJ. unfold construct. cbn. keepJ. Qed.

Lemma J_tryWrap (p : Platform) (c : nat) (m : Machine) :
  J (state m) -> J (state (fst (tryWrap p c m))).
Proof.
  intros HJ. unfold tryWrap. destruct (wrapResult p _); cbn; keepJ.
Qed.

Lemma J_connectAndPublish (c : nat) (w : World) :
  J w -> J (connectAndPublish c w).
Proof. intros HJ. unfold connectAndPublish. keepJ. Qed.

Lemma J_resume (p : Platform) (c : nat) (w : World) :
  J w -> J (resume p c w).
Proof.
  intros HJ. unfold resume. destruct (resumeSucceeds p); [|exact HJ].
  apply J_updateContext; [|exact HJ].
  intros ctx H. rewrite H. exact H.
Qed.

Lemma J_finish (ok : bool) (m : Machine) :
  J (state m) -> J (state (finish ok m)).
Proof. intros HJ. unfold finish. cbn. keepJ. Qed.

Lemma J_retryWrap (p : Platform) (m : Machine) :
  J (state m) -> J (state (retryWrap p m)).
Proof.
  intros HJ. unfold retryWrap.
  match goal with
  | |- context [construct p ?m1] =>
    assert (H1 : J (state m1)) by (cbn; keepJ);
    pose proof (J_construct p m1 H1) as H2;
    destruct (construct p m1) as [m2 c]
  end.
  cbn [fst] in H2.
  pose proof (J_tryWrap p c m2 H2) as H3.
  destruct (tryWrap p c m2) as [m3 result]. cbn [fst] in H3.
  destruct result; apply J_finish; [cbn; apply J_connectAndPublish|]; exact H3.
Qed.

Lemma J_createNewContext (p : Platform) (cl : Hook) (url : option string)
    (m : Machine) :
  J (state m) -> J (state (createNewContext p cl url m)).
Proof.
  intros HJ. unfold createNewContext.
  destruct (supported p); cbn [negb]; [|apply J_finish; exact HJ].
  destruct (audio (state m)) as [a|]; [|apply J_finish; exact HJ].
  assert (Hbody : forall m1 : Machine, J (state m1) ->
    J (state
         (let (m2, c) := construct p m1 in
          let (m3, result) := tryWrap p c m2 in
          match result with
          | WrapOk =>
            let m4 := withState (connectAndPublish c) m3 in
            match initialState p with
            | suspended => enqueue AfterResume (withState (resume p c) m4)
            | _ => finish true m4
            end
          | WrapThrows message =>
            if includes message "already connected" then
              match audioContext cl with
              | Some old =>
                let (m4, promise) := safelyCloseAudioContext p (Some old) m3 in
                thenRun promise (AfterClose cl) m4
              | None => retryWrap p m3
              end
            else finish false m3
          end))).
  { intros m1 H1.
    pose proof (J_construct p m1 H1) as H2.
    destruct (construct p m1) as [m2 c]. cbn [fst] in H2.
    pose proof (J_tryWrap p c m2 H2) as H3.
    destruct (tryWrap p c m2) as [m3 result]. cbn [fst] in H3.
    destruct result as [|message].
    - cbv zeta. destruct (initialState p).
      + cbn. apply J_resume, J_connectAndPublish, H3.
      + apply J_finish. cbn. apply J_connectAndPublish, H3.
      + apply J_finish. cbn. apply J_connectAndPublish, H3.
    - destruct (includes message "already connected");
        [|apply J_finish; exact H3].
      destruct (audioContext cl) as [old|]; [|apply J_retryWrap; exact H3].
      pose proof (J_safelyClose p (Some old) m3 H3) as H4.
      destruct (safelyCloseAudioContext p (Some old) m3) as [m4 promise].
      apply J_thenRun. exact H4. }
  destruct (hasSource a); [apply Hbody; exact HJ|].
  destruct url as [u|]; [|apply J_finish; exact HJ].
  destruct (String.eqb u EmptyString); [apply J_finish; exact HJ|].
  apply Hbody. cbn. keepJ.
Qed.

Lemma state_enqueue_all (ready : list (nat * Callback)) (m : Machine) :
  state (fold_left (fun acc wk => enqueue (snd wk) acc) ready m) = state m.
Proof.
  revert m. induction ready as [|wk rest IH]; intros m; [reflexivity|].
  cbn [fold_left]. rewrite IH. reflexivity.
Qed.

Lemma J_exec (p : Platform) (k : Callback) (m : Machine) :
  J (state m) -> J (state (exec p k m)).
Proof.
  intros HJ. destruct k as [c| |cl url|cl|]; cbn [exec].
  - unfold onCloseDone. rewrite state_enqueue_all. cbn. keepJ.
  - cbn. keepJ.
  - apply J_createNewContext. exact HJ.
  - apply J_retryWrap. cbn. keepJ.
  - cbn. keepJ.
Qed.

Lemma J_run (p : Platform) (fuel : nat) (m : Machine) :
  J (state m) -> J (state (run (exec p) fuel m)).
Proof.
  revert m. induction fuel as [|fuel IH]; intros m HJ; [exact HJ|].
  cbn [run]. unfold step.
  destruct (microtasks m) as [|k rest].
  - destruct (earliest (timers m)) as [t|]; [|exact HJ].
    apply IH. apply J_exec. exact HJ.
  - apply IH. apply J_exec. exact HJ.
Qed.

(** When the close is quicker than the 100 ms timer, the first turn after
    [createAudioContext] completes the close of context 0. *)
Lemma fast_close_first_turn (p : Platform) (url : option string) :
  (closeLatency p < 100)%nat ->
  J (state (run (exec p) 1
                (createAudioContext p (hook (state ready)) url ready))).
Proof.
  intros Hfast. rewrite createAudioContext_ready. unfold run, step.
  cbn [microtasks timers clock nextId state app earliest t_due t_id t_callback].
  replace (Nat.leb (closeLatency p) 100) with true
    by (symmetry; apply Nat.leb_le; lia).
  cbn [t_callback exec]. unfold onCloseDone. rewrite state_enqueue_all.
  cbn. split.
  - eexists. split; reflexivity.
  - intros c openThen [Hin|[Hin|[]]]; discriminate.
Qed.

(** When the close is quicker than the fixed 100 ms wait, the wait is long
    enough: [safeResetAudioContext] returns with the context still open and
    stored, and the close of the previous context has completed before any
    new context is constructed, however long the loop runs. *)
Theorem create_after_fast_close :
  forall (p : Platform) (url : option string) (fuel : nat),
    (closeLatency p < 100)%nat ->
    openContexts (state (resetOnce p)) = [0%nat]
    /\ audioContext (hook (state (resetOnce p))) = Some 0%nat
    /\ closedBeforeConstruct 0
         (state (run (exec p) fuel
                     (createAudioContext p (hook (state ready)) url ready))).
Proof.
  intros p url fuel Hfast.
  split; [reflexivity|]. split; [reflexivity|].
  destruct fuel as [|fuel].
  - rewrite createAudioContext_ready. cbn [run state log].
    intros c openThen [Hin|[]]; discriminate.
  - change (S fuel) with (1 + fuel)%nat. rewrite LoopFacts.run_add.
    apply J_run. apply fast_close_first_turn. exact Hfast.
Qed.

Lemma create_after_fast_close_witness :
  openContexts (state (resetOnce (smooth 50))) = [0%nat]
  /\ audioContext (hook (state (resetOnce (smooth 50)))) = Some 0%nat
  /\ closedBeforeConstruct 0
       (state (run (exec (smooth 50)) 10
                   (createAudioContext (smooth 50) (hook (state ready)) None ready))).
Proof.
  apply (create_after_fast_close (smooth 50) None 10). cbn. lia.
Defined.

End ContextFacts.

(** ** The playlist: random picks, the shuffle, and what the handlers keep *)
Module PlaylistFacts.
Import App.

(** [Math.floor(Math.random() * n)] is an index below [n]. *)
Lemma draw_in_range (rand : Q) (n : Z) :
  (0 <= rand)%Q -> (rand < 1)%Q -> 0 < n ->
  0 <= Qfloor (rand * inject_Z n) < n.
Proof.
  intros H0 H1 Hn. split.
  - change 0 with (Qfloor (inject_Z 0)). apply Qfloor_resp_le.
    apply Qmult_le_0_compat; [exact H0|].
    unfold Qle; cbn. lia.
  - rewrite Zlt_Qlt. eapply Qle_lt_trans; [apply Qfloor_le|].
    rewrite <- (Qmult_1_l (inject_Z n)) at 2.
    apply Qmult_lt_compat_r; [|exact H1].
    unfold Qlt; cbn. lia.
Qed.

Lemma js_range_lookup (n i : nat) :
  (i < n)%nat -> js_range n !! i = Some (Z.of_nat i).
Proof.
  intros Hi. unfold js_range. rewrite list_lookup_fmap.
  rewrite lookup_seq_lt by exact Hi. reflexivity.
Qed.

Lemma js_range_length (n : nat) : length (js_range n) = n.
Proof. unfold js_range. rewrite length_map, length_seq. reflexivity. Qed.

Lemma js_range_elem (n : nat) (x : Z) :
  In x (js_range n) <-> 0 <= x < Z.of_nat n.
Proof.
  unfold js_range. rewrite in_map_iff. split.
  - intros (i & <- & Hi). apply in_seq in Hi. lia.
  - intros Hx. exists (Z.to_nat x). split; [lia|]. apply in_seq. lia.
Qed.

Lemma js_range_NoDup (n : nat) : List.NoDup (js_range n).
Proof.
  unfold js_range. apply Finite.Injective_map_NoDup.
  - intros a b H. lia.
  - apply seq_NoDup.
Qed.

(** Dropping one value from a list without repetitions removes at most one
    element. *)
Lemma filter_out_length (c : Z) (l : list Z) :
  List.NoDup l ->
  (length l - 1 <= length (List.filter (fun idx => negb (idx =? c)%Z) l))%nat.
Proof.
  induction 1 as [|x l Hx Hnd IH]; cbn; [lia|].
  destruct (Z.eqb_spec x c) as [->|Hne]; cbn.
  - assert (Hall : List.filter (fun idx => negb (idx =? c)) l = l).
    { clear IH Hnd. induction l as [|y l IHl]; cbn; [reflexivity|].
      destruct (Z.eqb_spec y c) as [->|_]; cbn.
      - exfalso. apply Hx. left. reflexivity.
      - rewrite IHl; [reflexivity|]. intros Hin. apply Hx. right. exact Hin. }
    rewrite Hall. lia.
  - lia.
Qed.

Lemma js_get_in_range {A : Type} (arr : list A) (i : Z) :
  0 <= i < Z.of_nat (length arr) -> exists x, js_get arr i = Some x /\ In x arr.
Proof.
  intros Hi. unfold js_get. destruct (Z.ltb_spec i 0); [lia|].
  destruct (arr !! Z.to_nat i) as [x|] eqn:Hx.
  - exists x. split; [reflexivity|].
    apply list_elem_of_In. eapply list_elem_of_lookup_2. exact Hx.
  - apply lookup_ge_None in Hx. lia.
Qed.

Lemma random_pick_spec :
  forall (rand : Q) (s : State),
    (0 <= rand)%Q -> (rand < 1)%Q ->
    isShuffled s = true ->
    historyLength s - 1 <= shuffleHistoryIndex s ->
    1 < tracksLength s ->
    exists n, getNextTrackIndex rand s = Some n
              /\ n <> currentTrackIndex s
              /\ 0 <= n < tracksLength s.
Proof.
  intros rand s H0 H1 Hsh Hend Hmany.
  unfold getNextTrackIndex. rewrite Hsh. cbn [negb].
  destruct (Z.eqb_spec (tracksLength s) 0); [lia|].
  destruct (Z.ltb_spec (shuffleHistoryIndex s) (historyLength s - 1)); [lia|].
  destruct (Z.gtb_spec (tracksLength s) 1); [|lia].
  pose proof (filter_out_length (currentTrackIndex s)
                (js_range (length (allTracks s)))
                (js_range_NoDup _)) as Hlen.
  rewrite js_range_length in Hlen. fold (availableIndexes s) in Hlen.
  unfold tracksLength in *.
  destruct (js_get_in_range (availableIndexes s)
              (Qfloor (rand * inject_Z (Z.of_nat (length (availableIndexes s))))))
    as (pick & Hpick & Hin).
  { apply draw_in_range; [assumption|assumption|lia]. }
  exists pick. split; [exact Hpick|].
  unfold availableIndexes in Hin. apply filter_In in Hin as [Hrange Hne].
  apply js_range_elem in Hrange.
  destruct (Z.eqb_spec pick (currentTrackIndex s)); [discriminate|]. auto.
Qed.

(** In shuffle mode at the end of the history, with more than one track, the
    random pick is a valid index and never the current track. *)
Theorem shuffle_pick_avoids_current :
  forall (rand : Q) (s : State),
    (0 <= rand)%Q -> (rand < 1)%Q ->
    isShuffled s = true ->
    historyLength s - 1 <= shuffleHistoryIndex s ->
    1 < tracksLength s ->
    exists n, getNextTrackIndex rand s = Some n
              /\ n <> currentTrackIndex s
              /\ 0 <= n < tracksLength s.
Proof. exact random_pick_spec. Qed.

Definition song (name : string) : Track :=
  mkTrack name ("C:/music/" ++ name)%string name "artist" "album" None.

Definition threeSongs : list Track := [song "a"; song "b"; song "c"].

(** Shuffle just switched on while the first of three songs plays. *)
Definition shuffling : State := mkState None threeSongs 0 true [] [0] 0.

Lemma shuffle_pick_avoids_current_witness :
  exists n, getNextTrackIndex (1 # 2) shuffling = Some n
            /\ n <> currentTrackIndex shuffling
            /\ 0 <= n < tracksLength shuffling.
Proof.
  apply (shuffle_pick_avoids_current (1 # 2) shuffling);
    try reflexivity; try (unfold Qle, Qlt; cbn; lia);
    unfold historyLength, tracksLength; cbn; lia.
Defined.

(** *** The Fisher-Yates shuffle *)

Lemma insert_middle (l1 l2 : list Z) (x y : Z) :
  <[length l1 := y]> (l1 ++ x :: l2) = l1 ++ y :: l2.
Proof.
  induction l1 as [|h l1 IH]; [reflexivity|].
  cbn [length app]. change (<[S (length l1) := y]> (h :: l1 ++ x :: l2))
    with (h :: <[length l1 := y]> (l1 ++ x :: l2)).
  rewrite IH. reflexivity.
Qed.

Lemma swap_apart (l : list Z) (a b : nat) (x y : Z) :
  (a < b)%nat -> l !! a = Some x -> l !! b = Some y ->
  Permutation (<[b := x]> (<[a := y]> l)) l.
Proof.
  intros Hab Ha Hb.
  apply list_elem_of_split_length in Ha as (l1 & l2 & -> & ->).
  rewrite lookup_app_r in Hb by lia.
  replace (b - length l1)%nat with (S (b - length l1 - 1)) in Hb by lia.
  change ((x :: l2) !! S (b - length l1 - 1)) with (l2 !! (b - length l1 - 1)%nat) in Hb.
  apply list_elem_of_split_length in Hb as (m1 & m2 & -> & Hm).
  rewrite insert_middle.
  replace (l1 ++ y :: m1 ++ y :: m2) with ((l1 ++ y :: m1) ++ y :: m2)
    by (rewrite <- app_assoc; reflexivity).
  replace b with (length (l1 ++ y :: m1))
    by (rewrite length_app; cbn [length]; lia).
  rewrite insert_middle. rewrite <- app_assoc. cbn [app].
  apply Permutation_app_head.
  rewrite <- !Permutation_middle. apply perm_swap.
Qed.

(** A swap rearranges the array and nothing else. *)
Lemma js_swap_permutation (indexes swapped : list Z) (i : nat) (j : Z) :
  js_swap indexes i j = Some swapped -> Permutation swapped indexes.
Proof.
  unfold js_swap.
  destruct (js_get indexes j) as [atJ|] eqn:Hj; [|discriminate].
  destruct (indexes !! i) as [atI|] eqn:Hi; [|discriminate].
  intros [= <-]. apply AppFacts.js_get_Some in Hj as [Hj0 Hj].
  destruct (Nat.lt_total i (Z.to_nat j)) as [Hlt|[Heq|Hgt]].
  - apply swap_apart; assumption.
  - rewrite <- Heq in *. rewrite Hi in Hj. injection Hj as ->.
    rewrite list_insert_insert_eq. rewrite list_insert_id by exact Hi. reflexivity.
  - rewrite list_insert_insert_ne by lia. apply swap_apart; assumption.
Qed.

Lemma fisherYates_permutation (rand : nat -> Q) (i : nat) :
  (forall k, (0 <= rand k)%Q /\ (rand k < 1)%Q) ->
  forall (call : nat) (indexes : list Z),
    (i < length indexes)%nat ->
    exists shuffled, fisherYates rand call i indexes = Some shuffled
                     /\ Permutation shuffled indexes.
Proof.
  intros Hrand. induction i as [|i IH]; intros call indexes Hi; cbn [fisherYates].
  - exists indexes. split; reflexivity.
  - destruct (Hrand call) as [H0 H1].
    pose proof (draw_in_range (rand call) (Z.of_nat (S i) + 1) H0 H1 ltac:(lia))
      as Hj.
    set (j := Qfloor (rand call * inject_Z (Z.of_nat (S i) + 1))) in *.
    destruct (js_swap indexes (S i) j) as [swapped|] eqn:Hswap.
    + pose proof (js_swap_permutation _ _ _ _ Hswap) as Hperm.
      destruct (IH (S call) swapped) as (shuffled & Hrun & Hshuffled).
      { rewrite (Permutation_length Hperm). lia. }
      exists shuffled. split; [exact Hrun|].
      etransitivity; eassumption.
    + exfalso. unfold js_swap in Hswap.
      destruct (js_get_in_range indexes j ltac:(lia)) as (atJ & HatJ & _).
      destruct (lookup_lt_is_Some_2 indexes (S i) Hi) as [atI HatI].
      rewrite HatJ, HatI in Hswap. discriminate.
Qed.

(** [generateShuffledIndexes] returns every track index exactly once,
    whatever [Math.random] draws: its result is a permutation of
    [0 .. allTracks.length - 1], and it is empty without tracks. *)
Theorem generateShuffledIndexes_is_permutation :
  forall (rand : nat -> Q) (s : State),
    (forall k, (0 <= rand k)%Q /\ (rand k < 1)%Q) ->
    exists shuffled,
      generateShuffledIndexes rand s = Some shuffled
      /\ Permutation shuffled (js_range (length (allTracks s)))
      /\ (allTracks s = [] -> shuffled = []).
Proof.
  intros rand s Hrand. unfold generateShuffledIndexes, tracksLength.
  destruct (allTracks s) as [|first rest] eqn:Htracks; cbn [length].
  - exists []. repeat split; reflexivity.
  - destruct (Z.eqb_spec (Z.of_nat (S (length rest))) 0); [lia|].
    destruct (fisherYates_permutation rand
                (length (js_range (S (length rest))) - 1) Hrand 0%nat
                (js_range (S (length rest))))
      as (shuffled & Hrun & Hperm).
    { rewrite js_range_length. lia. }
    exists shuffled. split; [exact Hrun|]. split; [exact Hperm|discriminate].
Qed.

Lemma generateShuffledIndexes_is_permutation_witness :
  exists shuffled,
    generateShuffledIndexes (fun k => 1 # Pos.of_nat (k + 2)) shuffling
      = Some shuffled
    /\ Permutation shuffled (js_range (length (allTracks shuffling)))
    /\ (allTracks shuffling = [] -> shuffled = []).
Proof.
  apply (generateShuffledIndexes_is_permutation
           (fun k => 1 # Pos.of_nat (k + 2)) shuffling).
  intros k. unfold Qle, Qlt; cbn. split; [lia|].
  destruct k; cbn; lia.
Defined.

(** *** What every handler keeps *)

(** The bookkeeping is in range: the cursor points into the history (or is
    -1 with an empty history), every history entry and the current index name
    a track (or the index is -1), and without shuffle there is no history. *)
Definition WF (s : State) : Prop :=
  -1 <= shuffleHistoryIndex s <= historyLength s - 1
  /\ Forall (fun e => 0 <= e < tracksLength s) (shuffleHistory s)
  /\ -1 <= currentTrackIndex s < tracksLength s
  /\ (isShuffled s = false ->
      shuffleHistory s = [] /\ shuffleHistoryIndex s = -1)
  /\ (shuffleHistoryIndex s = -1 -> shuffleHistory s = []).

Lemma findIndexFrom_range (pred : Track -> bool) (tracks : list Track) (i : Z) :
  findIndexFrom pred i tracks = -1
  \/ i <= findIndexFrom pred i tracks < i + Z.of_nat (length tracks).
Proof.
  revert i. induction tracks as [|t rest IH]; intros i; cbn [findIndexFrom length].
  - left. reflexivity.
  - destruct (pred t); [right; lia|].
    destruct (IH (i + 1)) as [->|H]; [left; reflexivity|right; lia].
Qed.

Lemma findIndex_range (pred : Track -> bool) (tracks : list Track) :
  -1 <= findIndexFrom pred 0 tracks < Z.of_nat (length tracks).
Proof.
  destruct (findIndexFrom_range pred tracks 0) as [->|H]; lia.
Qed.

Lemma WF_sync (s : State) : WF s -> WF (syncCurrentTrackIndex s).
Proof.
  intros HWF. pose proof HWF as (Hc & Hh & Hi & Hoff & Hempty).
  unfold syncCurrentTrackIndex.
  destruct (currentTrack s) as [playing|]; [|exact HWF].
  destruct (negb _); [|exact HWF].
  unfold WF, historyLength, tracksLength in *. cbn.
  split; [exact Hc|]. split; [exact Hh|]. split; [apply findIndex_range|].
  split; assumption.
Qed.

Lemma WF_shuffleChange (shuffleState : bool) (s : State) :
  WF s -> WF (handleShuffleChange shuffleState s).
Proof.
  intros (Hc & Hh & Hi & Hoff & Hempty). unfold handleShuffleChange.
  unfold WF, historyLength, tracksLength in *.
  destruct shuffleState; cbn.
  - destruct (Z.eqb_spec (currentTrackIndex s) (-1)) as [Hnone|Hsome]; cbn.
    + repeat split; auto; lia.
    + repeat split; try lia; try congruence.
      apply Forall_cons. split; [lia|]. apply Forall_nil. exact I.
  - repeat split; auto; lia.
Qed.

Lemma slice_to_cursor (s : State) :
  WF s -> 0 <= shuffleHistoryIndex s ->
  js_slice0 (shuffleHistory s) (shuffleHistoryIndex s + 1)
  = take (Z.to_nat (shuffleHistoryIndex s + 1)) (shuffleHistory s)
  /\ Z.of_nat (length (js_slice0 (shuffleHistory s) (shuffleHistoryIndex s + 1)))
     = shuffleHistoryIndex s + 1.
Proof.
  intros (Hc & _) H0. unfold js_slice0, historyLength in *.
  destruct (Z.ltb_spec (shuffleHistoryIndex s + 1) 0); [lia|].
  split; [reflexivity|]. rewrite length_take. lia.
Qed.

Lemma WF_trackSelect (track : Track) (s : State) :
  WF s -> WF (handleTrackSelect track s).
Proof.
  intros HWF. pose proof HWF as (Hc & Hh & Hi & Hoff & Hempty).
  unfold handleTrackSelect.
  pose proof (findIndex_range (fun t => String.eqb (path t) (path track))
                              (allTracks s)) as Hfound.
  set (index := findIndexFrom _ 0 (allTracks s)) in *.
  destruct (Z.eqb_spec index (-1)) as [|Hne]; [exact HWF|]. cbn [negb].
  destruct (isShuffled s) eqn:Hsh.
  - destruct (Z.geb_spec (shuffleHistoryIndex s) 0) as [Hpos|Hneg].
    + destruct (slice_to_cursor s HWF Hpos) as [Hslice Hlen].
      unfold WF, historyLength, tracksLength in *. cbn.
      rewrite length_app. cbn [length].
      repeat split; try lia; try congruence.
      apply Forall_app. split.
      * rewrite Hslice. apply Forall_take. exact Hh.
      * apply Forall_cons. split; [lia|]. apply Forall_nil. exact I.
    + unfold WF, historyLength, tracksLength in *. cbn.
      repeat split; try lia; try congruence.
      apply Forall_cons. split; [lia|]. apply Forall_nil. exact I.
  - unfold WF, historyLength, tracksLength in *. cbn. rewrite Hsh.
    repeat split; try lia; try apply Hoff; auto.
Qed.

Lemma WF_setCurrentTrack (v : option Playing) (s : State) :
  WF s -> WF (setCurrentTrack v s).
Proof. intros H. exact H. Qed.

Lemma playTrackAt_in_range (n : Z) (s : State) :
  0 <= n < tracksLength s ->
  exists track, playTrackAt n s = Normal (setCurrentTrack (Some (playingOf track)) s).
Proof.
  intros Hn. unfold playTrackAt.
  destruct (js_get_in_range (allTracks s) n Hn) as (track & -> & _).
  exists track. reflexivity.
Qed.

Lemma history_entry_valid (s : State) (i e : Z) :
  WF s -> js_get (shuffleHistory s) i = Some e -> 0 <= e < tracksLength s.
Proof.
  intros (_ & Hh & _) He. apply AppFacts.js_get_Some in He as [_ He].
  rewrite Forall_forall in Hh. apply Hh. eapply list_elem_of_lookup_2. exact He.
Qed.

Lemma next_index_range (rand : Q) (s : State) :
  WF s -> (0 <= rand)%Q -> (rand < 1)%Q ->
  exists n, getNextTrackIndex rand s = Some n
            /\ (n = -1 \/ 0 <= n < tracksLength s).
Proof.
  intros HWF H0 H1. pose proof HWF as (Hc & Hh & Hi & Hoff & Hempty).
  destruct (isShuffled s) eqn:Hsh.
  - destruct (Z.eqb_spec (tracksLength s) 0) as [Hzero|Hsome].
    { exists (-1). unfold getNextTrackIndex. rewrite Hsh. cbn [negb].
      rewrite Hzero. cbn. auto. }
    destruct (Z.ltb_spec (shuffleHistoryIndex s) (historyLength s - 1)) as [Hin|Hend].
    { destruct (js_get_in_range (shuffleHistory s) (shuffleHistoryIndex s + 1))
        as (e & He & _); [unfold historyLength in *; lia|].
      exists e. unfold getNextTrackIndex. rewrite Hsh. cbn [negb].
      destruct (Z.eqb_spec (tracksLength s) 0); [lia|].
      destruct (Z.ltb_spec (shuffleHistoryIndex s) (historyLength s - 1)); [|lia].
      split; [exact He|]. right. eapply history_entry_valid; eassumption. }
    destruct (Z.gtb_spec (tracksLength s) 1) as [Hmany|Hone].
    { destruct (random_pick_spec rand s H0 H1 Hsh Hend ltac:(lia))
        as (n & Hn & _ & Hrange).
      exists n. auto. }
    exists (currentTrackIndex s). unfold getNextTrackIndex. rewrite Hsh. cbn [negb].
    destruct (Z.eqb_spec (tracksLength s) 0); [lia|].
    destruct (Z.ltb_spec (shuffleHistoryIndex s) (historyLength s - 1)); [lia|].
    destruct (Z.gtb_spec (tracksLength s) 1); [lia|].
    destruct (Z.eqb_spec (tracksLength s) 1); [|unfold tracksLength in *; lia].
    split; [reflexivity|]. lia.
  - unfold getNextTrackIndex. rewrite Hsh. cbn [negb].
    destruct (Z.ltb_spec (currentTrackIndex s) (tracksLength s - 1)).
    + eexists. split; [reflexivity|]. right. lia.
    + eexists. split; [reflexivity|]. left. reflexivity.
Qed.

Ltac play_at n Hrange :=
  match goal with
  | |- context [playTrackAt n ?s2] =>
    let track := fresh "track" in
    destruct (playTrackAt_in_range n s2 Hrange) as (track & ->);
    exists (setCurrentTrack (Some (playingOf track)) s2);
    split; [reflexivity|]; split; [apply WF_setCurrentTrack|reflexivity]
  end.

Lemma WF_next (rand : Q) (s : State) :
  WF s -> (0 <= rand)%Q -> (rand < 1)%Q ->
  exists s', handleNextTrack rand s = Normal s'
             /\ WF s' /\ allTracks s' = allTracks s.
Proof.
  intros HWF H0 H1. pose proof HWF as (Hc & Hh & Hi & Hoff & Hempty).
  destruct (next_index_range rand s HWF H0 H1) as (n & Hn & Hrange).
  unfold handleNextTrack. rewrite Hn.
  destruct (Z.eqb_spec n (-1)) as [|Hne]; cbn [negb]; [eauto|].
  destruct Hrange as [|Hrange]; [contradiction|].
  destruct (isShuffled s) eqn:Hsh.
  - destruct (Z.ltb_spec (shuffleHistoryIndex s) (historyLength s - 1)) as [Hin|Hend].
    + play_at n Hrange.
      unfold WF, historyLength, tracksLength in *. cbn.
      repeat split; try lia; try congruence; auto.
    + play_at n Hrange.
      rewrite AppFacts.js_slice0_all by (unfold historyLength in *; lia).
      unfold WF, historyLength, tracksLength in *. cbn.
      rewrite length_app. cbn [length].
      repeat split; try lia; try congruence.
      apply Forall_app. split; [exact Hh|].
      apply Forall_cons. split; [lia|]. apply Forall_nil. exact I.
  - play_at n Hrange.
    unfold WF, historyLength, tracksLength in *. cbn. rewrite Hsh.
    repeat split; try lia; try apply Hoff; auto.
Qed.

Lemma previous_index_range (s : State) :
  WF s ->
  exists n, getPreviousTrackIndex s = Some n
            /\ (n = -1 \/ 0 <= n < tracksLength s).
Proof.
  intros HWF. pose proof HWF as (Hc & Hh & Hi & Hoff & Hempty).
  unfold getPreviousTrackIndex.
  destruct (isShuffled s) eqn:Hsh; cbn [negb].
  - destruct (Z.gtb_spec (historyLength s) 0); cbn [andb];
      [|eexists; split; [reflexivity|left; reflexivity]].
    destruct (Z.gtb_spec (shuffleHistoryIndex s) 0);
      [|eexists; split; [reflexivity|left; reflexivity]].
    destruct (js_get_in_range (shuffleHistory s) (shuffleHistoryIndex s - 1))
      as (e & He & _); [unfold historyLength in *; lia|].
    exists e. split; [exact He|]. right. eapply history_entry_valid; eassumption.
  - destruct (Z.gtb_spec (currentTrackIndex s) 0).
    + eexists. split; [reflexivity|]. right. lia.
    + eexists. split; [reflexivity|]. left. reflexivity.
Qed.

Lemma WF_previous (s : State) :
  WF s ->
  exists s', handlePreviousTrack s = Normal s'
             /\ WF s' /\ allTracks s' = allTracks s.
Proof.
  intros HWF. pose proof HWF as (Hc & Hh & Hi & Hoff & Hempty).
  destruct (previous_index_range s HWF) as (n & Hn & Hrange).
  unfold handlePreviousTrack. rewrite Hn.
  destruct (Z.eqb_spec n (-1)) as [|Hne]; cbn [negb]; [eauto|].
  destruct Hrange as [|Hrange]; [contradiction|].
  destruct (isShuffled s) eqn:Hsh; cbn [andb].
  - destruct (Z.gtb_spec (shuffleHistoryIndex s) 0).
    + play_at n Hrange.
      unfold WF, historyLength, tracksLength in *. cbn.
      repeat split; try lia; try congruence; auto.
    + play_at n Hrange.
      unfold WF, historyLength, tracksLength in *. cbn.
      repeat split; try lia; try congruence; auto.
  - play_at n Hrange.
    unfold WF, historyLength, tracksLength in *. cbn. rewrite Hsh.
    repeat split; try lia; try apply Hoff; auto.
Qed.

(** The playlist right after [tracks] have been loaded into a fresh app. *)
Definition loaded (tracks : list Track) : State :=
  mkState None tracks (-1) false [] [] (-1).

Lemma WF_loaded (tracks : list Track) : WF (loaded tracks).
Proof.
  unfold WF, loaded, historyLength, tracksLength; cbn.
  repeat split; try lia; auto.
Qed.

(** [Math.random()] is in [0, 1). *)
Definition validDraw (a : Action) : Prop :=
  match a with
  | PressNext rand => (0 <= rand)%Q /\ (rand < 1)%Q
  | _ => True
  end.

Lemma WF_act (a : Action) (s : State) :
  WF s -> validDraw a ->
  exists s', act a s = Normal s' /\ WF s' /\ allTracks s' = allTracks s.
Proof.
  intros HWF Hdraw. destruct a as [rand| |track|shuffleState]; cbn [act].
  - destruct Hdraw as [H0 H1]. unfold pressNext.
    destruct (next_index_range rand s HWF H0 H1) as (n & -> & _).
    destruct (negb (n =? -1)); [|eauto].
    destruct (WF_next rand s HWF H0 H1) as (s' & -> & HWF' & Htracks). cbn.
    exists (syncCurrentTrackIndex s'). split; [reflexivity|].
    split; [apply WF_sync; exact HWF'|].
    destruct (AppFacts.sync_fields s') as (-> & _). exact Htracks.
  - unfold pressPrevious.
    destruct (previous_index_range s HWF) as (n & -> & _).
    destruct (negb (n =? -1)); [|eauto].
    destruct (WF_previous s HWF) as (s' & -> & HWF' & Htracks). cbn.
    exists (syncCurrentTrackIndex s'). split; [reflexivity|].
    split; [apply WF_sync; exact HWF'|].
    destruct (AppFacts.sync_fields s') as (-> & _). exact Htracks.
  - eexists. split; [reflexivity|]. unfold pressTrack.
    destruct (negb _) eqn:Hfound; [|auto].
    split; [apply WF_sync, WF_trackSelect; exact HWF|].
    destruct (AppFacts.sync_fields (handleTrackSelect track s)) as (-> & _).
    unfold handleTrackSelect. rewrite Hfound.
    destruct (isShuffled s); reflexivity.
  - eexists. split; [reflexivity|].
    split; [apply WF_shuffleChange; exact HWF|].
    unfold handleShuffleChange. destruct shuffleState; cbn;
      [destruct (negb _)|]; reflexivity.
Qed.

(** However the user presses next, previous, a track of the list or the
    shuffle button on a loaded playlist, no handler ever throws, and the
    bookkeeping stays in range: the cursor points into the shuffle history,
    every history entry and the current index name a loaded track (or the
    index is -1), and the track list itself is not touched. *)
Theorem playlist_actions_never_throw :
  forall (tracks : list Track) (actions : list Action),
    Forall validDraw actions ->
    exists s', actAll actions (loaded tracks) = Normal s'
               /\ WF s' /\ allTracks s' = tracks.
Proof.
  intros tracks actions Hdraws.
  assert (Hgen : forall s, WF s ->
            exists s', actAll actions s = Normal s'
                       /\ WF s' /\ allTracks s' = allTracks s).
  { induction Hdraws as [|a rest Ha _ IH]; intros s HWF; cbn [actAll].
    - eauto.
    - destruct (WF_act a s HWF Ha) as (s1 & -> & HWF1 & Ht1). cbn [bindC].
      destruct (IH s1 HWF1) as (s' & Hrun & HWF' & Ht').
      exists s'. rewrite Ht', Ht1. auto. }
  apply (Hgen (loaded tracks) (WF_loaded tracks)).
Qed.

Lemma playlist_actions_never_throw_witness :
  exists s',
    actAll [ToggleShuffle true; PressNext (1 # 2); PressNext (1 # 3);
            PressPrevious; PressTrack (song "b"); PressNext (9 # 10)]
           (loaded threeSongs) = Normal s'
    /\ WF s' /\ allTracks s' = threeSongs.
Proof.
  apply (playlist_actions_never_throw threeSongs).
  repeat (apply Forall_cons; split; [cbn; try exact I; unfold Qle, Qlt; cbn; lia|]).
  apply Forall_nil. exact I.
Defined.

(** *** Going there and back *)

(** The test of the effect on [[currentTrack, allTracks]] for the object
    the handlers store for [track]. *)
Definition matches (track : Track) (t : Track) : bool :=
  String.eqb ("http://localhost:5000/api/stream/" ++ id t)%string (path track)
  || String.eqb (path t) (path track).

(** No two tracks share a path, and no path is the stream URL of a track. *)
Definition distinctPaths (tracks : list Track) : Prop :=
  NoDup (map path tracks)
  /\ forall t u, In t tracks -> In u tracks ->
                 ("http://localhost:5000/api/stream/" ++ id t)%string <> path u.

Lemma findIndexFrom_located (tracks : list Track) (track : Track) (k : nat) (i : Z) :
  distinctPaths tracks -> tracks !! k = Some track ->
  findIndexFrom (matches track) i tracks = i + Z.of_nat k.
Proof.
  intros [Hnodup Hstream] Hk.
  assert (Hin : In track tracks)
    by (apply list_elem_of_In; eapply list_elem_of_lookup_2; exact Hk).
  assert (Hfree : forall t, In t tracks ->
            String.eqb ("http://localhost:5000/api/stream/" ++ id t)%string
                       (path track) = false).
  { intros t Ht. apply String.eqb_neq. apply Hstream; assumption. }
  clear Hstream Hin.
  revert k i Hk Hnodup Hfree.
  induction tracks as [|t rest IH]; intros k i Hk Hnodup Hfree; [discriminate|].
  cbn [findIndexFrom]. unfold matches at 1.
  rewrite (Hfree t) by (left; reflexivity). cbn [orb].
  destruct k as [|k].
  - injection Hk as ->. rewrite String.eqb_refl. lia.
  - cbn in Hk. cbn [map] in Hnodup. apply NoDup_cons in Hnodup as [Hnot Hnodup].
    assert (Hne : String.eqb (path t) (path track) = false).
    { apply String.eqb_neq. intros Heq. apply Hnot. rewrite Heq.
      apply list_elem_of_fmap. exists track. split; [reflexivity|].
      eapply list_elem_of_lookup_2. exact Hk. }
    rewrite Hne. rewrite (IH k (i + 1) Hk Hnodup).
    + lia.
    + intros u Hu. apply Hfree. right. exact Hu.
Qed.

(** With distinct paths the effect finds the track the handler selected at
    the index the handler stored, and so changes nothing. *)
Lemma sync_located (s : State) (track : Track) :
  distinctPaths (allTracks s) ->
  js_get (allTracks s) (currentTrackIndex s) = Some track ->
  currentTrack s = Some (playingOf track) ->
  syncCurrentTrackIndex s = s.
Proof.
  intros Hdistinct Hget Hcur. unfold syncCurrentTrackIndex. rewrite Hcur.
  cbn [url playingOf].
  destruct (String.eqb (path track) EmptyString); cbn [negb]; [reflexivity|].
  apply AppFacts.js_get_Some in Hget as [Hnonneg Hlookup].
  change (fun t : Track =>
            String.eqb ("http://localhost:5000/api/stream/" ++ id t)%string
                       (path track)
            || String.eqb (path t) (path track))
    with (matches track).
  rewrite (findIndexFrom_located _ track _ 0 Hdistinct Hlookup).
  rewrite Z2Nat.id by lia. destruct s; reflexivity.
Qed.

Lemma handlers_next_then_previous :
  forall (rand : Q) (s : State),
    isShuffled s = false ->
    0 <= currentTrackIndex s < tracksLength s - 1 ->
    exists next track,
      js_get (allTracks s) (currentTrackIndex s + 1) = Some next
      /\ js_get (allTracks s) (currentTrackIndex s) = Some track
      /\ handleNextTrack rand s
         = Normal (setCurrentTrack (Some (playingOf next))
                     (setCurrentTrackIndex (currentTrackIndex s + 1) s))
      /\ handlePreviousTrack
           (setCurrentTrack (Some (playingOf next))
              (setCurrentTrackIndex (currentTrackIndex s + 1) s))
         = Normal (setCurrentTrack (Some (playingOf track)) s).
Proof.
  intros rand s Hsh Hcur.
  destruct (js_get_in_range (allTracks s) (currentTrackIndex s + 1))
    as (next & Hnext & _); [unfold tracksLength in *; lia|].
  destruct (js_get_in_range (allTracks s) (currentTrackIndex s))
    as (track & Htrack & _); [unfold tracksLength in *; lia|].
  exists next, track. split; [exact Hnext|]. split; [exact Htrack|]. split.
  - unfold handleNextTrack, getNextTrackIndex. rewrite Hsh. cbn [negb].
    destruct (Z.ltb_spec (currentTrackIndex s) (tracksLength s - 1)); [|lia].
    destruct (Z.eqb_spec (currentTrackIndex s + 1) (-1)); [lia|]. cbn [negb].
    unfold playTrackAt. cbn. rewrite Hnext. reflexivity.
  - unfold handlePreviousTrack, getPreviousTrackIndex. cbn. rewrite Hsh. cbn.
    destruct (Z.gtb_spec (currentTrackIndex s + 1) 0); [|lia].
    replace (currentTrackIndex s + 1 - 1) with (currentTrackIndex s) by lia.
    destruct (Z.eqb_spec (currentTrackIndex s) (-1)); [lia|]. cbn.
    unfold playTrackAt. cbn. rewrite Htrack. cbn.
    destruct s; reflexivity.
Qed.

(** In sequential order, on a playlist whose tracks have distinct paths, a
    press on "next" followed by a press on "previous" (each the handler and
    then the effect that recomputes the index) returns to the track that was
    playing: the same index, the player is handed that track again, and
    nothing else in the state has changed. *)
Theorem next_then_previous_returns :
  forall (rand : Q) (s : State),
    isShuffled s = false ->
    distinctPaths (allTracks s) ->
    0 <= currentTrackIndex s < tracksLength s - 1 ->
    exists s1 s2 track,
      pressNext rand s = Normal s1
      /\ currentTrackIndex s1 = currentTrackIndex s + 1
      /\ pressPrevious s1 = Normal s2
      /\ currentTrackIndex s2 = currentTrackIndex s
      /\ js_get (allTracks s) (currentTrackIndex s) = Some track
      /\ s2 = setCurrentTrack (Some (playingOf track)) s.
Proof.
  intros rand s Hsh Hdistinct Hcur.
  destruct (handlers_next_then_previous rand s Hsh Hcur)
    as (next & track & Hnext & Htrack & Hfwd & Hback).
  set (s1 := setCurrentTrack (Some (playingOf next))
               (setCurrentTrackIndex (currentTrackIndex s + 1) s)) in *.
  assert (Hsync1 : syncCurrentTrackIndex s1 = s1)
    by (apply (sync_located s1 next); [exact Hdistinct|exact Hnext|reflexivity]).
  assert (Hsync2 : syncCurrentTrackIndex (setCurrentTrack (Some (playingOf track)) s)
                   = setCurrentTrack (Some (playingOf track)) s)
    by (apply (sync_located _ track); [exact Hdistinct|exact Htrack|reflexivity]).
  exists s1, (setCurrentTrack (Some (playingOf track)) s), track.
  split; [|split; [reflexivity|split; [|split; [reflexivity|split;
    [exact Htrack|reflexivity]]]]].
  - unfold pressNext, getNextTrackIndex. rewrite Hsh. cbn [negb].
    destruct (Z.ltb_spec (currentTrackIndex s) (tracksLength s - 1)); [|lia].
    destruct (Z.eqb_spec (currentTrackIndex s + 1) (-1)); [lia|]. cbn [negb].
    rewrite Hfwd. cbn [bindC]. rewrite Hsync1. reflexivity.
  - unfold pressPrevious, getPreviousTrackIndex.
    change (isShuffled s1) with (isShuffled s). rewrite Hsh. cbn [negb].
    change (currentTrackIndex s1) with (currentTrackIndex s + 1).
    destruct (Z.gtb_spec (currentTrackIndex s + 1) 0); [|lia].
    destruct (Z.eqb_spec (currentTrackIndex s + 1 - 1) (-1)); [lia|]. cbn [negb].
    rewrite Hback. cbn [bindC]. rewrite Hsync2. reflexivity.
Qed.

Lemma distinct_threeSongs : distinctPaths threeSongs.
Proof.
  split.
  - apply NoDup_ListNoDup. cbn.
    repeat constructor; cbn; intuition discriminate.
  - intros t u Ht Hu. cbn in Ht, Hu.
    destruct Ht as [<-|[<-|[<-|[]]]]; destruct Hu as [<-|[<-|[<-|[]]]];
      discriminate.
Defined.

Definition firstOfThree : State := mkState None threeSongs 0 false [] [] (-1).

Lemma next_then_previous_returns_witness :
  exists s1 s2 track,
    pressNext 0 firstOfThree = Normal s1
    /\ currentTrackIndex s1 = currentTrackIndex firstOfThree + 1
    /\ pressPrevious s1 = Normal s2
    /\ currentTrackIndex s2 = currentTrackIndex firstOfThree
    /\ js_get (allTracks firstOfThree) (currentTrackIndex firstOfThree) = Some track
    /\ s2 = setCurrentTrack (Some (playingOf track)) firstOfThree.
Proof.
  apply (next_then_previous_returns 0 firstOfThree);
    [reflexivity|exact distinct_threeSongs|unfold tracksLength; cbn; lia].
Defined.

(** Two entries for the same file: the effect moves the index to the first
    of them, and "next" then "previous" from index 1 ends on index 0. *)
Definition twice : list Track := [song "a"; song "b"; song "b"].

Example next_then_previous_with_duplicates :
  bindC (pressNext 0 (mkState None twice 1 false [] [] (-1)))
        (fun s1 => bindC (pressPrevious s1)
                         (fun s2 => Normal (currentTrackIndex s2)))
  = Normal 0.
Proof. vm_compute. reflexivity. Qed.

(** In shuffle mode "previous" followed by "next" walks the history back and
    forth without any random draw: the history list is unchanged, the cursor
    is back where it was, and the track played is the history entry under
    it. *)
Theorem shuffle_previous_then_next_returns :
  forall (s : State),
    WF s -> isShuffled s = true -> 0 < shuffleHistoryIndex s ->
    exists s1 s2,
      handlePreviousTrack s = Normal s1
      /\ shuffleHistoryIndex s1 = shuffleHistoryIndex s - 1
      /\ (forall rand, handleNextTrack rand s1 = Normal s2)
      /\ shuffleHistory s2 = shuffleHistory s
      /\ shuffleHistoryIndex s2 = shuffleHistoryIndex s
      /\ js_get (shuffleHistory s) (shuffleHistoryIndex s)
         = Some (currentTrackIndex s2).
Proof.
  intros s HWF Hsh Hpos. pose proof HWF as (Hc & Hh & Hi & Hoff & Hempty).
  unfold historyLength in Hc.
  destruct (js_get_in_range (shuffleHistory s) (shuffleHistoryIndex s - 1))
    as (back & Hback & _); [lia|].
  destruct (js_get_in_range (shuffleHistory s) (shuffleHistoryIndex s))
    as (here & Hhere & _); [lia|].
  pose proof (history_entry_valid s _ _ HWF Hback) as Hbackv.
  pose proof (history_entry_valid s _ _ HWF Hhere) as Hherev.
  destruct (js_get_in_range (allTracks s) back Hbackv) as (tb & Htb & _).
  destruct (js_get_in_range (allTracks s) here Hherev) as (th & Hth & _).
  set (s1 := setCurrentTrack (Some (playingOf tb))
               (setShuffleHistoryIndex (shuffleHistoryIndex s - 1)
                  (setCurrentTrackIndex back s))).
  assert (H1 : handlePreviousTrack s = Normal s1).
  { unfold handlePreviousTrack, getPreviousTrackIndex, historyLength.
    rewrite Hsh. cbn [negb].
    destruct (Z.gtb_spec (Z.of_nat (length (shuffleHistory s))) 0); [|lia].
    destruct (Z.gtb_spec (shuffleHistoryIndex s) 0); [|lia]. cbn [andb].
    rewrite Hback. destruct (Z.eqb_spec back (-1)); [lia|]. cbn [negb].
    unfold playTrackAt. cbn. rewrite Htb. reflexivity. }
  exists s1, (setCurrentTrack (Some (playingOf th))
               (setShuffleHistoryIndex (shuffleHistoryIndex s)
                  (setCurrentTrackIndex here s1))).
  split; [exact H1|]. split; [reflexivity|].
  split; [|split; [reflexivity|split; [reflexivity|exact Hhere]]].
  intros rand. unfold handleNextTrack, getNextTrackIndex, historyLength, tracksLength.
  subst s1. cbn. rewrite Hsh. cbn.
  destruct (Z.eqb_spec (Z.of_nat (length (allTracks s))) 0);
    [unfold tracksLength in *; lia|].
  destruct (Z.ltb_spec (shuffleHistoryIndex s - 1)
                       (Z.of_nat (length (shuffleHistory s)) - 1)); [|lia].
  replace (shuffleHistoryIndex s - 1 + 1) with (shuffleHistoryIndex s) by lia.
  rewrite Hhere. destruct (Z.eqb_spec here (-1)); [lia|]. cbn.
  unfold playTrackAt. cbn. rewrite Hth. reflexivity.
Qed.

Definition twoBack : State :=
  mkState None threeSongs 1 true [] [0; 2; 1] 2.

Lemma WF_twoBack : WF twoBack.
Proof.
  unfold WF, twoBack, historyLength, tracksLength; cbn.
  repeat split; try lia; try discriminate.
  repeat (apply Forall_cons; split; [lia|]). apply Forall_nil. exact I.
Defined.

Lemma shuffle_previous_then_next_returns_witness :
  exists s1 s2,
    handlePreviousTrack twoBack = Normal s1
    /\ shuffleHistoryIndex s1 = shuffleHistoryIndex twoBack - 1
    /\ (forall rand, handleNextTrack rand s1 = Normal s2)
    /\ shuffleHistory s2 = shuffleHistory twoBack
    /\ shuffleHistoryIndex s2 = shuffleHistoryIndex twoBack
    /\ js_get (shuffleHistory twoBack) (shuffleHistoryIndex twoBack)
       = Some (currentTrackIndex s2).
Proof.
  apply (shuffle_previous_then_next_returns twoBack WF_twoBack);
    [reflexivity|cbn; lia].
Defined.

(** *** Reloading the track list *)

(** [handleTracksLoaded] replaces the track list but keeps the shuffle
    history.  When the entry after the cursor names a track beyond the new
    list, the next press of "next" reads [allTracks[newIndex]] as
    [undefined] and throws. *)
Theorem stale_history_makes_next_throw :
  forall (draws : nat -> Q) (rand : Q) (tracks : list Track) (s s' : State)
         (entry : Z),
    isShuffled s = true ->
    tracks <> [] ->
    js_get (shuffleHistory s) (shuffleHistoryIndex s + 1) = Some entry ->
    Z.of_nat (length tracks) <= entry ->
    handleTracksLoaded draws tracks s = Some s' ->
    shuffleHistory s' = shuffleHistory s
    /\ handleNextTrack rand s' = TypeError.
Proof.
  intros draws rand tracks s s' entry Hsh Htracks Hentry Hstale Hload.
  unfold handleTracksLoaded in Hload. rewrite Hsh in Hload.
  destruct (generateShuffledIndexes draws s) as [indexes|]; [|discriminate].
  injection Hload as <-.
  destruct (AppFacts.sync_fields (setShuffledIndexes indexes (setAllTracks tracks s)))
    as (Ht & Hs & Hh & Hc & _).
  split; [rewrite Hh; reflexivity|].
  pose proof (AppFacts.js_get_bound _ _ _ Hentry) as Hbound.
  unfold handleNextTrack, getNextTrackIndex, historyLength, tracksLength, playTrackAt.
  rewrite Hs, Ht, Hh, Hc. cbn [isShuffled allTracks shuffleHistory shuffleHistoryIndex
                               setShuffledIndexes setAllTracks negb].
  rewrite Hsh. cbn [negb].
  destruct (Z.eqb_spec (Z.of_nat (length tracks)) 0);
    [destruct tracks; [contradiction|discriminate]|].
  destruct (Z.ltb_spec (shuffleHistoryIndex s)
                       (Z.of_nat (length (shuffleHistory s)) - 1)); [|lia].
  rewrite Hentry. destruct (Z.eqb_spec entry (-1)); [lia|]. cbn [negb].
  destruct (Z.ltb_spec (shuffleHistoryIndex s)
                       (Z.of_nat (length (shuffleHistory s)) - 1)); [|lia].
  match goal with
  | |- context [js_get ?tracks' entry] =>
    assert (Hnone : js_get tracks' entry = None)
  end.
  { cbn. rewrite Ht. cbn. unfold js_get.
    destruct (Z.ltb_spec entry 0); [reflexivity|].
    apply lookup_ge_None. lia. }
  rewrite Hnone. reflexivity.
Qed.

(** Three songs were shuffled through, the listener went back to the first
    one, and then a folder with a single song is loaded. *)
Definition wentBack : State :=
  mkState None threeSongs 0 true [] [0; 2; 1] 0.

Lemma stale_history_makes_next_throw_witness :
  exists s',
    handleTracksLoaded (fun k => 1 # Pos.of_nat (k + 2)) [song "d"] wentBack
      = Some s'
    /\ shuffleHistory s' = shuffleHistory wentBack
    /\ handleNextTrack (1 # 2) s' = TypeError.
Proof.
  eexists. split; [vm_compute; reflexivity|].
  apply (stale_history_makes_next_throw
           (fun k => 1 # Pos.of_nat (k + 2)) (1 # 2) [song "d"] wentBack _ 2);
    [reflexivity|discriminate|reflexivity|cbn; lia|vm_compute; reflexivity].
Defined.

End PlaylistFacts.

(** ** The analysis loop: one loop at a time, values in range *)
Module AnalysisFacts.
Import EventLoop BassAnalysis.

(** However the props change and however many frames pass, at most one
    tick is scheduled, and it is the frame the ref holds: re-running the
    effect never leaves a second loop running beside the first. *)
Theorem at_most_one_tick_pending :
  forall (source : FrequencySource) (events : list Event),
    let l := play source events in
    timers l = []
    \/ exists frame due node,
        timers l = [mkTimer frame due (AnalyzeBass node)]
        /\ animationFrameRef (state l) = Some frame
        /\ isPlaying (state l) = true.
Proof.
  intros source events l.
  pose proof (BassFacts.bass_Inv_play source events) as HI. fold l in HI.
  pose proof HI as (_ & Hclean & Hpending & _ & _ & Hstop).
  destruct Hpending as [Hnone|(due & node & Ht & Href & _)]; [left; exact Hnone|].
  right. exists (nextId l - 1)%nat, due, node.
  split; [exact Ht|]. split; [exact Href|].
  apply not_false_iff_true. intros Hplay.
  destruct (Hstop Hplay) as [_ Hcp]. destruct (Hclean Hcp) as [_ Hnil].
  rewrite Ht in Hnil. discriminate.
Qed.

(** The integers behind a published value: the maximum is a byte and the
    sum lies between the maximum and eight times the maximum. *)
Definition inRange (b : Bass) : Prop :=
  match b with
  | BassZero => True
  | BassScaled bassSum maxBassValue =>
    0 <= maxBassValue <= 255 /\ maxBassValue <= bassSum <= 8 * maxBassValue
  end.

(** [avgBass * 0.7 + (maxBassValue / 255) * 0.3], before [Math.min(1, ...)] *)
Definition blend (b : Bass) : Q :=
  match b with
  | BassZero => 0
  | BassScaled bassSum maxBassValue =>
    (inject_Z bassSum / inject_Z (Z.of_nat bassRange * 255)) * (7 # 10)
    + (inject_Z maxBassValue / 255) * (3 # 10)
  end.

Lemma inRange_analyzeBass (source : FrequencySource) (node : nat)
    (l : Loop Viz Callback) :
  inRange (bassValue (state (analyzeBass source node l))).
Proof.
  unfold analyzeBass. destruct (source node _) as [snapshot|]; [|exact I].
  change (inRange (BassScaled (fst (bassWindow (dataArrayOf snapshot)))
                              (snd (bassWindow (dataArrayOf snapshot))))).
  exact (BassFacts.bassWindow_bounds snapshot).
Qed.

Lemma inRange_analysisCleanup (l : Loop Viz Callback) :
  inRange (bassValue (state l)) ->
  inRange (bassValue (state (analysisCleanup l))).
Proof.
  unfold analysisCleanup. destruct (animationFrameRef (state l)) as [frame|]; [|auto].
  destruct (Nat.eqb frame 0); auto.
Qed.

Lemma inRange_render (source : FrequencySource) (a : option nat) (playing : bool)
    (l : Loop Viz Callback) :
  inRange (bassValue (state l)) ->
  inRange (bassValue (state (render source a playing l))).
Proof.
  intros H. unfold render.
  destruct (sameNode a (analyser (state l)) && _); [exact H|].
  assert (H1 : inRange (bassValue (state
                 (if cleanupPending (state l) then analysisCleanup l else l)))).
  { destruct (cleanupPending (state l)); [apply inRange_analysisCleanup|]; exact H. }
  revert H1. generalize (if cleanupPending (state l) then analysisCleanup l else l).
  intros l1 H1. unfold analysisEffect. cbn [state withState analyser isPlaying setProps].
  destruct a as [node|]; destruct playing; cbn [negb];
    try (cbn; first [exact I | exact H1]).
  cbn [state withState setCleanupPending bassValue].
  apply inRange_analyzeBass.
Qed.

Lemma inRange_turn (source : FrequencySource) (l : Loop Viz Callback) :
  inRange (bassValue (state l)) ->
  inRange (bassValue (state (run (exec source) 1 l))).
Proof.
  intros H. cbn [run]. unfold step.
  destruct (microtasks l) as [|[node] rest].
  - destruct (earliest (timers l)) as [[id due [node]]|]; [|exact H].
    apply inRange_analyzeBass.
  - apply inRange_analyzeBass.
Qed.

Lemma inRange_play (source : FrequencySource) (events : list Event) :
  inRange (bassValue (state (play source events))).
Proof.
  unfold play. assert (H : inRange (bassValue (state mounted))) by exact I.
  revert H. generalize mounted.
  induction events as [|e events IH]; intros l H; cbn [fold_left]; [exact H|].
  apply IH. destruct e; cbn [apply]; [apply inRange_render|apply inRange_turn]; exact H.
Qed.

Lemma blend_bounds (b : Bass) : inRange b -> (0 <= blend b)%Q /\ (blend b <= 1)%Q.
Proof.
  destruct b as [|bassSum maxBassValue]; cbn [inRange blend].
  - intros _. split; unfold Qle; cbn; lia.
  - intros [Hmax Hsum].
    change (Z.of_nat bassRange * 255) with 2040.
    unfold Qle, Qplus, Qmult, Qdiv, Qinv, inject_Z. cbn. split; lia.
Qed.

(** Whatever the analyser reports, the value the loop publishes is computed
    from a maximum within a byte and a sum between that maximum and eight
    times it, so the blend of average and maximum lies in [0, 1] and
    [Math.min(1, ...)] never cuts anything off. *)
Theorem published_blend_within_unit :
  forall (source : FrequencySource) (events : list Event),
    let b := bassValue (state (play source events)) in
    inRange b /\ (0 <= blend b)%Q /\ (blend b <= 1)%Q.
Proof.
  intros source events b.
  pose proof (inRange_play source events) as H. fold b in H.
  split; [exact H|]. apply blend_bounds. exact H.
Qed.

(** When [getByteFrequencyData] throws on a tick, the tick publishes 0 and
    schedules no further frame: the loop has stopped for good although the
    player still reports playing, and further turns of the event loop change
    nothing. *)
Theorem throwing_read_ends_the_loop :
  forall (source : FrequencySource) (events : list Event)
         (frame due node : nat),
    let l := play source events in
    timers l = [mkTimer frame due (AnalyzeBass node)] ->
    source node (reads (state l)) = None ->
    let l' := run (exec source) 1 l in
    idle l'
    /\ bassValue (state l') = BassZero
    /\ isPlaying (state l') = true
    /\ reads (state l') = S (reads (state l))
    /\ forall fuel, run (exec source) fuel l' = l'.
Proof.
  intros source events frame due node l Ht Hthrow l'.
  pose proof (BassFacts.bass_Inv_play source events) as HI. fold l in HI.
  pose proof HI as (Hm & Hclean & _ & _ & _ & Hstop).
  assert (Hplay : isPlaying (state l) = true).
  { apply not_false_iff_true. intros Hplay.
    destruct (Hstop Hplay) as [_ Hcp]. destruct (Hclean Hcp) as [_ Hnil].
    rewrite Ht in Hnil. discriminate. }
  assert (Hl' : l' = withState (setBassValue BassZero)
                       (withState countRead
                          (mkLoop (Nat.max (clock l) due) (nextId l) [] [] (state l)))).
  { subst l'. rewrite (LoopFacts.turn_single_timer (exec source) l _ _ _ Hm Ht).
    cbn [exec]. unfold analyzeBass. cbn [state]. rewrite Hthrow. reflexivity. }
  assert (Hidle : idle l') by (rewrite Hl'; split; reflexivity).
  split; [exact Hidle|]. rewrite Hl' at 1 2 3. cbn.
  split; [reflexivity|]. split; [exact Hplay|]. split; [reflexivity|].
  intros fuel. apply LoopFacts.run_idle. exact Hidle.
Qed.

(** An analyser that delivers one silent frame and then throws. *)
Definition failing : FrequencySource :=
  fun _ n => match n with O => Some [] | _ => None end.

Lemma throwing_read_ends_the_loop_witness :
  let l := play failing [Render (Some 7%nat) true] in
  let l' := run (exec failing) 1 l in
  idle l'
  /\ bassValue (state l') = BassZero
  /\ isPlaying (state l') = true
  /\ reads (state l') = S (reads (state l))
  /\ forall fuel, run (exec failing) fuel l' = l'.
Proof.
  apply (throwing_read_ends_the_loop failing [Render (Some 7%nat) true] 1 16 7);
    reflexivity.
Defined.

End AnalysisFacts.

(** ** The track-loading effect: stale effects, settling, the happy path *)
Module AutoplayFacts.
Import EventLoop TrackLoad.

(** *** An effect that was cleaned up *)

Lemma unmounted_exec (b : Browser) (k : Callback) (l : Loop Hook Callback) :
  isMounted (state l) = false -> state (exec b k l) = state l.
Proof.
  intros Hun. destruct k as [url|attempt|]; cbn [exec].
  - unfold onLoadTimer. rewrite Hun. reflexivity.
  - unfold onSettled.
    destruct (playResult b attempt); try reflexivity.
    + cbn. unfold handleSuccess. rewrite Hun. reflexivity.
    + destruct attempt; [reflexivity|].
      cbn. unfold handleFailure. rewrite Hun. reflexivity.
  - unfold onRetryTimer. rewrite Hun.
    destruct (hasAudio (state l)); reflexivity.
Qed.

Lemma unmounted_apply (b : Browser) (e : Event) (l : Loop Hook Callback) :
  isMounted (state l) = false -> state (apply b e l) = state l.
Proof.
  intros Hun. destruct e; cbn [apply].
  - cbn [run]. unfold step.
    destruct (microtasks l) as [|k rest].
    + destruct (earliest (timers l)) as [t|]; [|reflexivity].
      rewrite unmounted_exec; [reflexivity|exact Hun].
    + rewrite unmounted_exec; [reflexivity|exact Hun].
  - unfold effectCleanup. cbn. destruct (state l); cbn in *. subst. reflexivity.
Qed.

Lemma unmounted_all (b : Browser) (events : list Event) (l : Loop Hook Callback) :
  isMounted (state l) = false ->
  state (fold_left (fun l e => apply b e l) events l) = state l.
Proof.
  revert l. induction events as [|e events IH]; intros l Hun; [reflexivity|].
  cbn [fold_left]. rewrite IH.
  - apply unmounted_apply. exact Hun.
  - rewrite unmounted_apply; exact Hun.
Qed.

(** Once the effect has been cleaned up (the track changed or the player
    went away) it never touches the hook again: whatever was pending and
    whatever the browser answers later, the state cells, the element's
    source and the list of [play()] calls stay as the cleanup left them. *)
Theorem cleaned_up_effect_is_inert :
  forall (b : Browser) (url : string) (before after : list Event),
    state (play b url (before ++ Cleanup :: after))
    = state (play b url (before ++ [Cleanup])).
Proof.
  intros b url before after. unfold play.
  rewrite !fold_left_app. cbn [fold_left apply].
  apply unmounted_all. reflexivity.
Qed.

(** *** Settling *)

(** How many turns a pending callback can still cause. *)
Definition pendingRank (k : Callback) : nat :=
  match k with
  | LoadTimer _ => 4
  | Settled O => 3
  | RetryTimer => 2
  | Settled (S _) => 1
  end.

Definition rank (l : Loop Hook Callback) : nat :=
  match timers l with
  | [] => 0
  | t :: _ => pendingRank (t_callback t)
  end.

Definition turns (events : list Event) : nat :=
  length (List.filter (fun e => match e with Turn => true | Cleanup => false end)
                      events).

Lemma rank_turn (b : Browser) (l : Loop Hook Callback) :
  TrackLoadFacts.Inv l ->
  (rank (run (exec b) 1 l) <= rank l - 1)%nat.
Proof.
  intros [Hm HP]. destruct HP as [id due url Ht Hc|id due Ht Hc|id due Ht Hc
                                  |id due Ht Hc|Ht Hc].
  - rewrite (LoopFacts.turn_single_timer (exec b) l _ _ _ Hm Ht).
    unfold rank at 2. rewrite Ht. cbn [t_callback pendingRank exec].
    unfold onLoadTimer. cbn [state].
    destruct (isMounted (state l)); cbn [negb]; [|cbn; lia].
    destruct (String.eqb (sanitizeUrl b url) EmptyString); [cbn; lia|].
    rewrite Hc. cbn [length].
    destruct (playResult b 0); cbn; lia.
  - rewrite (LoopFacts.turn_single_timer (exec b) l _ _ _ Hm Ht).
    unfold rank at 2. rewrite Ht. cbn [t_callback pendingRank exec].
    unfold onSettled. destruct (playResult b 0); cbn; lia.
  - rewrite (LoopFacts.turn_single_timer (exec b) l _ _ _ Hm Ht).
    unfold rank at 2. rewrite Ht. cbn [t_callback pendingRank exec].
    unfold onRetryTimer. cbn [state].
    destruct (negb (hasAudio (state l)) || negb (isMounted (state l))); [cbn; lia|].
    rewrite Hc. destruct (playResult b 1); cbn; lia.
  - rewrite (LoopFacts.turn_single_timer (exec b) l _ _ _ Hm Ht).
    unfold rank at 2. rewrite Ht. cbn [t_callback pendingRank exec].
    unfold onSettled. destruct (playResult b 1); cbn; lia.
  - cbn [run]. unfold step. rewrite Hm, Ht. cbn. unfold rank. rewrite Ht. lia.
Qed.

Lemma rank_events (b : Browser) (events : list Event) (l : Loop Hook Callback) :
  TrackLoadFacts.Inv l ->
  (rank (fold_left (fun l e => apply b e l) events l) <= rank l - turns events)%nat.
Proof.
  revert l. induction events as [|e events IH]; intros l HI.
  - cbn. lia.
  - cbn [fold_left]. destruct e; cbn [apply].
    + pose proof (rank_turn b l HI) as Hstep.
      pose proof (IH _ (TrackLoadFacts.load_Inv_turn b l HI)) as Hrest.
      unfold turns in *. cbn [List.filter length]. lia.
    + pose proof (IH _ (TrackLoadFacts.load_Inv_cleanup l HI)) as Hrest.
      unfold turns in *. cbn [List.filter]. exact Hrest.
Qed.

Lemma rank_start (url : string) : (rank (urlEffect url initial) <= 4)%nat.
Proof.
  unfold urlEffect. destruct (String.eqb url EmptyString); cbn; lia.
Qed.

(** Whatever the browser answers and whenever the effect is cleaned up,
    the effect is over after four turns of the event loop: the 200 ms
    timer, the first promise, the 300 ms retry timer and the second
    promise.  Nothing stays scheduled after that. *)
Theorem effect_settles_within_four_turns :
  forall (b : Browser) (url : string) (events : list Event),
    (4 <= turns events)%nat ->
    idle (play b url events)
    /\ forall more, timers (play b url (events ++ more)) = [].
Proof.
  intros b url events Hturns.
  assert (Hidle : forall evs, (4 <= turns evs)%nat -> idle (play b url evs)).
  { intros evs Hevs.
    pose proof (TrackLoadFacts.load_Inv_play b url evs) as [Hm HP].
    split; [exact Hm|].
    pose proof (rank_events b evs _ (TrackLoadFacts.load_Inv_urlEffect url)) as Hr.
    pose proof (rank_start url) as Hs. fold (play b url evs) in Hr.
    assert (Hz : rank (play b url evs) = 0%nat) by lia.
    unfold rank in Hz. destruct (timers (play b url evs)) as [|t rest]; [reflexivity|].
    destruct (t_callback t) as [u|[|a]|]; cbn in Hz; discriminate. }
  split; [apply Hidle; exact Hturns|].
  intros more. apply Hidle. unfold turns in *.
  rewrite List.filter_app, length_app. lia.
Qed.

Lemma effect_settles_within_four_turns_witness :
  idle (play TrackLoadFacts.hesitantBrowser "song.mp3"
             [Turn; Turn; Cleanup; Turn; Turn])
  /\ forall more,
      timers (play TrackLoadFacts.hesitantBrowser "song.mp3"
                   ([Turn; Turn; Cleanup; Turn; Turn] ++ more)) = [].
Proof.
  apply (effect_settles_within_four_turns TrackLoadFacts.hesitantBrowser "song.mp3"
           [Turn; Turn; Cleanup; Turn; Turn]).
  cbn. lia.
Defined.

(** *** When the first [play()] is not rejected *)

(** No retry is armed or under way, and [play()] was called at most once. *)
Definition SingleCall (l : Loop Hook Callback) : Prop :=
  microtasks l = []
  /\ ((exists id due url,
         timers l = [mkTimer id due (LoadTimer url)] /\ playCalls (state l) = [])
      \/ (exists id due,
            timers l = [mkTimer id due (Settled 0)]
            /\ length (playCalls (state l)) = 1%nat)
      \/ (timers l = [] /\ (length (playCalls (state l)) <= 1)%nat)).

Lemma SingleCall_start (url : string) : SingleCall (urlEffect url initial).
Proof.
  unfold urlEffect, SingleCall. destruct (String.eqb url EmptyString); cbn.
  - split; [reflexivity|]. right. right. split; [reflexivity|lia].
  - split; [reflexivity|]. left. eauto.
Qed.

Lemma SingleCall_turn (b : Browser) (l : Loop Hook Callback) :
  (forall r, playResult b 0 <> PlayRejected r) ->
  SingleCall l -> SingleCall (run (exec b) 1 l).
Proof.
  intros Hok [Hm [(id & due & url & Ht & Hc)|[(id & due & Ht & Hc)|[Ht Hc]]]].
  - rewrite (LoopFacts.turn_single_timer (exec b) l _ _ _ Hm Ht). cbn -[Nat.max].
    unfold onLoadTimer. cbn -[Nat.max].
    destruct (isMounted (state l)); cbn -[Nat.max].
    2:{ split; [reflexivity|]. right. right.
        split; [reflexivity|TrackLoadFacts.count_calls Hc]. }
    destruct (String.eqb (sanitizeUrl b url) EmptyString); cbn -[Nat.max].
    { split; [reflexivity|]. right. right.
      split; [reflexivity|TrackLoadFacts.count_calls Hc]. }
    rewrite Hc. cbn -[Nat.max].
    destruct (playResult b 0); cbn -[Nat.max]; (split; [reflexivity|]).
    + right. right. split; [reflexivity|TrackLoadFacts.count_calls Hc].
    + right. left. eexists _, _. split; [reflexivity|TrackLoadFacts.count_calls Hc].
    + right. left. eexists _, _. split; [reflexivity|TrackLoadFacts.count_calls Hc].
    + right. right. split; [reflexivity|TrackLoadFacts.count_calls Hc].
  - rewrite (LoopFacts.turn_single_timer (exec b) l _ _ _ Hm Ht). cbn -[Nat.max].
    unfold onSettled.
    destruct (playResult b 0) as [| |r|r] eqn:Hres; cbn -[Nat.max];
      try (split; [reflexivity|]; right; right;
           split; [reflexivity|TrackLoadFacts.count_calls Hc]).
    exfalso. exact (Hok r eq_refl).
  - cbn. unfold step. rewrite Hm, Ht. cbn. split; [assumption|].
    right. right. split; assumption.
Qed.

Lemma SingleCall_cleanup (l : Loop Hook Callback) :
  SingleCall l -> SingleCall (effectCleanup l).
Proof.
  intros [Hm H]. split; [exact Hm|]. cbn. exact H.
Qed.

Lemma SingleCall_play (b : Browser) (url : string) (events : list Event) :
  (forall r, playResult b 0 <> PlayRejected r) ->
  SingleCall (play b url events).
Proof.
  intros Hok. unfold play. generalize (SingleCall_start url).
  generalize (urlEffect url initial).
  induction events as [|e events IH]; intros l HI; cbn [fold_left]; [assumption|].
  apply IH. destruct e; cbn [apply];
    [apply SingleCall_turn|apply SingleCall_cleanup]; assumption.
Qed.

(** The retry is for a rejected promise only: when the first [play()] is
    fulfilled, returns no promise or throws, [play()] is never called a
    second time and the 300 ms timer is never set, whatever happens
    later. *)
Theorem play_not_rejected_is_not_retried :
  forall (b : Browser) (url : string) (events : list Event),
    (forall r, playResult b 0 <> PlayRejected r) ->
    let l := play b url events in
    (length (playCalls (state l)) <= 1)%nat
    /\ forall t, In t (timers l) -> t_callback t <> RetryTimer.
Proof.
  intros b url events Hok l.
  destruct (SingleCall_play b url events Hok)
    as [_ [(id & due & u & Ht & Hc)|[(id & due & Ht & Hc)|[Ht Hc]]]];
    fold l in Ht, Hc; rewrite Ht.
  - rewrite Hc. split; [cbn; lia|]. intros t [<-|[]]. discriminate.
  - rewrite Hc. split; [lia|]. intros t [<-|[]]. discriminate.
  - split; [exact Hc|]. intros t [].
Qed.

(** A browser that lets every [play()] through. *)
Definition permissive : Browser :=
  mkBrowser (fun _ => PlayFulfilled) 5 (fun s => s).

Lemma play_not_rejected_is_not_retried_witness :
  let l := play permissive "song.mp3" [Turn; Turn; Turn] in
  (length (playCalls (state l)) <= 1)%nat
  /\ forall t, In t (timers l) -> t_callback t <> RetryTimer.
Proof.
  apply (play_not_rejected_is_not_retried permissive "song.mp3" [Turn; Turn; Turn]).
  intros r. cbn. discriminate.
Defined.

(** When the browser allows the automatic [play()], two turns after the
    effect ran (the 200 ms timer and the promise) the element has the
    sanitized URL as its source, [play()] was called once, at 200 ms, and
    the hook reports playing, not loading, no error; nothing is pending. *)
Theorem allowed_autoplay_starts_playback :
  forall (b : Browser) (url : string),
    String.eqb url EmptyString = false ->
    playResult b 0 = PlayFulfilled ->
    play b url [Turn; Turn]
    = mkLoop (200 + settleDelay b) 3 [] []
        (mkHook true false None true true (sanitizeUrl b url) [200%nat] 1).
Proof.
  intros b url Hurl Hfirst. unfold play. cbn [fold_left apply].
  unfold urlEffect. rewrite Hurl. cbn -[Nat.max Nat.add run].
  LoopFacts.turn_timer (exec b).
  cbn -[Nat.max Nat.add run]. unfold onLoadTimer. cbn -[Nat.max Nat.add run].
  rewrite (TrackLoadFacts.sanitizeUrl_nonempty b url Hurl), Hfirst.
  cbn -[Nat.max Nat.add run].
  LoopFacts.turn_timer (exec b).
  cbn -[Nat.max Nat.add]. unfold onSettled. rewrite Hfirst.
  unfold withState; cbn -[Nat.max Nat.add]. f_equal; lia.
Qed.

Lemma allowed_autoplay_starts_playback_witness :
  play permissive "C:\music\song.mp3" [Turn; Turn]
  = mkLoop (200 + settleDelay permissive) 3 [] []
      (mkHook true false None true true
              (sanitizeUrl permissive "C:\music\song.mp3") [200%nat] 1).
Proof.
  apply (allowed_autoplay_starts_playback permissive "C:\music\song.mp3");
    reflexivity.
Defined.

End AutoplayFacts.

(** ** The audio graph when the close is slow, and when the wrap fails *)
Module GraphFacts.
Import EventLoop UseAudioContext.

(** Split [n + k] turns into [n] turns followed by [k]. *)
Ltac split_run e n k :=
  match goal with
  | |- context [run e ?f ?l] =>
    lazymatch l with
    | context [run] => fail
    | _ =>
      change (run e f l) with (run e (n + k) l);
      rewrite (LoopFacts.run_add e n k l)
    end
  end.

Ltac pick_timer p :=
  unfold run at 1, step;
  cbn [microtasks timers clock nextId state app earliest t_due t_id t_callback];
  replace (Nat.leb (closeLatency p) 100) with false
    by (symmetry; apply Nat.leb_gt; lia);
  cbn [t_callback t_id t_due exec clearTimer timers List.filter negb Nat.eqb
       clock nextId microtasks state].

(** The first turn after [createAudioContext] on the live graph when the
    close is slower than the 100 ms timer and the wrap succeeds: the new
    graph is built and published while context 0 is still closing. *)
Lemma slow_close_first_turn (p : Platform) (url : option string) :
  supported p = true -> (100 < closeLatency p)%nat ->
  wrapResult p 0 = WrapOk ->
  run (exec p) 1 (createAudioContext p (hook (state ready)) url ready)
  = (match initialState p with
     | suspended => enqueue AfterResume
     | _ => finish true
     end)
      (mkLoop 100 3 [] [mkTimer 1 (closeLatency p) (CloseDone 0)]
         (mkWorld [mkContext running true true false false;
                   mkContext (match initialState p with
                              | suspended =>
                                if resumeSucceeds p then running else suspended
                              | other => other
                              end) false true true true]
                  (mkHook (Some 1%nat) (Some 1%nat) (Some 1%nat))
                  (Some ContextFacts.songElement) None
                  [(0%nat, ResetThen)]
                  [WrapTried 1 true; Constructed 1 [0%nat]; CloseCalled 0])).
Proof.
  intros Hsup Hslow Hwrap.
  rewrite ContextFacts.createAudioContext_ready.
  pick_timer p.
  unfold createNewContext. rewrite Hsup.
  cbn -[Nat.max includes]. unfold tryWrap, wrapAttempts.
  cbn -[Nat.max includes]. rewrite Hwrap. cbn -[Nat.max includes].
  destruct (initialState p); cbn -[Nat.max]; try reflexivity.
  unfold resume. destruct (resumeSucceeds p); reflexivity.
Qed.

Definition newState (p : Platform) : ContextState :=
  match initialState p with
  | suspended => if resumeSucceeds p then running else suspended
  | other => other
  end.

Lemma slow_close_settled (p : Platform) (url : option string) :
  supported p = true -> (100 < closeLatency p)%nat ->
  wrapResult p 0 = WrapOk ->
  run (exec p) 4 (createAudioContext p (hook (state ready)) url ready)
  = mkLoop (closeLatency p) 3 [] []
      (mkWorld [mkContext closed true true false false;
                mkContext (newState p) false true true true]
               (mkHook None (Some 1%nat) (Some 1%nat))
               (Some ContextFacts.songElement) None []
               [CloseCompleted 0; Returned true; WrapTried 1 true;
                Constructed 1 [0%nat]; CloseCalled 0]).
Proof.
  intros Hsup Hslow Hwrap.
  split_run (exec p) 1%nat 3%nat.
  rewrite (slow_close_first_turn p url Hsup Hslow Hwrap). unfold newState.
  assert (Hmax : Nat.max 100 (closeLatency p) = closeLatency p) by lia.
  destruct (initialState p) eqn:Hinit.
  - split_run (exec p) 1%nat 2%nat.
    LoopFacts.turn_micro (exec p). cbn -[Nat.max run].
    split_run (exec p) 1%nat 1%nat.
    LoopFacts.turn_timer (exec p). cbn -[Nat.max run].
    LoopFacts.turn_micro (exec p). cbn -[Nat.max].
    unfold withState. cbn -[Nat.max]. rewrite Hmax. reflexivity.
  - split_run (exec p) 1%nat 2%nat.
    LoopFacts.turn_timer (exec p). cbn -[Nat.max run].
    split_run (exec p) 1%nat 1%nat.
    LoopFacts.turn_micro (exec p). cbn -[Nat.max run].
    rewrite LoopFacts.run_idle by (split; reflexivity).
    unfold withState. cbn -[Nat.max]. rewrite Hmax. reflexivity.
  - split_run (exec p) 1%nat 2%nat.
    LoopFacts.turn_timer (exec p). cbn -[Nat.max run].
    split_run (exec p) 1%nat 1%nat.
    LoopFacts.turn_micro (exec p). cbn -[Nat.max run].
    rewrite LoopFacts.run_idle by (split; reflexivity).
    unfold withState. cbn -[Nat.max]. rewrite Hmax. reflexivity.
Qed.

(** [createAudioContext] on the live graph when the close takes longer than
    the fixed 100 ms and the wrap succeeds: the new graph is published at
    100 ms, and when the close of the old context completes, the reaction
    left behind by the reset, [.then(() => setAudioContext(null))], clears
    the stored context.  The hook ends with [audioContext] null beside the
    analyser and source of the new context, which is open; a reset from that
    state clears the cells and never calls [close()] on it. *)
Theorem slow_close_unpublishes_new_context :
  forall (p : Platform) (url : option string),
    supported p = true ->
    (100 < closeLatency p)%nat ->
    wrapResult p 0 = WrapOk ->
    initialState p <> closed ->
    let final := run (exec p) 4
                     (createAudioContext p (hook (state ready)) url ready) in
    idle final
    /\ hook (state final) = mkHook None (Some 1%nat) (Some 1%nat)
    /\ openContexts (state final) = [1%nat]
    /\ (exists earlier, log (state final) = CloseCompleted 0 :: Returned true :: earlier)
    /\ let after := safeResetAudioContext p (hook (state final)) final in
       idle after
       /\ hook (state after) = mkHook None None None
       /\ openContexts (state after) = [1%nat]
       /\ closeCalls 1 (state after) = 0%nat.
Proof.
  intros p url Hsup Hslow Hwrap Hopen final. subst final.
  rewrite (slow_close_settled p url Hsup Hslow Hwrap).
  assert (Hnew : forall c w s a,
             isOpen (mkContext (newState p) c w s a) = true).
  { intros c w s a. unfold newState, isOpen. cbn.
    destruct (initialState p); [destruct (resumeSucceeds p)| |congruence];
      reflexivity. }
  unfold safeResetAudioContext, openContexts. cbn -[isOpen].
  rewrite !Hnew. cbn. repeat split; eauto.
Qed.

Lemma conflict_slow_close_first_turn (p : Platform) (url : option string)
    (message : string) :
  supported p = true -> (100 < closeLatency p)%nat ->
  wrapResult p 0 = WrapThrows message ->
  includes message "already connected" = true ->
  run (exec p) 1 (createAudioContext p (hook (state ready)) url ready)
  = mkLoop 100 3 [AfterClose (hook (state ready))]
      [mkTimer 1 (closeLatency p) (CloseDone 0)]
      (mkWorld [mkContext running true true false false;
                mkContext (initialState p) false false false false]
               (mkHook (Some 0%nat) None None)
               (Some ContextFacts.songElement) None
               [(0%nat, ResetThen)]
               [CloseRejected 0; CloseCalled 0;
                WrapTried 1 false; Constructed 1 [0%nat]; CloseCalled 0]).
Proof.
  intros Hsup Hslow Hwrap Hinc.
  rewrite ContextFacts.createAudioContext_ready.
  pick_timer p.
  unfold createNewContext. rewrite Hsup.
  cbn -[Nat.max includes]. unfold tryWrap, wrapAttempts.
  cbn -[Nat.max includes]. rewrite Hwrap. cbn -[Nat.max includes].
  rewrite Hinc. reflexivity.
Qed.

Lemma alter_last {A : Type} (f : A -> A) (l : list A) (x : A) :
  alter f (length l) (l ++ [x]) = l ++ [f x].
Proof.
  induction l as [|y l IH]; [reflexivity|].
  cbn [length app]. change (alter f (S (length l)) (y :: l ++ [x]))
    with (y :: alter f (length l) (l ++ [x])). rewrite IH. reflexivity.
Qed.

(** A retry whose wrap succeeds, on any machine. *)
Lemma retryWrap_ok (p : Platform) (m : Machine) :
  wrapResult p (wrapAttempts (state m)) = WrapOk ->
  retryWrap p m
  = mkLoop (clock m) (nextId m) (microtasks m) (timers m)
      (mkWorld (contexts (state m)
                ++ [mkContext (initialState p) false true true true])
               (mkHook (Some (length (contexts (state m))))
                       (Some (length (contexts (state m))))
                       (Some (length (contexts (state m)))))
               (option_map (fun a => mkAudio (src a) true (loads a))
                           (audio (state m)))
               (animationFrameRef (state m)) (waiters (state m))
               (Returned true
                :: WrapTried (length (contexts (state m))) true
                :: Constructed (length (contexts (state m)))
                               (openContexts (state m))
                :: log (state m))).
Proof.
  intros Hwrap. unfold wrapAttempts in Hwrap.
  unfold retryWrap, construct, tryWrap, wrapAttempts. cbn.
  rewrite Hwrap. unfold finish, withState, connectAndPublish, updateContext.
  cbn. rewrite !alter_last. reflexivity.
Qed.

Lemma conflict_slow_close_second_turn (p : Platform) :
  wrapResult p 1 = WrapOk ->
  initialState p <> closed ->
  run (exec p) 1
    (mkLoop 100 3 [AfterClose (hook (state ready))]
      [mkTimer 1 (closeLatency p) (CloseDone 0)]
      (mkWorld [mkContext running true true false false;
                mkContext (initialState p) false false false false]
               (mkHook (Some 0%nat) None None)
               (Some ContextFacts.songElement) None
               [(0%nat, ResetThen)]
               [CloseRejected 0; CloseCalled 0;
                WrapTried 1 false; Constructed 1 [0%nat]; CloseCalled 0]))
  = mkLoop 100 3 []
      [mkTimer 1 (closeLatency p) (CloseDone 0)]
      (mkWorld [mkContext running true true false false;
                mkContext (initialState p) false false false false;
                mkContext (initialState p) false true true true]
               (mkHook (Some 2%nat) (Some 2%nat) (Some 2%nat))
               (Some (mkAudio "/api/audio?path=song.mp3" true 1)) None
               [(0%nat, ResetThen)]
               [Returned true; WrapTried 2 true;
                Constructed 2 [0%nat; 1%nat]; CloseRejected 0; CloseCalled 0;
                WrapTried 1 false; Constructed 1 [0%nat]; CloseCalled 0]).
Proof.
  intros Hretry Hopen.
  LoopFacts.turn_micro (exec p). cbn [exec].
  rewrite retryWrap_ok by exact Hretry.
  unfold openContexts, isOpen. cbn.
  destruct (initialState p); [reflexivity|reflexivity|congruence].
Qed.

Lemma conflict_slow_close_settled (p : Platform) (url : option string)
    (message : string) :
  supported p = true -> (100 < closeLatency p)%nat ->
  wrapResult p 0 = WrapThrows message ->
  includes message "already connected" = true ->
  wrapResult p 1 = WrapOk ->
  initialState p <> closed ->
  run (exec p) 4 (createAudioContext p (hook (state ready)) url ready)
  = mkLoop (closeLatency p) 3 [] []
      (mkWorld [mkContext closed true true false false;
                mkContext (initialState p) false false false false;
                mkContext (initialState p) false true true true]
               (mkHook None (Some 2%nat) (Some 2%nat))
               (Some (mkAudio "/api/audio?path=song.mp3" true 1)) None []
               [CloseCompleted 0; Returned true; WrapTried 2 true;
                Constructed 2 [0%nat; 1%nat]; CloseRejected 0; CloseCalled 0;
                WrapTried 1 false; Constructed 1 [0%nat]; CloseCalled 0]).
Proof.
  intros Hsup Hslow Hwrap Hinc Hretry Hopen.
  assert (Hmax : Nat.max 100 (closeLatency p) = closeLatency p) by lia.
  split_run (exec p) 1%nat 3%nat.
  rewrite (conflict_slow_close_first_turn p url message Hsup Hslow Hwrap Hinc).
  split_run (exec p) 1%nat 2%nat.
  rewrite (conflict_slow_close_second_turn p Hretry Hopen).
  split_run (exec p) 1%nat 1%nat.
  LoopFacts.turn_timer (exec p). cbn -[Nat.max run].
  LoopFacts.turn_micro (exec p). cbn -[Nat.max].
  unfold withState. cbn -[Nat.max]. rewrite Hmax. reflexivity.
Qed.

(** On the realistic path, where the element is still wrapped by the old
    graph: the first wrap hits the conflict and the retry succeeds.  The
    awaited close returns at once, because the second [close()] on the
    closing context is rejected, so the retry context is constructed while
    context 0 is still open; the late reaction of the reset then clears the
    stored context.  The retry has paused the element (it was playing) and
    nothing resumes it. *)
Theorem conflict_during_slow_close :
  forall (p : Platform) (url : option string) (message : string),
    supported p = true ->
    (100 < closeLatency p)%nat ->
    wrapResult p 0 = WrapThrows message ->
    includes message "already connected" = true ->
    wrapResult p 1 = WrapOk ->
    initialState p <> closed ->
    let final := run (exec p) 4
                     (createAudioContext p (hook (state ready)) url ready) in
    idle final
    /\ hook (state final) = mkHook None (Some 2%nat) (Some 2%nat)
    /\ openContexts (state final) = [1%nat; 2%nat]
    /\ closeCalls 0 (state final) = 2%nat
    /\ In (CloseRejected 0) (log (state final))
    /\ In (Constructed 2 [0%nat; 1%nat]) (log (state final))
    /\ option_map paused (audio (state final)) = Some true.
Proof.
  intros p url message Hsup Hslow Hwrap Hinc Hretry Hopen final. subst final.
  rewrite (conflict_slow_close_settled p url message Hsup Hslow Hwrap Hinc
             Hretry Hopen).
  unfold openContexts, isOpen, closeCalls. cbn.
  destruct (initialState p); [|
    |congruence]; repeat split; auto 10.
Qed.

Lemma conflict_during_slow_close_witness :
  let p := ContextFacts.conflictOnce 250 in
  let final := run (exec p) 4
                   (createAudioContext p (hook (state ready)) None ready) in
  idle final
  /\ hook (state final) = mkHook None (Some 2%nat) (Some 2%nat)
  /\ openContexts (state final) = [1%nat; 2%nat]
  /\ closeCalls 0 (state final) = 2%nat
  /\ In (CloseRejected 0) (log (state final))
  /\ In (Constructed 2 [0%nat; 1%nat]) (log (state final))
  /\ option_map paused (audio (state final)) = Some true.
Proof.
  apply (conflict_during_slow_close (ContextFacts.conflictOnce 250) None
           "Failed to execute 'createMediaElementSource' on 'AudioContext': HTMLMediaElement already connected previously to a different MediaElementSourceNode.");
    [reflexivity|cbn; lia|reflexivity|vm_compute; reflexivity|reflexivity
    |discriminate].
Defined.

Lemma slow_close_unpublishes_new_context_witness :
  let p := ContextFacts.smooth 250 in
  let final := run (exec p) 4
                   (createAudioContext p (hook (state ready)) None ready) in
  idle final
  /\ hook (state final) = mkHook None (Some 1%nat) (Some 1%nat)
  /\ openContexts (state final) = [1%nat]
  /\ (exists earlier, log (state final) = CloseCompleted 0 :: Returned true :: earlier)
  /\ let after := safeResetAudioContext p (hook (state final)) final in
     idle after
     /\ hook (state after) = mkHook None None None
     /\ openContexts (state after) = [1%nat]
     /\ closeCalls 1 (state after) = 0%nat.
Proof.
  apply (slow_close_unpublishes_new_context (ContextFacts.smooth 250) None);
    [reflexivity|cbn; lia|reflexivity|discriminate].
Defined.

(** With a close that completes strictly before the 100 ms timer fires. *)
Lemma fast_close_two_turns (p : Platform) (url : option string) :
  (closeLatency p < 100)%nat ->
  run (exec p) 2 (createAudioContext p (hook (state ready)) url ready)
  = mkLoop (closeLatency p) 3 []
      [mkTimer 2 100 (CreateTimer (hook (state ready)) url)]
      (mkWorld [mkContext closed true true false false]
               (mkHook None None None)
               (Some ContextFacts.songElement) None []
               [CloseCompleted 0; CloseCalled 0]).
Proof.
  intros Hfast.
  rewrite ContextFacts.createAudioContext_ready.
  split_run (exec p) 1%nat 1%nat.
  assert (H1 : run (exec p) 1
    (mkLoop 0 3 [] [mkTimer 1 (closeLatency p) (CloseDone 0);
                   mkTimer 2 100 (CreateTimer (hook (state ready)) url)]
      (mkWorld [mkContext running true true false false]
               (mkHook (Some 0%nat) None None) (Some ContextFacts.songElement) None
               [(0%nat, ResetThen)] [CloseCalled 0]))
    = mkLoop (closeLatency p) 3 [ResetThen]
        [mkTimer 2 100 (CreateTimer (hook (state ready)) url)]
        (mkWorld [mkContext closed true true false false]
               (mkHook (Some 0%nat) None None) (Some ContextFacts.songElement) None
               [] [CloseCompleted 0; CloseCalled 0])).
  { unfold run, step.
    cbn [microtasks timers clock nextId state app earliest t_due t_id t_callback].
    replace (Nat.leb (closeLatency p) 100) with true
      by (symmetry; apply Nat.leb_le; lia).
    cbn. reflexivity. }
  rewrite H1.
  LoopFacts.turn_micro (exec p). reflexivity.
Qed.

Lemma conflict_fast_close_settled (p : Platform) (url : option string)
    (message : string) :
  supported p = true -> (closeLatency p < 100)%nat ->
  wrapResult p 0 = WrapThrows message ->
  includes message "already connected" = true ->
  wrapResult p 1 = WrapOk ->
  initialState p <> closed ->
  run (exec p) 4 (createAudioContext p (hook (state ready)) url ready)
  = mkLoop 100 3 [] []
      (mkWorld [mkContext closed true true false false;
                mkContext (initialState p) false false false false;
                mkContext (initialState p) false true true true]
               (mkHook (Some 2%nat) (Some 2%nat) (Some 2%nat))
               (Some (mkAudio "/api/audio?path=song.mp3" true 1)) None []
               [Returned true; WrapTried 2 true; Constructed 2 [1%nat];
                WrapTried 1 false; Constructed 1 [];
                CloseCompleted 0; CloseCalled 0]).
Proof.
  intros Hsup Hfast Hwrap Hinc Hretry Hopen.
  assert (Hmax : Nat.max (closeLatency p) 100 = 100%nat) by lia.
  split_run (exec p) 2%nat 2%nat.
  rewrite (fast_close_two_turns p url Hfast).
  split_run (exec p) 1%nat 1%nat.
  LoopFacts.turn_timer (exec p). cbn [exec].
  unfold createNewContext. rewrite Hsup.
  cbn -[Nat.max includes run]. unfold tryWrap, wrapAttempts.
  cbn -[Nat.max includes run]. rewrite Hwrap. cbn -[Nat.max includes run].
  rewrite Hinc. cbn -[Nat.max includes run].
  LoopFacts.turn_micro (exec p). cbn [exec].
  rewrite retryWrap_ok by exact Hretry.
  unfold openContexts, isOpen. cbn -[Nat.max]. rewrite Hmax.
  destruct (initialState p); [reflexivity|reflexivity|congruence].
Qed.

(** The same conflict when the close takes less than 100 ms, so that it
    completes before the timer fires: the retry runs after the old context
    has closed, and the hook ends up with a working graph on the retry
    context.  The context built for the first attempt is
    left open beside it on every such platform, and the element, which was
    playing, is left paused by the retry. *)
Theorem conflict_after_fast_close :
  forall (p : Platform) (url : option string) (message : string),
    supported p = true ->
    (closeLatency p < 100)%nat ->
    wrapResult p 0 = WrapThrows message ->
    includes message "already connected" = true ->
    wrapResult p 1 = WrapOk ->
    initialState p <> closed ->
    let final := run (exec p) 4
                     (createAudioContext p (hook (state ready)) url ready) in
    idle final
    /\ hook (state final) = mkHook (Some 2%nat) (Some 2%nat) (Some 2%nat)
    /\ openContexts (state final) = [1%nat; 2%nat]
    /\ closeCalls 0 (state final) = 1%nat
    /\ closeCalls 1 (state final) = 0%nat
    /\ option_map paused (audio (state final)) = Some true
    /\ ContextFacts.closedBeforeConstruct 0 (state final).
Proof.
  intros p url message Hsup Hfast Hwrap Hinc Hretry Hopen final. subst final.
  rewrite (conflict_fast_close_settled p url message Hsup Hfast Hwrap Hinc
             Hretry Hopen).
  unfold openContexts, isOpen, closeCalls, ContextFacts.closedBeforeConstruct. cbn.
  assert (Hlog : forall st c openThen,
            In (Constructed c openThen)
               [Returned true; WrapTried 2 true; Constructed 2 [1%nat];
                WrapTried 1 false; Constructed 1 [];
                CloseCompleted 0; CloseCalled st] ->
            ~ In 0%nat openThen).
  { intros st c openThen [H|[H|[H|[H|[H|[H|[H|[]]]]]]]]; try discriminate;
      injection H as _ <-; cbn; lia. }
  destruct (initialState p); [| |congruence];
    (split; [split; reflexivity|]); do 5 (split; [reflexivity|]);
    intros c openThen; apply Hlog.
Qed.

Lemma conflict_after_fast_close_witness :
  let p := ContextFacts.conflictOnce 50 in
  let final := run (exec p) 4
                   (createAudioContext p (hook (state ready)) None ready) in
  idle final
  /\ hook (state final) = mkHook (Some 2%nat) (Some 2%nat) (Some 2%nat)
  /\ openContexts (state final) = [1%nat; 2%nat]
  /\ closeCalls 0 (state final) = 1%nat
  /\ closeCalls 1 (state final) = 0%nat
  /\ option_map paused (audio (state final)) = Some true
  /\ ContextFacts.closedBeforeConstruct 0 (state final).
Proof.
  apply (conflict_after_fast_close (ContextFacts.conflictOnce 50) None
           "Failed to execute 'createMediaElementSource' on 'AudioContext': HTMLMediaElement already connected previously to a different MediaElementSourceNode.");
    [reflexivity|cbn; lia|reflexivity|vm_compute; reflexivity|reflexivity
    |discriminate].
Defined.

(** *** A wrap that fails for another reason *)

Lemma openFrom_app (i : nat) (ctxs : list AudioContextObj) (ctx : AudioContextObj) :
  openFrom i (ctxs ++ [ctx])
  = openFrom i ctxs ++ (if isOpen ctx then [(i + length ctxs)%nat] else []).
Proof.
  revert i. induction ctxs as [|first rest IH]; intros i; cbn [app openFrom length].
  - replace (i + 0)%nat with i by lia. destruct (isOpen ctx); reflexivity.
  - rewrite IH. replace (S i + length rest)%nat with (i + S (length rest))%nat by lia.
    destruct (isOpen first); reflexivity.
Qed.

(** When [createMediaElementSource] throws anything but "already
    connected", [createNewContext] returns false with the hook untouched,
    and the context it has just constructed stays open: it joins the open
    contexts, and nothing is scheduled that would ever close it. *)
Theorem failed_wrap_leaves_context_open :
  forall (p : Platform) (cl : Hook) (url : option string) (m : Machine)
         (a : AudioElement) (message : string),
    idle m ->
    supported p = true ->
    audio (state m) = Some a -> hasSource a = true ->
    wrapResult p (wrapAttempts (state m)) = WrapThrows message ->
    includes message "already connected" = false ->
    initialState p <> closed ->
    let m' := createNewContext p cl url m in
    (exists earlier, log (state m') = Returned false :: earlier)
    /\ hook (state m') = hook (state m)
    /\ openContexts (state m')
       = openContexts (state m) ++ [length (contexts (state m))]
    /\ forall fuel, run (exec p) fuel m' = m'.
Proof.
  intros p cl url m a message [Hm Ht] Hsup Haudio Hsrc Hwrap Hinc Hopen m'.
  assert (Hm' : m' = mkLoop (clock m) (nextId m) (microtasks m) (timers m)
            (mkWorld (contexts (state m)
                      ++ [mkContext (initialState p) false false false false])
                     (hook (state m)) (audio (state m))
                     (animationFrameRef (state m)) (waiters (state m))
                     (Returned false
                      :: WrapTried (length (contexts (state m))) false
                      :: Constructed (length (contexts (state m)))
                                     (openContexts (state m))
                      :: log (state m)))).
  { subst m'. unfold wrapAttempts in Hwrap.
    unfold createNewContext. rewrite Hsup, Haudio, Hsrc.
    unfold construct, tryWrap, wrapAttempts. cbn -[includes].
    rewrite Hwrap. cbn -[includes]. rewrite Hinc.
    unfold finish, withState, record, setContexts. cbn. rewrite Haudio.
    reflexivity. }
  rewrite Hm'. cbn [state log hook].
  split; [eauto|]. split; [reflexivity|]. split.
  - unfold openContexts. cbn [contexts]. rewrite openFrom_app.
    unfold isOpen. cbn. destruct (initialState p); [reflexivity|reflexivity|congruence].
  - intros fuel. apply LoopFacts.run_idle. split; assumption.
Qed.

(** A platform on which wrapping the element fails for a reason other than
    the element being connected already. *)
Definition refusing : Platform :=
  mkPlatform true 50 (fun _ => WrapThrows "The operation is insecure.")
             suspended true.

(** No graph yet; the element has its source. *)
Definition fresh : Machine :=
  mkLoop 0 1 [] []
    (mkWorld [] (mkHook None None None) (Some ContextFacts.songElement) None [] []).

Lemma failed_wrap_leaves_context_open_witness :
  let m' := createNewContext refusing (hook (state fresh)) None fresh in
  (exists earlier, log (state m') = Returned false :: earlier)
  /\ hook (state m') = hook (state fresh)
  /\ openContexts (state m')
     = openContexts (state fresh) ++ [length (contexts (state fresh))]
  /\ forall fuel, run (exec refusing) fuel m' = m'.
Proof.
  apply (failed_wrap_leaves_context_open refusing (hook (state fresh)) None fresh
           ContextFacts.songElement "The operation is insecure.");
    [split; reflexivity|reflexivity|reflexivity|reflexivity|reflexivity
    |vm_compute; reflexivity|discriminate].
Defined.

End GraphFacts.

(** ** The audio graph: how many wrap attempts a call can cause *)
Module BudgetFacts.
Import EventLoop UseAudioContext.
Local Open Scope nat_scope.

(** The wrap attempts a pending callback can still make. *)
Definition weight (k : Callback) : nat :=
  match k with
  | CreateTimer _ _ => 2
  | AfterClose _ => 1
  | _ => 0
  end.

Definition total (ks : list Callback) : nat := list_sum (map weight ks).
Arguments total : simpl never.

(** What the callbacks that are queued, scheduled or waiting for a close can
    still spend. *)
Definition pendingWeight (m : Machine) : nat :=
  total (microtasks m) + total (map t_callback (timers m))
  + total (map snd (waiters (state m))).

(** From [m] to [m'] at most [d] more wrap attempts were made or became
    possible, and likewise for constructed contexts. *)
Definition Cost (d : nat) (m m' : Machine) : Prop :=
  wrapAttempts (state m') + pendingWeight m'
    <= wrapAttempts (state m) + pendingWeight m + d
  /\ length (contexts (state m')) + pendingWeight m'
    <= length (contexts (state m)) + pendingWeight m + d.

Lemma total_nil : total [] = 0.
Proof. reflexivity. Qed.

Lemma total_cons (k : Callback) (ks : list Callback) :
  total (k :: ks) = weight k + total ks.
Proof. reflexivity. Qed.

Lemma total_app (ks ks' : list Callback) : total (ks ++ ks') = total ks + total ks'.
Proof. unfold total. rewrite map_app, list_sum_app. reflexivity. Qed.

Lemma total_filter {A : Type} (g : A -> Callback) (f : A -> bool) (l : list A) :
  total (map g (List.filter f l)) <= total (map g l).
Proof.
  induction l as [|x l IH]; [reflexivity|]. cbn [List.filter map].
  destruct (f x); cbn [map]; rewrite ?total_cons; lia.
Qed.

Lemma total_partition {A : Type} (g : A -> Callback) (f : A -> bool) (l : list A) :
  total (map g (List.filter f l))
  + total (map g (List.filter (fun x => negb (f x)) l))
  = total (map g l).
Proof.
  induction l as [|x l IH]; [reflexivity|]. cbn [List.filter map].
  destruct (f x); cbn [negb map]; rewrite ?total_cons; lia.
Qed.

Lemma Cost_refl (m : Machine) : Cost 0 m m.
Proof. split; lia. Qed.

Lemma Cost_trans (a b : nat) (m1 m2 m3 : Machine) :
  Cost a m1 m2 -> Cost b m2 m3 -> Cost (a + b) m1 m3.
Proof. intros [H1 H2] [H3 H4]. split; lia. Qed.

Lemma Cost_le (a b : nat) (m m' : Machine) :
  Cost a m m' -> a <= b -> Cost b m m'.
Proof. intros [H1 H2] Hle. split; lia. Qed.

(** Unfold the operations of the model down to the fields of the machine
    and compare the potentials. *)
Ltac crunch :=
  unfold Cost, pendingWeight, wrapAttempts in *;
  cbn;
  repeat (progress (rewrite ?length_alter, ?length_app, ?map_app, ?total_app,
                            ?total_cons, ?total_nil; cbn));
  try lia.

Lemma closeCall_cost (p : Platform) (c : nat) (ctx : AudioContextObj)
    (m : Machine) :
  Cost 0 m (fst (closeCall p c ctx m)).
Proof.
  unfold closeCall. destruct (closing ctx || negb (isOpen ctx)); crunch.
Qed.

Lemma safelyClose_cost (p : Platform) (context : option nat) (m : Machine) :
  Cost 0 m (fst (safelyCloseAudioContext p context m)).
Proof.
  unfold safelyCloseAudioContext.
  destruct context as [c|]; [|apply Cost_refl].
  destruct (contexts (state m) !! c) as [ctx|]; [|apply Cost_refl].
  destruct (ctxState ctx); try apply Cost_refl; apply closeCall_cost.
Qed.

Lemma thenRun_cost (promise : ClosePromise) (k : Callback) (m : Machine) :
  Cost (weight k) m (thenRun promise k m).
Proof. destruct promise; unfold thenRun; crunch. Qed.

Lemma cancelFrame_cost (m : Machine) : Cost 0 m (cancelFrame m).
Proof.
  unfold cancelFrame. destruct (animationFrameRef (state m)) as [frame|];
    [|apply Cost_refl].
  destruct (Nat.eqb frame 0); [apply Cost_refl|].
  pose proof (total_filter t_callback
                (fun t => negb (Nat.eqb (t_id t) frame)) (timers m)).
  crunch.
Qed.

Lemma disconnect_cost (cl : Hook) (m : Machine) :
  Cost 0 m (withState (fun w => disconnectAnalyser cl (disconnectSource cl w)) m).
Proof.
  destruct cl as [c [a|] [s|]]; crunch.
Qed.

Lemma safeReset_cost (p : Platform) (cl : Hook) (m : Machine) :
  Cost 0 m (safeResetAudioContext p cl m).
Proof.
  unfold safeResetAudioContext.
  eapply Cost_le; [eapply Cost_trans; [eapply Cost_trans|];
                   [apply (disconnect_cost cl m)| |apply cancelFrame_cost]|].
  - destruct (audioContext cl) as [c|]; [|apply Cost_refl].
    pose proof (safelyClose_cost p (Some c)
                  (withState (fun w => disconnectAnalyser cl (disconnectSource cl w)) m))
      as H.
    destruct (safelyCloseAudioContext p (Some c) _) as [m' promise].
    cbn [fst] in H.
    eapply Cost_le; [eapply Cost_trans; [exact H|apply thenRun_cost]|].
    cbn. reflexivity.
  - cbn. lia.
Qed.

Lemma retryWrap_cost (p : Platform) (m : Machine) : Cost 1 m (retryWrap p m).
Proof.
  unfold retryWrap, construct, tryWrap.
  destruct (wrapResult p _); crunch.
Qed.

Lemma createNewContext_cost (p : Platform) (cl : Hook) (url : option string)
    (m : Machine) :
  Cost 2 m (createNewContext p cl url m).
Proof.
  unfold createNewContext.
  destruct (supported p); cbn [negb]; [|crunch].
  destruct (audio (state m)) as [a|]; [|crunch].
  assert (Hbody : forall m1 : Machine, Cost 0 m m1 ->
    Cost 2 m
         (let (m2, c) := construct p m1 in
          let (m3, result) := tryWrap p c m2 in
          match result with
          | WrapOk =>
            let m4 := withState (connectAndPublish c) m3 in
            match initialState p with
            | suspended => enqueue AfterResume (withState (resume p c) m4)
            | _ => finish true m4
            end
          | WrapThrows message =>
            if includes message "already connected" then
              match audioContext cl with
              | Some old =>
                let (m4, promise) := safelyCloseAudioContext p (Some old) m3 in
                thenRun promise (AfterClose cl) m4
              | None => retryWrap p m3
              end
            else finish false m3
          end)).
  { intros m1 H1. unfold construct, tryWrap.
    destruct (wrapResult p _) as [|message].
    - cbv zeta. unfold resume.
      destruct (initialState p); [destruct (resumeSucceeds p)| |]; crunch.
    - destruct (includes message "already connected"); [|crunch].
      destruct (audioContext cl) as [old|].
      + match goal with
        | |- context [safelyCloseAudioContext p (Some old) ?m3] =>
          pose proof (safelyClose_cost p (Some old) m3) as H;
          destruct (safelyCloseAudioContext p (Some old) m3) as [m4 promise];
          pose proof (thenRun_cost promise (AfterClose cl) m4) as H';
          assert (H3 : Cost 1 m m3) by crunch
        end.
        cbn [fst] in H.
        eapply Cost_le; [eapply Cost_trans; [eapply Cost_trans|];
                         [exact H3|exact H|exact H']|].
        cbn. lia.
      + match goal with
        | |- context [retryWrap p ?m3] =>
          pose proof (retryWrap_cost p m3) as H;
          assert (H3 : Cost 1 m m3) by crunch
        end.
        eapply Cost_le; [eapply Cost_trans; [exact H3|exact H]|]. lia. }
  destruct (hasSource a); [apply Hbody; apply Cost_refl|].
  destruct url as [u|]; [|crunch].
  destruct (String.eqb u EmptyString); [crunch|].
  apply Hbody. crunch.
Qed.

Lemma createAudioContext_cost (p : Platform) (cl : Hook) (url : option string)
    (m : Machine) :
  Cost 2 m (createAudioContext p cl url m).
Proof.
  unfold createAudioContext.
  destruct (isSome (audioContext cl) || isSome (audioSource cl)
            || isSome (analyser cl)); [|apply createNewContext_cost].
  pose proof (safeReset_cost p cl m) as H.
  revert H. generalize (safeResetAudioContext p cl m). intros m1 H. crunch.
Qed.

Lemma enqueue_all_weight (ready : list (nat * Callback)) (m : Machine) :
  pendingWeight (fold_left (fun acc wk => enqueue (snd wk) acc) ready m)
  = pendingWeight m + total (map snd ready).
Proof.
  revert m. induction ready as [|wk rest IH]; intros m.
  - cbn. rewrite total_nil. lia.
  - cbn [fold_left map]. rewrite IH, total_cons.
    unfold pendingWeight, enqueue. cbn. rewrite total_app, total_cons, total_nil.
    lia.
Qed.

Lemma onCloseDone_cost (c : nat) (m : Machine) : Cost 0 m (onCloseDone c m).
Proof.
  unfold onCloseDone, Cost.
  rewrite ContextFacts.state_enqueue_all, enqueue_all_weight.
  pose proof (total_partition snd (fun wk : nat * Callback => Nat.eqb (fst wk) c)
                              (waiters (state m))) as Hsplit.
  crunch.
Qed.

Lemma exec_cost (p : Platform) (k : Callback) (m : Machine) :
  Cost (weight k) m (exec p k m).
Proof.
  destruct k as [c| |cl url|cl|]; cbn [exec weight].
  - apply onCloseDone_cost.
  - crunch.
  - apply createNewContext_cost.
  - eapply Cost_le; [eapply Cost_trans; [|apply retryWrap_cost]|].
    + instantiate (1 := 0). crunch.
    + lia.
  - crunch.
Qed.

Lemma earliest_In {K : Type} (ts : list (Timer K)) (t : Timer K) :
  earliest ts = Some t -> In t ts.
Proof.
  revert t. induction ts as [|u rest IH]; intros t; cbn; [discriminate|].
  destruct (earliest rest) as [v|].
  - destruct (Nat.leb (t_due u) (t_due v)); intros [= <-]; auto.
  - intros [= <-]. auto.
Qed.

Lemma total_without (t : Timer Callback) (ts : list (Timer Callback)) :
  In t ts ->
  total (map t_callback
             (List.filter (fun u => negb (Nat.eqb (t_id u) (t_id t))) ts))
  + weight (t_callback t)
  <= total (map t_callback ts).
Proof.
  induction ts as [|u rest IH]; intros Hin; [destruct Hin|].
  cbn [List.filter map]. destruct Hin as [->|Hin].
  - rewrite Nat.eqb_refl. cbn [negb]. rewrite total_cons.
    pose proof (total_filter t_callback
                  (fun u => negb (Nat.eqb (t_id u) (t_id t))) rest). lia.
  - specialize (IH Hin).
    destruct (negb (Nat.eqb (t_id u) (t_id t))); cbn [map];
      rewrite ?total_cons; lia.
Qed.

Lemma step_cost (p : Platform) (m m' : Machine) :
  step (exec p) m = Some m' -> Cost 0 m m'.
Proof.
  unfold step. destruct (microtasks m) as [|k rest] eqn:Hm.
  - destruct (earliest (timers m)) as [t|] eqn:Ht; [|discriminate].
    intros [= <-]. apply earliest_In in Ht.
    pose proof (total_without t (timers m) Ht) as Hless.
    match goal with
    | |- Cost 0 m (exec p ?k ?m0) => pose proof (exec_cost p k m0) as H
    end.
    revert H. unfold Cost, pendingWeight, clearTimer. cbn. rewrite Hm, total_nil.
    lia.
  - intros [= <-].
    match goal with
    | |- Cost 0 m (exec p ?k ?m0) => pose proof (exec_cost p k m0) as H
    end.
    revert H. unfold Cost, pendingWeight. cbn. rewrite Hm, total_cons. lia.
Qed.

Lemma run_cost (p : Platform) (fuel : nat) (m : Machine) :
  Cost 0 m (run (exec p) fuel m).
Proof.
  revert m. induction fuel as [|fuel IH]; intros m; [apply Cost_refl|].
  cbn [run]. destruct (step (exec p) m) as [m'|] eqn:Hstep; [|apply Cost_refl].
  apply (Cost_trans 0 0 m m'); [apply (step_cost p); exact Hstep|apply IH].
Qed.

(** A call of [createAudioContext] on a machine with nothing pending leads
    to at most two wrap attempts and at most two new contexts, whatever the
    platform answers and however long the event loop runs afterwards: the
    retry after an "already connected" failure is never retried itself. *)
Theorem create_wraps_at_most_twice :
  forall (p : Platform) (cl : Hook) (url : option string) (m : Machine)
         (fuel : nat),
    idle m -> waiters (state m) = [] ->
    let m' := run (exec p) fuel (createAudioContext p cl url m) in
    wrapAttempts (state m') <= wrapAttempts (state m) + 2
    /\ length (contexts (state m')) <= length (contexts (state m)) + 2.
Proof.
  intros p cl url m fuel [Hm Ht] Hw m'.
  pose proof (createAudioContext_cost p cl url m) as [H1 H2].
  pose proof (run_cost p fuel (createAudioContext p cl url m)) as [H3 H4].
  fold m' in H3, H4.
  assert (Hzero : pendingWeight m = 0).
  { unfold pendingWeight. rewrite Hm, Ht, Hw. reflexivity. }
  lia.
Qed.

Lemma create_wraps_at_most_twice_witness :
  let m' := run (exec (ContextFacts.conflictOnce 250)) 7
                (createAudioContext (ContextFacts.conflictOnce 250)
                                    (hook (state ready)) None ready) in
  wrapAttempts (state m') <= wrapAttempts (state ready) + 2
  /\ length (contexts (state m')) <= length (contexts (state ready)) + 2.
Proof.
  apply (create_wraps_at_most_twice (ContextFacts.conflictOnce 250)
           (hook (state ready)) None ready 7); [split|]; reflexivity.
Defined.

End BudgetFacts.

(** ** URLs handed to the audio element *)
Module UrlFacts.
Import TrackLoad.

Lemma slashes_forwardSlashes (u : string) : App.forwardSlashes u = slashes u.
Proof. induction u as [|c rest IH]; cbn; [reflexivity|]. rewrite IH. reflexivity. Qed.

Lemma api_path_kept (b : Browser) (rest : string) :
  sanitizeUrl b ("/api/audio?path=" ++ rest) = ("/api/audio?path=" ++ rest)%string.
Proof. reflexivity. Qed.

(** Sanitizing is idempotent, whatever [encodeURIComponent] does: a URL that
    went through [sanitizeUrl] once (the component sanitizes the same [url]
    in several places) comes back unchanged, so a path is never encoded
    twice.  [getProperAudioUrl] of the top-level component computes the same
    URL, and a non-empty URL never becomes empty. *)
Theorem sanitizeUrl_idempotent :
  forall (b : Browser) (url : string),
    sanitizeUrl b (sanitizeUrl b url) = sanitizeUrl b url
    /\ App.getProperAudioUrl (encodeURIComponent b) url = sanitizeUrl b url
    /\ (url <> EmptyString -> sanitizeUrl b url <> EmptyString).
Proof.
  intros b url. split; [|split].
  - unfold sanitizeUrl at 2 3.
    destruct (String.eqb url EmptyString) eqn:Hempty; [reflexivity|].
    destruct (String.prefix "http" url) eqn:Hhttp.
    { unfold sanitizeUrl. rewrite Hempty, Hhttp. reflexivity. }
    destruct (String.prefix "/api/" url) eqn:Hapi.
    { unfold sanitizeUrl. rewrite Hempty, Hhttp, Hapi. reflexivity. }
    apply api_path_kept.
  - unfold App.getProperAudioUrl, sanitizeUrl.
    rewrite slashes_forwardSlashes. reflexivity.
  - intros Hurl Hnone.
    assert (Hneq : String.eqb url EmptyString = false)
      by (apply String.eqb_neq; exact Hurl).
    pose proof (TrackLoadFacts.sanitizeUrl_nonempty b url Hneq) as H.
    rewrite Hnone in H. discriminate.
Qed.

(** [replace(/\\/g, '/')] replaces every backslash: the path handed to
    [encodeURIComponent] has the length of the original and no backslash
    left in it, and a path without backslashes is left alone. *)
Theorem slashes_replaces_every_backslash :
  forall (url : string),
    String.length (slashes url) = String.length url
    /\ (forall n, String.get n (slashes url) <> Some "\"%char)
    /\ ((forall n, String.get n url <> Some "\"%char) -> slashes url = url).
Proof.
  induction url as [|c rest (Hlen & Hnone & Hsame)]; cbn [slashes String.length].
  - split; [reflexivity|]. split; [intros n; cbn; discriminate|reflexivity].
  - split; [rewrite Hlen; reflexivity|]. split.
    + intros [|n]; cbn [String.get].
      * destruct (Ascii.eqb_spec c "\"%char) as [->|Hc]; [discriminate|].
        intros [= E]. contradiction.
      * apply Hnone.
    + intros Hfree.
      destruct (Ascii.eqb_spec c "\"%char) as [->|Hc].
      * exfalso. apply (Hfree 0%nat). reflexivity.
      * f_equal. apply Hsame. intros n. apply (Hfree (S n)).
Qed.

End UrlFacts.

(** ** A track ends: the player and the playlist together *)
Module FlowFacts.
Import EnhancedAudioPlayer.

(** Without repeat and without shuffle, wired as [App] wires the player:
    when a track ends the player stops at position 0 and asks for the next
    track; the playlist hands it the track that follows in list order, and at
    the last track nothing changes in the playlist, so playback stays
    stopped. *)
Theorem ended_walks_the_list_in_order :
  forall (rand : Q) (played : PlayPromise) (pl : Player) (app : App.State),
    repeatMode pl = 0 ->
    App.isShuffled app = false ->
    0 <= App.currentTrackIndex app < App.tracksLength app ->
    exists app',
      handleEnded (propsFromApp rand app) played pl app
      = Normal (stopAtStart pl, app')
      /\ (App.currentTrackIndex app < App.tracksLength app - 1 ->
          exists track,
            js_get (App.allTracks app) (App.currentTrackIndex app + 1) = Some track
            /\ App.currentTrack app' = Some (App.playingOf track)
            /\ App.allTracks app' = App.allTracks app)
      /\ (App.currentTrackIndex app = App.tracksLength app - 1 -> app' = app).
Proof.
  intros rand played pl app Hmode Hseq Hcur.
  assert (Hnext : App.hasNextProp app = true).
  { unfold App.hasNextProp. apply Z.gtb_lt. lia. }
  unfold propsFromApp. rewrite EndedFacts.handleEnded_branches, Hmode, Hnext.
  cbn [Z.eqb andb]. unfold callParent, App.pressNext, App.getNextTrackIndex.
  rewrite Hseq. cbn [negb].
  destruct (Z.ltb_spec (App.currentTrackIndex app) (App.tracksLength app - 1))
    as [Hmore|Hlast].
  - destruct (Z.eqb_spec (App.currentTrackIndex app + 1) (-1)); [lia|]. cbn [negb].
    destruct (PlaylistFacts.js_get_in_range (App.allTracks app)
                (App.currentTrackIndex app + 1)) as (track & Htrack & _);
      [unfold App.tracksLength in *; lia|].
    unfold App.handleNextTrack, App.getNextTrackIndex. rewrite Hseq. cbn [negb].
    destruct (Z.ltb_spec (App.currentTrackIndex app) (App.tracksLength app - 1));
      [|lia].
    destruct (Z.eqb_spec (App.currentTrackIndex app + 1) (-1)); [lia|]. cbn [negb].
    unfold App.playTrackAt. cbn [App.allTracks App.setCurrentTrackIndex].
    rewrite Htrack. cbn [bindC].
    eexists. split; [reflexivity|]. split; [|intros; lia].
    intros _. exists track. split; [first [exact Htrack|reflexivity]|].
    destruct (AppFacts.sync_fields
                (App.setCurrentTrack (Some (App.playingOf track))
                   (App.setCurrentTrackIndex (App.currentTrackIndex app + 1) app)))
      as (Htracks & _ & _ & _ & Hplaying).
    rewrite Hplaying, Htracks. split; reflexivity.
  - cbn [Z.eqb negb bindC]. exists app. split; [reflexivity|].
    split; [intros; lia|reflexivity].
Qed.

Definition album : list App.Track := PlaylistFacts.threeSongs.

Definition secondOfThree : App.State :=
  App.mkState (Some (App.playingOf (PlaylistFacts.song "b"))) album 1 false [] [] (-1).

Definition playingNoRepeat : Player :=
  mkPlayer true (200 # 1) 0 (Some (mkAudio (200 # 1) 1)).

Lemma ended_walks_the_list_in_order_witness :
  exists app',
    handleEnded (propsFromApp 0 secondOfThree) PlayFulfilled playingNoRepeat
                secondOfThree
    = Normal (stopAtStart playingNoRepeat, app')
    /\ (App.currentTrackIndex secondOfThree < App.tracksLength secondOfThree - 1 ->
        exists track,
          js_get (App.allTracks secondOfThree)
                 (App.currentTrackIndex secondOfThree + 1) = Some track
          /\ App.currentTrack app' = Some (App.playingOf track)
          /\ App.allTracks app' = App.allTracks secondOfThree)
    /\ (App.currentTrackIndex secondOfThree = App.tracksLength secondOfThree - 1 ->
        app' = secondOfThree).
Proof.
  apply (ended_walks_the_list_in_order 0 PlayFulfilled playingNoRepeat secondOfThree);
    [reflexivity|reflexivity|unfold App.tracksLength; cbn; lia].
Defined.

(** Repeat-one never involves the playlist: whatever props the player was
    given, the parent's state is untouched, the element is sent back to
    position 0 and [play()] is called on it exactly once more; the hook
    reports playing again only if that call's promise is fulfilled. *)
Theorem repeat_one_replays_without_parent :
  forall (Parent : Type) (props : Props Parent) (played : PlayPromise)
         (pl : Player) (parent : Parent) (a : Audio),
    repeatMode pl = 2 ->
    audio pl = Some a ->
    handleEnded props played pl parent
    = Normal (mkPlayer (match played with PlayFulfilled => true | _ => false end)
                       0 2 (Some (mkAudio 0 (S (a_playCalls a)))),
              parent).
Proof.
  intros Parent props played pl parent a Hmode Haudio.
  unfold handleEnded. rewrite Hmode. cbn [Z.eqb].
  unfold replay, stopAtStart. rewrite Haudio, Hmode. cbn. reflexivity.
Qed.

Lemma repeat_one_replays_without_parent_witness :
  handleEnded (propsFromApp 0 secondOfThree) PlayRejected
              (mkPlayer true (200 # 1) 2 (Some (mkAudio (200 # 1) 1)))
              secondOfThree
  = Normal (mkPlayer false 0 2 (Some (mkAudio 0 2)), secondOfThree).
Proof.
  apply (repeat_one_replays_without_parent App.State
           (propsFromApp 0 secondOfThree) PlayRejected
           (mkPlayer true (200 # 1) 2 (Some (mkAudio (200 # 1) 1)))
           secondOfThree (mkAudio (200 # 1) 1));
    reflexivity.
Defined.

End FlowFacts.

(** ** Controls of the player component: the repeat mode *)
Module ControlFacts.
Import EnhancedAudioPlayer.

(** *** The repeat button *)

Fixpoint presses (n : nat) (pl : Player) : Player :=
  match n with
  | O => pl
  | S n' => toggleRepeatMode (presses n' pl)
  end.

(** The repeat button cycles through the three modes the `ended` handler
    distinguishes: from "no repeat" (the initial mode) [n] presses lead to
    mode [n mod 3], so the mode is always 0, 1 or 2 and three presses give
    the mode back; nothing else in the player changes. *)
Theorem repeat_button_cycles :
  forall (n : nat) (pl : Player),
    repeatMode pl = 0 ->
    repeatMode (presses n pl) = Z.of_nat n mod 3
    /\ isPlaying (presses n pl) = isPlaying pl
    /\ currentTime (presses n pl) = currentTime pl
    /\ audio (presses n pl) = audio pl.
Proof.
  intros n pl Hstart. induction n as [|n (Hmode & Hplay & Htime & Haudio)].
  - cbn. rewrite Hstart. auto.
  - cbn [presses]. unfold toggleRepeatMode. cbn [repeatMode isPlaying currentTime audio].
    split; [|auto]. rewrite Hmode.
    pose proof (Z.mod_pos_bound (Z.of_nat n) 3 ltac:(lia)) as Hrange.
    rewrite Z.rem_mod_nonneg by lia.
    rewrite Nat2Z.inj_succ. unfold Z.succ.
    rewrite Z.add_mod_idemp_l by lia. reflexivity.
Qed.

Lemma repeat_button_cycles_witness :
  repeatMode (presses 4 (mkPlayer false 0 0 None)) = Z.of_nat 4 mod 3
  /\ isPlaying (presses 4 (mkPlayer false 0 0 None)) = false
  /\ currentTime (presses 4 (mkPlayer false 0 0 None)) = 0%Q
  /\ audio (presses 4 (mkPlayer false 0 0 None)) = None.
Proof.
  apply (repeat_button_cycles 4 (mkPlayer false 0 0 None)). reflexivity.
Defined.

End ControlFacts.

(** ** Creating a graph while the old context is still closing *)
Module RaceFacts.
Import EventLoop UseAudioContext.

(** Nothing is ever removed from the log. *)
Definition Kept (m m' : Machine) : Prop :=
  forall e, In e (log (state m)) -> In e (log (state m')).

Lemma Kept_refl (m : Machine) : Kept m m.
Proof. intros e H. exact H. Qed.

Lemma Kept_trans (m1 m2 m3 : Machine) : Kept m1 m2 -> Kept m2 m3 -> Kept m1 m3.
Proof. intros H1 H2 e H. auto. Qed.

Ltac kept :=
  let e := fresh "e" in
  let He := fresh "He" in
  intros e He; cbn; repeat first [exact He | right].

Lemma Kept_closeCall (p : Platform) (c : nat) (ctx : AudioContextObj) (m : Machine) :
  Kept m (fst (closeCall p c ctx m)).
Proof.
  unfold closeCall. destruct (closing ctx || negb (isOpen ctx)); kept.
Qed.

Lemma Kept_safelyClose (p : Platform) (context : option nat) (m : Machine) :
  Kept m (fst (safelyCloseAudioContext p context m)).
Proof.
  unfold safelyCloseAudioContext.
  destruct context as [c|]; [|apply Kept_refl].
  destruct (contexts (state m) !! c) as [ctx|]; [|apply Kept_refl].
  destruct (ctxState ctx); try apply Kept_refl; apply Kept_closeCall.
Qed.

Lemma Kept_thenRun (promise : ClosePromise) (k : Callback) (m : Machine) :
  Kept m (thenRun promise k m).
Proof. destruct promise; kept. Qed.

Lemma Kept_retryWrap (p : Platform) (m : Machine) : Kept m (retryWrap p m).
Proof.
  unfold retryWrap, construct, tryWrap. destruct (wrapResult p _); kept.
Qed.

(** [createNewContext] keeps the log, and when the platform has
    [AudioContext] and the element has a source it constructs a context,
    whatever happens to the wrap afterwards. *)
Lemma createNewContext_log (p : Platform) (cl : Hook) (url : option string)
    (m : Machine) :
  Kept m (createNewContext p cl url m)
  /\ (forall a, supported p = true -> audio (state m) = Some a ->
                hasSource a = true ->
                In (Constructed (length (contexts (state m)))
                                (openContexts (state m)))
                   (log (state (createNewContext p cl url m)))).
Proof.
  unfold createNewContext.
  destruct (supported p); cbn [negb];
    [|split; [kept|intros; discriminate]].
  destruct (audio (state m)) as [a|] eqn:Haudio;
    [|split; [kept|intros; discriminate]].
  assert (Hbody : forall m1 : Machine,
    let result :=
         (let (m2, c) := construct p m1 in
          let (m3, result) := tryWrap p c m2 in
          match result with
          | WrapOk =>
            let m4 := withState (connectAndPublish c) m3 in
            match initialState p with
            | suspended => enqueue AfterResume (withState (resume p c) m4)
            | _ => finish true m4
            end
          | WrapThrows message =>
            if includes message "already connected" then
              match audioContext cl with
              | Some old =>
                let (m4, promise) := safelyCloseAudioContext p (Some old) m3 in
                thenRun promise (AfterClose cl) m4
              | None => retryWrap p m3
              end
            else finish false m3
          end) in
    Kept m1 result
    /\ In (Constructed (length (contexts (state m1))) (openContexts (state m1)))
          (log (state result))).
  { intros m1. cbv zeta. unfold construct, tryWrap.
    destruct (wrapResult p _) as [|message].
    - unfold resume.
      destruct (initialState p); [destruct (resumeSucceeds p)| |];
        (split; [kept|cbn; auto]).
    - destruct (includes message "already connected");
        [|split; [kept|cbn; auto]].
      destruct (audioContext cl) as [old|].
      + match goal with
        | |- context [safelyCloseAudioContext p (Some old) ?m3] =>
          pose proof (Kept_safelyClose p (Some old) m3) as H;
          destruct (safelyCloseAudioContext p (Some old) m3) as [m4 promise];
          pose proof (Kept_thenRun promise (AfterClose cl) m4) as H';
          assert (H3 : Kept m1 m3) by kept;
          assert (H3' : In (Constructed (length (contexts (state m1)))
                                        (openContexts (state m1)))
                           (log (state m3))) by (cbn; auto)
        end.
        cbn [fst] in H. split.
        * eapply Kept_trans; [exact H3|]. eapply Kept_trans; [exact H|exact H'].
        * apply H', H, H3'.
      + match goal with
        | |- context [retryWrap p ?m3] =>
          pose proof (Kept_retryWrap p m3) as H;
          assert (H3 : Kept m1 m3) by kept;
          assert (H3' : In (Constructed (length (contexts (state m1)))
                                        (openContexts (state m1)))
                           (log (state m3))) by (cbn; auto)
        end.
        split; [eapply Kept_trans; [exact H3|exact H]|apply H, H3']. }
  destruct (hasSource a) eqn:Hsrc.
  - destruct (Hbody m) as [HK Hin]. split; [exact HK|]. intros a' _ _ _. exact Hin.
  - split; [|intros a' _ [= <-] Hsrc'; congruence].
    destruct url as [u|]; [|kept].
    destruct (String.eqb u EmptyString); [kept|].
    match goal with
    | |- Kept m (let (m2, c) := construct p ?m1 in _) =>
      destruct (Hbody m1) as [HK _];
      apply (Kept_trans m m1); [kept|exact HK]
    end.
Qed.

Lemma Kept_exec (p : Platform) (k : Callback) (m : Machine) :
  Kept m (exec p k m).
Proof.
  destruct k as [c| |cl url|cl|]; cbn [exec].
  - unfold onCloseDone. intros e He.
    rewrite ContextFacts.state_enqueue_all. cbn. auto.
  - kept.
  - apply createNewContext_log.
  - eapply Kept_trans; [|apply Kept_retryWrap]. kept.
  - kept.
Qed.

Lemma Kept_run (p : Platform) (fuel : nat) (m : Machine) :
  Kept m (run (exec p) fuel m).
Proof.
  revert m. induction fuel as [|fuel IH]; intros m; [apply Kept_refl|].
  cbn [run]. unfold step.
  destruct (microtasks m) as [|k rest].
  - destruct (earliest (timers m)) as [t|]; [|apply Kept_refl].
    eapply Kept_trans; [|apply IH].
    eapply Kept_trans; [|apply Kept_exec]. kept.
  - eapply Kept_trans; [|apply IH].
    eapply Kept_trans; [|apply Kept_exec]. kept.
Qed.


(** Code that runs within one turn does not move the clock. *)
Lemma clock_safelyClose (p : Platform) (context : option nat) (m : Machine) :
  clock (fst (safelyCloseAudioContext p context m)) = clock m.
Proof.
  unfold safelyCloseAudioContext, closeCall.
  destruct context as [c|]; [|reflexivity].
  destruct (contexts (state m) !! c) as [ctx|]; [|reflexivity].
  destruct (ctxState ctx); try reflexivity;
    destruct (closing ctx || negb (isOpen ctx)); reflexivity.
Qed.

Lemma clock_thenRun (promise : ClosePromise) (k : Callback) (m : Machine) :
  clock (thenRun promise k m) = clock m.
Proof. destruct promise; reflexivity. Qed.

Lemma clock_retryWrap (p : Platform) (m : Machine) :
  clock (retryWrap p m) = clock m.
Proof.
  unfold retryWrap, construct, tryWrap. destruct (wrapResult p _); reflexivity.
Qed.

Lemma clock_createNewContext (p : Platform) (cl : Hook) (url : option string)
    (m : Machine) :
  clock (createNewContext p cl url m) = clock m.
Proof.
  unfold createNewContext.
  destruct (supported p); cbn [negb]; [|reflexivity].
  destruct (audio (state m)) as [a|]; [|reflexivity].
  assert (Hbody : forall m1 : Machine,
    clock
         (let (m2, c) := construct p m1 in
          let (m3, result) := tryWrap p c m2 in
          match result with
          | WrapOk =>
            let m4 := withState (connectAndPublish c) m3 in
            match initialState p with
            | suspended => enqueue AfterResume (withState (resume p c) m4)
            | _ => finish true m4
            end
          | WrapThrows message =>
            if includes message "already connected" then
              match audioContext cl with
              | Some old =>
                let (m4, promise) := safelyCloseAudioContext p (Some old) m3 in
                thenRun promise (AfterClose cl) m4
              | None => retryWrap p m3
              end
            else finish false m3
          end) = clock m1).
  { intros m1. unfold construct, tryWrap.
    destruct (wrapResult p _) as [|message].
    - cbv zeta. destruct (initialState p); reflexivity.
    - destruct (includes message "already connected"); [|reflexivity].
      destruct (audioContext cl) as [old|].
      + match goal with
        | |- context [safelyCloseAudioContext p (Some old) ?m3] =>
          pose proof (clock_safelyClose p (Some old) m3) as H;
          destruct (safelyCloseAudioContext p (Some old) m3) as [m4 promise]
        end.
        cbn [fst] in H. rewrite clock_thenRun, H. reflexivity.
      + rewrite clock_retryWrap. reflexivity. }
  destruct (hasSource a); [apply Hbody|].
  destruct url as [u|]; [|reflexivity].
  destruct (String.eqb u EmptyString); [reflexivity|].
  rewrite Hbody. reflexivity.
Qed.

(** C3 fails when the close of the old context takes longer than the
    fixed wait.  [createAudioContext] on a live graph calls
    [safeResetAudioContext], which returns with the close only requested:
    context 0 is still open and still stored.  The wait "to ensure context
    is properly reset" is a timer of 100 ms, not the close: on every platform
    that has [AudioContext] and whose close takes more than 100 ms, the timer
    fires first, at 100 ms, and [createNewContext] constructs context 1
    while context 0 is open, whatever the wrap does afterwards and however
    long the loop runs. *)
Theorem create_constructs_before_close_completes :
  forall (p : Platform) (url : option string) (fuel : nat),
    supported p = true ->
    (100 < closeLatency p)%nat ->
    let started := createAudioContext p (hook (state ready)) url ready in
    let later := run (exec p) (S fuel) started in
    openContexts (state started) = [0%nat]
    /\ audioContext (hook (state started)) = Some 0%nat
    /\ closeCalls 0 (state started) = 1%nat
    /\ log (state started) = [CloseCalled 0]
    /\ (clock (run (exec p) 1 started) = 100)%nat
    /\ In (Constructed 1 [0%nat]) (log (state (run (exec p) 1 started)))
    /\ In (Constructed 1 [0%nat]) (log (state later))
    /\ ~ ContextFacts.closedBeforeConstruct 0 (state later).
Proof.
  intros p url fuel Hsup Hslow started later.
  assert (Hstart : started
    = mkLoop 0 3 [] [mkTimer 1 (closeLatency p) (CloseDone 0);
                     mkTimer 2 100 (CreateTimer (hook (state ready)) url)]
        (mkWorld [mkContext running true true false false]
                 (mkHook (Some 0%nat) None None) (Some ContextFacts.songElement)
                 None [(0%nat, ResetThen)] [CloseCalled 0]))
    by apply ContextFacts.createAudioContext_ready.
  set (m0 := mkLoop 100 3 [] [mkTimer 1 (closeLatency p) (CloseDone 0)]
        (mkWorld [mkContext running true true false false]
                 (mkHook (Some 0%nat) None None) (Some ContextFacts.songElement)
                 None [(0%nat, ResetThen)] [CloseCalled 0])).
  assert (Hturn : run (exec p) 1 started
                  = createNewContext p (hook (state ready)) url m0).
  { rewrite Hstart. unfold run, step.
    cbn [microtasks timers clock nextId state app earliest t_due t_id t_callback].
    replace (Nat.leb (closeLatency p) 100) with false
      by (symmetry; apply Nat.leb_gt; lia).
    reflexivity. }
  destruct (createNewContext_log p (hook (state ready)) url m0) as [_ Hbuilt].
  specialize (Hbuilt ContextFacts.songElement Hsup eq_refl eq_refl).
  change (length (contexts (state m0))) with 1%nat in Hbuilt.
  change (openContexts (state m0)) with [0%nat] in Hbuilt.
  assert (Hlater : In (Constructed 1 [0%nat]) (log (state later))).
  { subst later. change (S fuel) with (1 + fuel)%nat.
    rewrite LoopFacts.run_add. apply Kept_run. rewrite Hturn. exact Hbuilt. }
  rewrite Hstart at 1 2 3 4.
  split; [reflexivity|]. split; [reflexivity|]. split; [reflexivity|].
  split; [reflexivity|]. split; [|split; [|split]].
  - rewrite Hturn, clock_createNewContext. reflexivity.
  - rewrite Hturn. exact Hbuilt.
  - exact Hlater.
  - intros Hclosed. apply (Hclosed 1%nat [0%nat] Hlater). left. reflexivity.
Qed.
Lemma create_constructs_before_close_completes_witness :
  let p := ContextFacts.smooth 250 in
  let started := createAudioContext p (hook (state ready)) None ready in
  let later := run (exec p) (S 9) started in
  openContexts (state started) = [0%nat]
  /\ audioContext (hook (state started)) = Some 0%nat
  /\ closeCalls 0 (state started) = 1%nat
  /\ log (state started) = [CloseCalled 0]
  /\ (clock (run (exec p) 1 started) = 100)%nat
  /\ In (Constructed 1 [0%nat]) (log (state (run (exec p) 1 started)))
  /\ In (Constructed 1 [0%nat]) (log (state later))
  /\ ~ ContextFacts.closedBeforeConstruct 0 (state later).
Proof.
  apply (create_constructs_before_close_completes (ContextFacts.smooth 250) None 9);
    [reflexivity|cbn; lia].
Defined.

End RaceFacts.

(** ** The published bass value *)
Module BassValueFacts.
Import EventLoop BassAnalysis.

Lemma js_pow_unit (x y : R) :
  (0 <= x <= 1)%R -> (0 <= y)%R -> (0 <= js_pow x y <= 1)%R.
Proof.
  intros [H0 H1] Hy. unfold js_pow. destruct (Req_EM_T x 0) as [_|Hne]; [lra|].
  assert (Hpos : (0 < x)%R) by lra.
  split.
  - left. unfold Rpower. apply exp_pos.
  - replace 1%R with (Rpower 1 y).
    + apply Rle_Rpower_l; [exact Hy|lra].
    + unfold Rpower. rewrite ln_1, Rmult_0_r. apply exp_0.
Qed.

Lemma scaledBass_bounds (b : Bass) :
  AnalysisFacts.inRange b -> (0 <= scaledBass b <= 0.8)%R.
Proof.
  destruct b as [|bassSum maxBassValue]; cbn [AnalysisFacts.inRange scaledBass].
  - intros _. lra.
  - intros [Hmax Hsum]. cbv zeta.
    set (x := (IZR bassSum / (INR bassRange * 255) * 0.7
               + IZR maxBassValue / 255 * 0.3)%R).
    assert (Hx : (0 <= x)%R).
    { assert (Hs : (0 <= IZR bassSum)%R) by (apply IZR_le; lia).
      assert (Hm : (0 <= IZR maxBassValue)%R) by (apply IZR_le; lia).
      replace x with (IZR bassSum * (7 / 20400) + IZR maxBassValue * (3 / 2550))%R
        by (subst x; unfold bassRange; cbn [INR];
            change 0.7%R with (7 / 10)%R; change 0.3%R with (3 / 10)%R; field).
      lra. }
    assert (Hn : (0 <= Rmin 1 x <= 1)%R).
    { split; [apply Rmin_glb; lra|apply Rmin_l]. }
    pose proof (js_pow_unit (Rmin 1 x) 0.8 Hn ltac:(lra)) as Hp. nra.
Qed.

Lemma bassWindow_take (dataArray : list Z) :
  (bassRange <= length dataArray)%nat ->
  fst (bassWindow dataArray) = fold_right Z.add 0 (take bassRange dataArray)
  /\ snd (bassWindow dataArray) = peakOf (take bassRange dataArray).
Proof.
  unfold bassRange. intros Hlen.
  do 8 (destruct dataArray as [|? dataArray]; [cbn in Hlen; lia|]).
  unfold bassWindow, peakOf, bassRange. cbn. rewrite take_0. cbn.
  split; [lia|].
  rewrite !Z.max_assoc, (Z.max_comm _ 0), !Z.max_assoc. reflexivity.
Qed.

Lemma dataArrayOf_length (snapshot : list Byte.byte) :
  length (dataArrayOf snapshot) = 128%nat.
Proof.
  unfold dataArrayOf. rewrite length_take, length_app, repeat_length. lia.
Qed.

(** Two snapshots by hand: all eight bins at 255 publish 0.8, the top of the
    range; an empty snapshot leaves the array at zero and publishes 0. *)
Definition loudest : FrequencySource := fun _ _ => Some (repeat Byte.xff 8).

Definition silent : FrequencySource := fun _ _ => Some [].

Lemma js_pow_one (y : R) : js_pow 1 y = 1%R.
Proof.
  unfold js_pow. destruct (Req_EM_T 1 0) as [H|_]; [lra|].
  unfold Rpower. rewrite ln_1, Rmult_0_r. apply exp_0.
Qed.

Lemma js_pow_zero (y : R) : js_pow 0 y = 0%R.
Proof.
  unfold js_pow. destruct (Req_EM_T 0 0) as [_|H]; [reflexivity|contradiction].
Qed.

Example loudest_snapshot_publishes_point_eight :
  bassValue (state (analyzeBass loudest 0 mounted)) = BassScaled 2040 255
  /\ scaledBass (bassValue (state (analyzeBass loudest 0 mounted))) = 0.8%R.
Proof.
  assert (H : bassValue (state (analyzeBass loudest 0 mounted)) = BassScaled 2040 255)
    by (vm_compute; reflexivity).
  split; [exact H|]. rewrite H. unfold scaledBass, bassRange. cbn [INR]. cbv zeta.
  replace (IZR 2040 / ((1 + 1 + 1 + 1 + 1 + 1 + 1 + 1) * 255) * 0.7
           + IZR 255 / 255 * 0.3)%R
    with 1%R by lra.
  rewrite Rmin_left by lra. rewrite js_pow_one. lra.
Qed.

Example silent_snapshot_publishes_zero :
  bassValue (state (analyzeBass silent 0 mounted)) = BassScaled 0 0
  /\ scaledBass (bassValue (state (analyzeBass silent 0 mounted))) = 0%R.
Proof.
  assert (H : bassValue (state (analyzeBass silent 0 mounted)) = BassScaled 0 0)
    by (vm_compute; reflexivity).
  split; [exact H|]. rewrite H. unfold scaledBass, bassRange. cbn [INR]. cbv zeta.
  replace (IZR 0 / ((1 + 1 + 1 + 1 + 1 + 1 + 1 + 1) * 255) * 0.7
           + IZR 0 / 255 * 0.3)%R
    with 0%R by lra.
  rewrite Rmin_right by lra. rewrite js_pow_zero. lra.
Qed.

(** C4: a tick whose read succeeds publishes the value of the formula, and
    the published value is always within [0, 0.8].  For every snapshot the
    number handed to [setBassValue] is the specification's output for the
    eight lowest bins of the array: their mean and their maximum, each
    divided by 255, blended 0.7 to 0.3 and cut off at 1, raised to the power
    0.8 and multiplied by 0.8.  In every state the player can reach the
    published number lies between 0 and 0.8.  Numbers are real numbers. *)
Theorem bass_output_formula_and_bounds :
  (forall (source : FrequencySource) (node : nat) (l : Loop Viz Callback)
          (snapshot : list Byte.byte),
      source node (reads (state l)) = Some snapshot ->
      scaledBass (bassValue (state (analyzeBass source node l)))
      = specOutput (take bassRange (dataArrayOf snapshot)))
  /\ (forall (source : FrequencySource) (events : list Event),
        (0 <= scaledBass (bassValue (state (play source events))) <= 0.8)%R).
Proof.
  split.
  - intros source node l snapshot Hread. unfold analyzeBass. rewrite Hread.
    cbn [state withState setFrameRef setTimer setBassValue bassValue].
    destruct (bassWindow_take (dataArrayOf snapshot)) as [Hsum Hmax].
    { rewrite dataArrayOf_length. unfold bassRange. lia. }
    unfold scaledBass, specOutput, mean. rewrite Hsum, Hmax.
    rewrite length_take, dataArrayOf_length.
    replace (bassRange `min` 128)%nat with bassRange by (unfold bassRange; lia).
    cbv zeta. f_equal. f_equal. f_equal. f_equal.
    unfold bassRange. cbn [INR]. field.
  - intros source events. apply scaledBass_bounds. apply AnalysisFacts.inRange_play.
Qed.

Lemma bass_output_formula_and_bounds_witness :
  scaledBass (bassValue (state (analyzeBass loudest 0 mounted)))
  = specOutput (take bassRange (dataArrayOf (repeat Byte.xff 8)))
  /\ (0 <= scaledBass (bassValue (state (play loudest [Render (Some 0%nat) true; Turn])))
      <= 0.8)%R.
Proof.
  split.
  - apply (proj1 bass_output_formula_and_bounds loudest 0%nat mounted). reflexivity.
  - apply (proj2 bass_output_formula_and_bounds).
Defined.

End BassValueFacts.
